(** * Weighted randomised Kruskal maze generation and layered BFS solver

    A shallow embedding of [maze_solver_bfs.py] (and of the neighbour table of
    [weighted_kruskal_maze.py]) together with the properties of the
    union-find structure, the wall classifier, the generation scheduler and
    the solver.

    Conventions of the embedding:
    - Python lists are [list]s read with [!!] and written with [<[i:=x]>];
      a read outside the list is Python's [IndexError] and yields [None].
    - Functions that may raise, or whose [while] loop may not terminate, live
      in the [option] monad: [None] stands for "raised or did not return".
    - Wall dictionaries are shared objects: every wall object sits in exactly
      one slot of [walls_by_index], and the slot number is used as the
      reference to the object wherever the script passes the dictionary
      around (in the buckets, as a function argument).
    - The floats of the weighted selection are idealised as rationals. *)

From Stdlib Require Import ZArith QArith Qround Lia Lqa.
From stdpp Require Import base tactics option list numbers.

Local Open Scope nat_scope.

(** ** Union-find over a growable array *)

Module UF.

(** [while len(union_find) <= cell: union_find.append(-1)] *)
Definition grow (a : list Z) (cell : nat) : list Z :=
  a ++ replicate (S cell - length a) (-1)%Z.

(** [while union_find[cell] >= 0: cell = union_find[cell]].
    The fuel bounds the number of loop tests. *)
Fixpoint find_root (fuel : nat) (a : list Z) (cell : nat) : option nat :=
  match fuel with
  | 0 => None
  | S f =>
      v ← a !! cell;
      if (0 <=? v)%Z then find_root f a (Z.to_nat v) else Some cell
  end.

(** [while union_find[src] >= 0 and union_find[src] != cell:
       temp = union_find[src]; union_find[src] = cell; src = temp] *)
Fixpoint compress (fuel : nat) (a : list Z) (src root : nat) : option (list Z) :=
  match fuel with
  | 0 => None
  | S f =>
      v ← a !! src;
      if (0 <=? v)%Z && negb (v =? Z.of_nat root)%Z
      then compress f (<[src := Z.of_nat root]> a) (Z.to_nat v) root
      else Some a
  end.

(** [ufind(cell)]: both loops run with as many tests as the array has
    entries; a parent chain that needs more runs in a cycle, on which the
    script would loop forever. *)
Definition ufind (a : list Z) (cell : nat) : option (list Z * nat) :=
  let a1 := grow a cell in
  r ← find_root (length a1) a1 cell;
  a2 ← compress (length a1) a1 cell r;
  Some (a2, r).

(** [union(cell_i, cell_j)] *)
Definition union (a : list Z) (cell_i cell_j : nat) : option (list Z * bool) :=
  '(a1, i) ← ufind a cell_i;
  '(a2, j) ← ufind a1 cell_j;
  if decide (i ≠ j) then
    vi ← a2 !! i;
    vj ← a2 !! j;
    if (vj <=? vi)%Z
    then Some (<[i := Z.of_nat j]> (<[j := (vj + vi)%Z]> a2), true)
    else Some (<[j := Z.of_nat i]> (<[i := (vi + vj)%Z]> a2), true)
  else Some (a2, false).

(** *** Specification vocabulary *)

(** [reaches a c r n]: following parent links from [c] ends after [n] links
    at the root [r]. *)
Inductive reaches (a : list Z) : nat → nat → nat → Prop :=
  | reaches_root c v :
      a !! c = Some v → (v < 0)%Z → reaches a c c 0
  | reaches_step c v r n :
      a !! c = Some v → (0 <= v)%Z → reaches a (Z.to_nat v) r n →
      reaches a c r (S n).

(** Every slot leads to a root. *)
Definition wf (a : list Z) : Prop :=
  ∀ c, c < length a → ∃ r n, reaches a c r n.

(** The component representative of a cell; a cell the array has not grown
    to yet is a singleton. *)
Definition root (a : list Z) (c : nat) : nat :=
  default c (find_root (length a) a c).

Definition same (a : list Z) (x y : nat) : Prop := root a x = root a y.

(** Number of cells [c < n] with [f c = r]. *)
Fixpoint count_eq (f : nat → nat) (r n : nat) : nat :=
  match n with
  | 0 => 0
  | S m => (if decide (f m = r) then 1 else 0) + count_eq f r m
  end.

(** Number of slots of the array in the component of [r]. *)
Definition size_of (a : list Z) (r : nat) : nat :=
  count_eq (root a) r (length a).

(** Roots store the negated size of their component. *)
Definition sized (a : list Z) : Prop :=
  ∀ r v, a !! r = Some v → (v < 0)%Z → v = (- Z.of_nat (size_of a r))%Z.

Definition inv (a : list Z) : Prop := wf a ∧ sized a.

(** Number of slots that hold a parent link. *)
Definition links (a : list Z) : nat :=
  length (filter (λ v, (0 <= v)%Z) a).

(** *** Parent chains *)

Lemma reaches_fun a c r n r' n' :
  reaches a c r n → reaches a c r' n' → r = r' ∧ n = n'.
Proof.
  intros H. revert r' n'.
  induction H as [c v Hc Hv | c v r n Hc Hv _ IH]; intros r' n' H'.
  - inversion H'; simplify_eq; [done | lia].
  - inversion H'; simplify_eq; [lia |].
    destruct (IH _ _ ltac:(eassumption)) as [-> ->]. done.
Qed.

Lemma reaches_is_root a c r n :
  reaches a c r n → ∃ v, a !! r = Some v ∧ (v < 0)%Z.
Proof. induction 1; eauto. Qed.

Lemma reaches_lt a c r n : reaches a c r n → c < length a ∧ r < length a.
Proof.
  induction 1 as [c v Hc Hv | c v r n Hc Hv _ IH].
  - apply lookup_lt_Some in Hc. lia.
  - apply lookup_lt_Some in Hc. lia.
Qed.

(** A chain never visits a slot twice, so it is shorter than the array. *)
Lemma reaches_bound_aux a c r n :
  reaches a c r n →
  ∀ seen : list nat,
    NoDup seen →
    (∀ x, x ∈ seen → ∃ m, reaches a x r m ∧ n < m) →
    length seen + n + 1 ≤ length a.
Proof.
  induction 1 as [c v Hc Hv | c v r n Hc Hv Hr IH]; intros seen Hnd Hseen.
  - assert (Hnd' : NoDup (c :: seen)).
    { constructor; [|done]. intros Hin.
      destruct (Hseen _ Hin) as (m & Hm & Hlt).
      destruct (reaches_fun _ _ _ _ _ _ Hm (reaches_root a c v Hc Hv)). lia. }
    assert (Hsub : c :: seen ⊆ seq 0 (length a)).
    { intros x Hx. apply elem_of_seq. apply elem_of_cons in Hx as [->|Hx].
      - apply lookup_lt_Some in Hc. lia.
      - destruct (Hseen _ Hx) as (m & Hm & _). apply reaches_lt in Hm. lia. }
    pose proof (submseteq_length _ _ (NoDup_submseteq _ _ Hnd' Hsub)) as Hl.
    rewrite length_seq in Hl. simpl in Hl. lia.
  - assert (Hc' : reaches a c r (S n)) by (by eapply reaches_step).
    assert (Hnd' : NoDup (c :: seen)).
    { constructor; [|done]. intros Hin.
      destruct (Hseen _ Hin) as (m & Hm & Hlt).
      destruct (reaches_fun _ _ _ _ _ _ Hm Hc'). lia. }
    specialize (IH (c :: seen) Hnd'). simpl in IH.
    assert (length seen + 1 + n + 1 ≤ length a); [|lia].
    replace (length seen + 1 + n + 1) with (S (length seen + n + 1)) by lia.
    apply IH. intros x Hx. apply elem_of_cons in Hx as [->|Hx].
    + exists (S n). split; [done | lia].
    + destruct (Hseen _ Hx) as (m & Hm & Hlt). exists m. split; [done | lia].
Qed.

Lemma reaches_bound a c r n : reaches a c r n → n < length a.
Proof.
  intros H. pose proof (reaches_bound_aux a c r n H [] (NoDup_nil_2)) as Hb.
  simpl in Hb. assert (n + 1 ≤ length a); [|lia].
  apply Hb. intros x Hx. by apply elem_of_nil in Hx.
Qed.

Lemma find_root_reaches fuel a c r n :
  reaches a c r n → n < fuel → find_root fuel a c = Some r.
Proof.
  intros H. revert fuel.
  induction H as [c v Hc Hv | c v r n Hc Hv _ IH]; intros fuel Hf.
  - destruct fuel; [lia|]. simpl. rewrite Hc. simpl.
    destruct (Z.leb_spec 0 v); [lia | done].
  - destruct fuel; [lia|]. simpl. rewrite Hc. simpl.
    destruct (Z.leb_spec 0 v); [|lia]. apply IH. lia.
Qed.

Lemma find_root_Some fuel a c r :
  find_root fuel a c = Some r → ∃ n, reaches a c r n ∧ n < fuel.
Proof.
  revert c. induction fuel as [|f IH]; intros c H; [done|].
  simpl in H. destruct (a !! c) as [v|] eqn:Hc; [|done]. simpl in H.
  destruct (Z.leb_spec 0 v).
  - destruct (IH _ H) as (n & Hn & Hlt). exists (S n).
    split; [by eapply reaches_step | lia].
  - simplify_eq. exists 0. split; [by eapply reaches_root | lia].
Qed.

Lemma root_reaches a c r n : reaches a c r n → root a c = r.
Proof.
  intros H. unfold root.
  by rewrite (find_root_reaches _ _ _ _ _ H (reaches_bound _ _ _ _ H)).
Qed.

Lemma root_ge a c : length a ≤ c → root a c = c.
Proof.
  intros H. unfold root. destruct (length a) as [|n] eqn:E; [done|].
  simpl. by rewrite lookup_ge_None_2 by lia.
Qed.

Lemma wf_root a c : wf a → c < length a → ∃ n, reaches a c (root a c) n.
Proof.
  intros Hwf Hc. destruct (Hwf c Hc) as (r & n & H).
  rewrite (root_reaches _ _ _ _ H). eauto.
Qed.

Lemma root_lt a c : wf a → c < length a → root a c < length a.
Proof.
  intros Hwf Hc. destruct (wf_root a c Hwf Hc) as [n H].
  by apply reaches_lt in H as [_ ?].
Qed.

Lemma root_root a c : wf a → root a (root a c) = root a c.
Proof.
  intros Hwf. destruct (decide (c < length a)) as [Hc|Hc].
  - destruct (wf_root a c Hwf Hc) as [n H].
    destruct (reaches_is_root _ _ _ _ H) as (v & Hv & Hneg).
    by apply (root_reaches _ _ _ 0), (reaches_root _ _ v).
  - assert (Hr : root a c = c) by (apply root_ge; lia). by rewrite !Hr.
Qed.

Lemma root_is_root a c v :
  a !! c = Some v → (v < 0)%Z → root a c = c.
Proof. intros. by apply (root_reaches _ _ _ 0), (reaches_root _ _ v). Qed.

Lemma root_self_neg a c :
  wf a → c < length a → root a c = c → ∃ v, a !! c = Some v ∧ (v < 0)%Z.
Proof.
  intros Hwf Hc Hr. destruct (wf_root a c Hwf Hc) as [n H].
  rewrite Hr in H. by eapply reaches_is_root.
Qed.

(** *** Growth adds singleton roots *)

Lemma length_grow a c : length (grow a c) = max (length a) (S c).
Proof. unfold grow. rewrite length_app, length_replicate. lia. Qed.

Lemma grow_lookup_old a c x : x < length a → grow a c !! x = a !! x.
Proof. intros. unfold grow. by rewrite lookup_app_l. Qed.

Lemma grow_lookup_new a c x :
  length a ≤ x → x ≤ c → grow a c !! x = Some (-1)%Z.
Proof.
  intros. unfold grow. rewrite lookup_app_r by done.
  apply lookup_replicate_2. lia.
Qed.

Lemma grow_lookup_Some a c x v :
  grow a c !! x = Some v → a !! x = Some v ∨ (length a ≤ x ∧ v = (-1)%Z).
Proof.
  unfold grow. rewrite lookup_app_Some. intros [?|[? H]]; [by left|right].
  apply lookup_replicate in H as [-> _]. done.
Qed.

Lemma reaches_grow a c x r n : reaches a x r n → reaches (grow a c) x r n.
Proof.
  induction 1 as [x v Hx Hv | x v r n Hx Hv _ IH].
  - eapply reaches_root; [|done]. rewrite grow_lookup_old; [done|].
    by eapply lookup_lt_Some.
  - eapply reaches_step; [|done..]. rewrite grow_lookup_old; [done|].
    by eapply lookup_lt_Some.
Qed.

Lemma wf_grow a c : wf a → wf (grow a c).
Proof.
  intros Hwf x Hx. destruct (decide (x < length a)) as [Hlt|Hge].
  - destruct (Hwf x Hlt) as (r & n & H). exists r, n. by apply reaches_grow.
  - rewrite length_grow in Hx. exists x, 0.
    eapply reaches_root; [apply grow_lookup_new; lia | lia].
Qed.

Lemma root_grow a c x : wf a → root (grow a c) x = root a x.
Proof.
  intros Hwf. destruct (decide (x < length a)) as [Hlt|Hge].
  - destruct (wf_root a x Hwf Hlt) as [n H].
    by apply (root_reaches _ _ _ n), reaches_grow.
  - rewrite (root_ge a x) by lia. destruct (decide (x ≤ c)).
    + apply (root_is_root _ _ (-1)%Z); [apply grow_lookup_new; lia | lia].
    + apply root_ge. rewrite length_grow. lia.
Qed.

(** *** Path compression keeps every representative *)

Lemma reaches_redirect a s r k x r' m :
  reaches a s r (S k) → reaches a x r' m →
  ∃ m', reaches (<[s := Z.of_nat r]> a) x r' m' ∧ m' ≤ m.
Proof.
  intros Hs. assert (Hs' := Hs). inversion Hs' as [|? vs ? ? Hsv Hvs Hp]; subst.
  destruct (reaches_is_root _ _ _ _ Hs) as (vr & Hr & Hvr).
  assert (r ≠ s) by (intros ->; simplify_eq; lia).
  induction 1 as [x v Hx Hv | x v r' n Hx Hv Hn IH].
  - exists 0. split; [|done]. eapply reaches_root; [|done].
    rewrite list_lookup_insert_ne; [done|]. intros ->. simplify_eq. lia.
  - destruct (decide (x = s)) as [->|Hne].
    + assert (Hx' : reaches a s r' (S n)) by (by eapply reaches_step).
      destruct (reaches_fun _ _ _ _ _ _ Hs Hx') as [<- _].
      exists 1. split; [|lia].
      eapply (reaches_step _ _ (Z.of_nat r)).
      * apply list_lookup_insert_eq. by eapply lookup_lt_Some.
      * lia.
      * rewrite Nat2Z.id. eapply reaches_root; [|done].
        by rewrite list_lookup_insert_ne.
    + destruct IH as (m' & Hm' & Hle). exists (S m'). split; [|lia].
      eapply reaches_step; [|done..]. by rewrite list_lookup_insert_ne.
Qed.

Lemma compress_spec fuel a src r n :
  wf a → reaches a src r n → n < fuel →
  ∃ a', compress fuel a src r = Some a' ∧ length a' = length a ∧ wf a' ∧
    (∀ x, root a' x = root a x) ∧
    (∀ x v, a !! x = Some v → (v < 0)%Z → a' !! x = Some v) ∧
    (∀ x, a' !! x = a !! x ∨ (a' !! x = Some (Z.of_nat r) ∧ root a x = r)).
Proof.
  revert a src n. induction fuel as [|f IH]; intros a src n Hwf Hr Hf; [lia|].
  simpl. inversion Hr as [? v Hsv Hv | ? v ? n' Hsv Hv Hp]; subst.
  - rewrite Hsv. simpl. destruct (Z.leb_spec 0 v); [lia|]. simpl.
    exists a. repeat split; auto.
  - rewrite Hsv. simpl. destruct (Z.leb_spec 0 v); [|lia]. simpl.
    destruct (Z.eqb_spec v (Z.of_nat r)) as [->|Hne]; simpl.
    { exists a. repeat split; auto. }
    set (a1 := <[src := Z.of_nat r]> a).
    assert (Hlen : length a1 = length a) by apply length_insert.
    assert (Hre : ∀ x r' m, reaches a x r' m → ∃ m', reaches a1 x r' m' ∧ m' ≤ m).
    { intros. by eapply reaches_redirect. }
    assert (Hwf1 : wf a1).
    { intros x Hx. rewrite Hlen in Hx. destruct (Hwf x Hx) as (r' & m & Hq).
      destruct (Hre _ _ _ Hq) as (m' & ? & _). eauto. }
    assert (Hroot1 : ∀ x, root a1 x = root a x).
    { intros x. destruct (decide (x < length a)) as [Hx|Hx].
      - destruct (wf_root a x Hwf Hx) as [m Hq].
        destruct (Hre _ _ _ Hq) as (m' & ? & _). by eapply root_reaches.
      - rewrite !root_ge; [done|lia..]. }
    destruct (Hre _ _ _ Hp) as (m' & Hp' & Hle).
    destruct (IH a1 (Z.to_nat v) m' Hwf1 Hp' ltac:(lia))
      as (a' & -> & Hl & Hwf' & Hroot & Hneg & Hmod).
    exists a'. split; [done|]. split; [lia|]. split; [done|].
    split; [|split].
    + intros x. by rewrite Hroot.
    + intros x w Hx Hw. apply Hneg; [|done]. unfold a1.
      rewrite list_lookup_insert_ne; [done|]. intros ->. simplify_eq. lia.
    + intros x. destruct (Hmod x) as [Hx|[Hx Hrx]].
      * rewrite Hx. unfold a1. destruct (decide (x = src)) as [->|].
        -- right. split.
           ++ apply list_lookup_insert_eq. by eapply lookup_lt_Some.
           ++ by eapply root_reaches.
        -- left. by rewrite list_lookup_insert_ne.
      * right. split; [done|]. by rewrite <- Hroot1.
Qed.

(** *** [ufind] *)

Lemma ufind_spec a c :
  wf a →
  ∃ a', ufind a c = Some (a', root a c) ∧
    length a' = max (length a) (S c) ∧ wf a' ∧
    (∀ x, root a' x = root a x) ∧
    (∀ x v, grow a c !! x = Some v → (v < 0)%Z → a' !! x = Some v) ∧
    (∀ x, a' !! x = grow a c !! x ∨
          (a' !! x = Some (Z.of_nat (root a c)) ∧ root a x = root a c)).
Proof.
  intros Hwf. unfold ufind.
  assert (Hwfg := wf_grow a c Hwf).
  assert (Hc : c < length (grow a c)) by (rewrite length_grow; lia).
  destruct (wf_root _ c Hwfg Hc) as [n Hn]. rewrite root_grow in Hn by done.
  rewrite (find_root_reaches _ _ _ _ _ Hn (reaches_bound _ _ _ _ Hn)). simpl.
  destruct (compress_spec (length (grow a c)) _ _ _ _ Hwfg Hn
              (reaches_bound _ _ _ _ Hn))
    as (a' & -> & Hl & Hwf' & Hroot & Hneg & Hmod).
  simpl. exists a'. split; [done|]. rewrite Hl, length_grow.
  split; [done|]. split; [done|]. split; [|split].
  - intros x. by rewrite Hroot, root_grow.
  - done.
  - intros x. destruct (Hmod x) as [?|[? Hx]]; [by left|right].
    split; [done|]. by rewrite root_grow in Hx.
Qed.

(** *** Counting *)

Lemma count_eq_ext f g r n :
  (∀ x, x < n → f x = g x) → count_eq f r n = count_eq g r n.
Proof.
  induction n as [|n IH]; intros H; [done|]. simpl.
  rewrite (H n) by lia. rewrite IH; [done|]. intros. apply H. lia.
Qed.

Lemma count_eq_none f r n :
  (∀ x, x < n → f x ≠ r) → count_eq f r n = 0.
Proof.
  induction n as [|n IH]; intros H; [done|]. simpl.
  destruct (decide (f n = r)) as [E|_]; [by apply H in E; [|lia]|].
  rewrite IH; [done|]. intros. apply H. lia.
Qed.

Lemma count_eq_le f r n : count_eq f r n ≤ n.
Proof. induction n as [|n IH]; simpl; [done|]. case_decide; lia. Qed.

Lemma count_eq_pos f r n x : x < n → f x = r → 1 ≤ count_eq f r n.
Proof.
  induction n as [|n IH]; intros Hx Hf; [lia|]. simpl.
  destruct (decide (f n = r)); [lia|].
  destruct (decide (x = n)) as [->|]; [done|]. apply IH; [lia|done].
Qed.

Lemma count_eq_tail f r n m :
  n ≤ m → (∀ x, n ≤ x < m → f x = x) →
  count_eq f r m = count_eq f r n + (if decide (n ≤ r < m) then 1 else 0).
Proof.
  induction m as [|m IH]; intros Hle Hid.
  - assert (n = 0) as -> by lia. cbn [count_eq]. case_decide; lia.
  - destruct (decide (n = S m)) as [->|Hne].
    { clear IH. case_decide; lia. }
    cbn [count_eq]. rewrite IH by (intros; try apply Hid; lia).
    rewrite (Hid m) by lia.
    repeat case_decide; lia.
Qed.

Lemma count_eq_link_other f i j r n :
  r ≠ i → r ≠ j →
  count_eq (λ x, if decide (f x = i) then j else f x) r n = count_eq f r n.
Proof.
  intros Hi Hj. induction n as [|n IH]; [done|]. simpl. rewrite IH.
  repeat case_decide; congruence.
Qed.

Lemma count_eq_link_survivor f i j n :
  i ≠ j →
  count_eq (λ x, if decide (f x = i) then j else f x) j n
  = count_eq f j n + count_eq f i n.
Proof.
  intros Hij. induction n as [|n IH]; [done|]. simpl. rewrite IH.
  repeat case_decide; try congruence; lia.
Qed.

Lemma links_ext (a a' : list Z) :
  length a = length a' →
  (∀ x v v', a !! x = Some v → a' !! x = Some v' → (0 <= v)%Z ↔ (0 <= v')%Z) →
  links a = links a'.
Proof.
  unfold links. revert a'. induction a as [|v a IH]; intros [|v' a'] Hl H;
    try done.
  rewrite !filter_cons. specialize (IH a' ltac:(by injection Hl)).
  assert (Hv := H 0 v v' eq_refl eq_refl).
  assert (IH' := IH (λ x, H (S x))). clear IH.
  repeat case_decide; simpl; lia.
Qed.

Lemma links_app_neg a k : links (a ++ replicate k (-1)%Z) = links a.
Proof.
  unfold links. rewrite list.filter_app, length_app.
  assert (filter (λ v, (0 <= v)%Z) (replicate k (-1)%Z) = []) as ->; [|simpl; lia].
  induction k as [|k IH]; [done|]. simpl. rewrite filter_cons.
  case_decide; [lia | done].
Qed.

Lemma links_insert (a : list Z) i v w :
  a !! i = Some v →
  links (<[i := w]> a) + (if decide (0 <= v)%Z then 1 else 0)
  = links a + (if decide (0 <= w)%Z then 1 else 0).
Proof.
  unfold links. revert i. induction a as [|u a IH]; intros [|i] Hi; try done.
  - injection Hi as ->. cbn [insert list_insert].
    rewrite !filter_cons. repeat case_decide; simpl; lia.
  - change (<[S i:=w]> (u :: a)) with (u :: <[i:=w]> a).
    rewrite !filter_cons. specialize (IH i Hi).
    destruct (decide (0 <= u)%Z); simpl; lia.
Qed.

Lemma links_lt a : wf a → 0 < length a → links a < length a.
Proof.
  intros Hwf Hpos. destruct (wf_root a 0 Hwf Hpos) as [n Hn].
  destruct (reaches_is_root _ _ _ _ Hn) as (v & Hv & Hneg).
  apply list_elem_of_split_length in Hv as (l1 & l2 & -> & _).
  unfold links. rewrite list.filter_app, filter_cons, !length_app. simpl.
  case_decide; [lia|].
  pose proof (length_filter (λ v, (0 <= v)%Z) l1).
  pose proof (length_filter (λ v, (0 <= v)%Z) l2). lia.
Qed.

(** *** [ufind] keeps the invariant *)

(** The value the slot of a representative holds once the array has grown
    to it. *)
Definition stored (a : list Z) (r : nat) : Z := default (-1)%Z (a !! r).

Lemma ufind_inv a c :
  inv a →
  ∃ a', ufind a c = Some (a', root a c) ∧ inv a' ∧
    length a' = max (length a) (S c) ∧
    (∀ x, root a' x = root a x) ∧
    (∀ x, root a x = x → stored a' x = stored a x) ∧
    links a' = links a ∧
    (∀ x, a' !! x = grow a c !! x ∨
          (a' !! x = Some (Z.of_nat (root a c)) ∧ root a x = root a c)).
Proof.
  intros [Hwf Hsz].
  destruct (ufind_spec a c Hwf) as (a' & Hu & Hl & Hwf' & Hroot & Hneg & Hmod).
  exists a'. split; [done|].
  assert (Hkeep : ∀ x v, a' !! x = Some v → (v < 0)%Z → grow a c !! x = Some v).
  { intros x v Hx Hv. destruct (Hmod x) as [E|[E _]]; [congruence|].
    rewrite Hx in E. simplify_eq. lia. }
  split; [split; [done|]|]; [|split; [done|]; split; [done|]; split; [|split; [|done]]].
  - intros r v Hr Hv. apply Hkeep in Hr as Hg; [|done].
    unfold size_of. rewrite (count_eq_ext _ (root a)) by (intros; apply Hroot).
    rewrite Hl.
    rewrite (count_eq_tail _ _ (length a)); [|lia|intros; apply root_ge; lia].
    apply grow_lookup_Some in Hg as [Ha|[Hge ->]].
    + rewrite (Hsz _ _ Ha Hv). apply lookup_lt_Some in Ha.
      unfold size_of. case_decide; lia.
    + apply lookup_lt_Some in Hr. rewrite Hl in Hr.
      rewrite count_eq_none.
      * case_decide; lia.
      * intros x Hx. pose proof (root_lt a x Hwf Hx). lia.
  - intros x Hx. unfold stored.
    destruct (decide (x < length a)) as [Hlt|Hge].
    + destruct (root_self_neg a x Hwf Hlt Hx) as (v & Hv & Hn).
      rewrite Hv. rewrite (Hneg x v); [done | by rewrite grow_lookup_old | done].
    + rewrite (lookup_ge_None_2 a x) by lia. destruct (decide (x ≤ c)).
      * rewrite (Hneg x (-1)%Z); [done | apply grow_lookup_new; lia | lia].
      * rewrite (lookup_ge_None_2 a' x) by lia. done.
  - unfold grow in *. rewrite <- (links_app_neg a (S c - length a)).
    symmetry. apply links_ext.
    + rewrite Hl, length_app, length_replicate. lia.
    + intros x v v' Hx Hx'. destruct (Hmod x) as [E|[E _]].
      * rewrite Hx, Hx' in E. by simplify_eq.
      * rewrite Hx' in E. simplify_eq. split; [lia|]. intros _.
        destruct (Z.le_gt_cases 0 v) as [|Hn]; [done|].
        rewrite (Hneg _ _ Hx) in Hx' by lia. simplify_eq. lia.
Qed.

(** *** Linking one root under another *)

Lemma link_spec a i j vi vj w :
  wf a → i ≠ j →
  a !! i = Some vi → (vi < 0)%Z → a !! j = Some vj → (vj < 0)%Z → (w < 0)%Z →
  wf (<[i := Z.of_nat j]> (<[j := w]> a)) ∧
  ∀ x, root (<[i := Z.of_nat j]> (<[j := w]> a)) x
       = if decide (root a x = i) then j else root a x.
Proof.
  intros Hwf Hij Hi Hvi Hj Hvj Hw.
  set (a' := <[i := Z.of_nat j]> (<[j := w]> a)).
  assert (Hli : i < length a) by (by eapply lookup_lt_Some).
  assert (Hlj : j < length a) by (by eapply lookup_lt_Some).
  assert (Hlen : length a' = length a) by (unfold a'; by rewrite !length_insert).
  assert (Hi' : a' !! i = Some (Z.of_nat j)).
  { unfold a'. apply list_lookup_insert_eq. by rewrite length_insert. }
  assert (Hj' : a' !! j = Some w).
  { unfold a'. rewrite list_lookup_insert_ne by done.
    by apply list_lookup_insert_eq. }
  assert (Ho : ∀ x, x ≠ i → x ≠ j → a' !! x = a !! x).
  { intros. unfold a'. by rewrite !list_lookup_insert_ne. }
  assert (Hre : ∀ x r m, reaches a x r m →
            ∃ m', reaches a' x (if decide (r = i) then j else r) m').
  { induction 1 as [x v Hx Hv | x v r n Hx Hv _ [m' IH]].
    - destruct (decide (x = i)) as [->|Hxi].
      + exists 1. eapply (reaches_step _ _ (Z.of_nat j)); [done|lia|].
        rewrite Nat2Z.id. by eapply reaches_root.
      + exists 0. destruct (decide (x = j)) as [->|Hxj].
        * by eapply reaches_root.
        * eapply reaches_root; [|done]. by rewrite Ho.
    - exists (S m'). eapply reaches_step; [|done..].
      rewrite Ho; [done|intros ->; simplify_eq; lia..]. }
  split.
  - intros x Hx. rewrite Hlen in Hx. destruct (Hwf x Hx) as (r & m & H).
    destruct (Hre _ _ _ H) as [m' H']. eauto.
  - intros x. destruct (decide (x < length a)) as [Hx|Hx].
    + destruct (wf_root a x Hwf Hx) as [m H].
      destruct (Hre _ _ _ H) as [m' H']. by eapply root_reaches.
    + rewrite (root_ge a x) by lia. rewrite (root_ge a' x) by lia.
      case_decide; [lia|done].
Qed.

Lemma link_inv a i j vi vj :
  inv a → i ≠ j →
  a !! i = Some vi → (vi < 0)%Z → a !! j = Some vj → (vj < 0)%Z →
  inv (<[i := Z.of_nat j]> (<[j := (vj + vi)%Z]> a)) ∧
  (∀ x, root (<[i := Z.of_nat j]> (<[j := (vj + vi)%Z]> a)) x
        = if decide (root a x = i) then j else root a x) ∧
  links (<[i := Z.of_nat j]> (<[j := (vj + vi)%Z]> a)) = S (links a).
Proof.
  intros [Hwf Hsz] Hij Hi Hvi Hj Hvj.
  destruct (link_spec a i j vi vj (vj + vi)%Z) as [Hwf' Hroot]; try done; [lia|].
  set (a' := <[i := Z.of_nat j]> (<[j := (vj + vi)%Z]> a)) in *.
  assert (Hlj : j < length a) by (by eapply lookup_lt_Some).
  assert (Hlen : length a' = length a) by (unfold a'; by rewrite !length_insert).
  split; [split; [done|]|split; [done|]].
  - intros r v Hr Hv. unfold size_of. rewrite Hlen.
    rewrite (count_eq_ext _ _ r _ (λ x _, Hroot x)).
    destruct (decide (r = i)) as [->|Hri].
    { unfold a' in Hr. rewrite list_lookup_insert_eq in Hr
        by (rewrite length_insert; by eapply lookup_lt_Some).
      simplify_eq. lia. }
    destruct (decide (r = j)) as [->|Hrj].
    + unfold a' in Hr. rewrite list_lookup_insert_ne in Hr by done.
      rewrite list_lookup_insert_eq in Hr by done. simplify_eq.
      rewrite count_eq_link_survivor by done.
      rewrite (Hsz _ _ Hi Hvi), (Hsz _ _ Hj Hvj). unfold size_of. lia.
    + unfold a' in Hr. rewrite !list_lookup_insert_ne in Hr by done.
      rewrite count_eq_link_other by done. by apply Hsz.
  - unfold a'.
    assert (Hj' : <[j := (vj + vi)%Z]> a !! i = Some vi)
      by (by rewrite list_lookup_insert_ne).
    pose proof (links_insert _ _ _ (Z.of_nat j) Hj') as H1.
    pose proof (links_insert _ _ _ (vj + vi)%Z Hj) as H2.
    repeat case_decide; lia.
Qed.

(** *** [union] *)

(** The representative that stays a root when the components of [ci] and
    [cj] are merged: the second one unless the first is strictly larger. *)
Definition survivor (a : list Z) (ci cj : nat) : nat :=
  if (stored a (root a cj) <=? stored a (root a ci))%Z
  then root a cj else root a ci.

Definition absorbed (a : list Z) (ci cj : nat) : nat :=
  if (stored a (root a cj) <=? stored a (root a ci))%Z
  then root a ci else root a cj.

Lemma root_stored_neg a r :
  wf a → root a r = r → (stored a r < 0)%Z.
Proof.
  intros Hwf Hr. unfold stored. destruct (decide (r < length a)) as [Hlt|Hge].
  - by destruct (root_self_neg a r Hwf Hlt Hr) as (v & -> & Hv).
  - by rewrite lookup_ge_None_2 by lia.
Qed.

Lemma union_same a ci cj :
  inv a → root a ci = root a cj →
  ∃ a', union a ci cj = Some (a', false) ∧ inv a' ∧
    length a' = max (length a) (max (S ci) (S cj)) ∧
    (∀ x, root a' x = root a x) ∧
    (∀ x, root a x = x → stored a' x = stored a x) ∧
    links a' = links a.
Proof.
  intros Hinv Heq.
  destruct (ufind_inv a ci Hinv) as (a1 & Hu1 & Hinv1 & Hl1 & Hr1 & Hs1 & Hk1 & _).
  destruct (ufind_inv a1 cj Hinv1) as (a2 & Hu2 & Hinv2 & Hl2 & Hr2 & Hs2 & Hk2 & _).
  exists a2. unfold union. rewrite Hu1. simpl. rewrite Hu2. simpl.
  rewrite Hr1, Heq. case_decide; [done|].
  split; [done|]. split; [done|]. split; [lia|]. split; [|split].
  - intros x. by rewrite Hr2, Hr1.
  - intros x Hx. rewrite Hs2 by (by rewrite Hr1). by apply Hs1.
  - lia.
Qed.

Lemma union_merge a ci cj :
  inv a → root a ci ≠ root a cj →
  ∃ a', union a ci cj = Some (a', true) ∧ inv a' ∧
    length a' = max (length a) (max (S ci) (S cj)) ∧
    (∀ x, root a' x
          = if decide (root a x = absorbed a ci cj)
            then survivor a ci cj else root a x) ∧
    a' !! survivor a ci cj
      = Some (stored a (root a ci) + stored a (root a cj))%Z ∧
    a' !! absorbed a ci cj = Some (Z.of_nat (survivor a ci cj)) ∧
    (∀ x, root a x = x → x ≠ root a ci → x ≠ root a cj →
          stored a' x = stored a x) ∧
    links a' = S (links a).
Proof.
  intros Hinv Hne.
  destruct (ufind_inv a ci Hinv) as (a1 & Hu1 & Hinv1 & Hl1 & Hr1 & Hs1 & Hk1 & _).
  destruct (ufind_inv a1 cj Hinv1) as (a2 & Hu2 & Hinv2 & Hl2 & Hr2 & Hs2 & Hk2 & _).
  assert (Hwf := proj1 Hinv). assert (Hwf2 := proj1 Hinv2).
  set (i := root a ci) in *. set (j := root a cj) in *.
  assert (Hroot2 : ∀ x, root a2 x = root a x) by (intros; by rewrite Hr2, Hr1).
  assert (Hst2 : ∀ x, root a x = x → stored a2 x = stored a x).
  { intros x Hx. rewrite Hs2 by (by rewrite Hr1). by apply Hs1. }
  assert (Hii : root a i = i) by apply (root_root a ci Hwf).
  assert (Hjj : root a j = j) by apply (root_root a cj Hwf).
  assert (Hi : ∃ vi, a2 !! i = Some vi ∧ (vi < 0)%Z ∧ vi = stored a i).
  { destruct (root_self_neg a2 i Hwf2) as (v & Hv & Hn).
    - rewrite Hl2, Hl1. destruct (decide (ci < length a)) as [Hc|Hc].
      + pose proof (root_lt a ci Hwf Hc). unfold i. lia.
      + unfold i. rewrite root_ge by lia. lia.
    - by rewrite Hroot2.
    - exists v. split; [done|]. split; [done|].
      rewrite <- Hst2 by done. unfold stored. by rewrite Hv. }
  assert (Hj : ∃ vj, a2 !! j = Some vj ∧ (vj < 0)%Z ∧ vj = stored a j).
  { destruct (root_self_neg a2 j Hwf2) as (v & Hv & Hn).
    - rewrite Hl2, Hl1. destruct (decide (cj < length a)) as [Hc|Hc].
      + pose proof (root_lt a cj Hwf Hc). unfold j. lia.
      + unfold j. rewrite root_ge by lia. lia.
    - by rewrite Hroot2.
    - exists v. split; [done|]. split; [done|].
      rewrite <- Hst2 by done. unfold stored. by rewrite Hv. }
  destruct Hi as (vi & Hi & Hvi & Evi). destruct Hj as (vj & Hj & Hvj & Evj).
  unfold union. rewrite Hu1. simpl. rewrite Hu2. simpl. rewrite Hr1.
  fold j. case_decide; [|done]. rewrite Hi. simpl. rewrite Hj. simpl.
  unfold survivor, absorbed. fold i j. rewrite <- Evi, <- Evj.
  destruct (Z.leb_spec vj vi) as [Hle|Hgt].
  - destruct (link_inv a2 i j vi vj Hinv2 Hne Hi Hvi Hj Hvj) as (Hinv' & Hroot' & Hlk).
    eexists. split; [done|]. split; [done|]. split; [rewrite !length_insert; lia|].
    split; [|split; [|split; [|split]]].
    + intros x. rewrite Hroot', !Hroot2. done.
    + rewrite list_lookup_insert_ne by done.
      rewrite list_lookup_insert_eq by (by eapply lookup_lt_Some).
      f_equal. lia.
    + apply list_lookup_insert_eq. rewrite length_insert.
      by eapply lookup_lt_Some.
    + intros x Hx Hxi Hxj. rewrite <- (Hst2 x Hx). unfold stored.
      by rewrite !list_lookup_insert_ne.
    + lia.
  - destruct (link_inv a2 j i vj vi Hinv2 ltac:(done) Hj Hvj Hi Hvi)
      as (Hinv' & Hroot' & Hlk).
    eexists. split; [done|]. split; [done|]. split; [rewrite !length_insert; lia|].
    split; [|split; [|split; [|split]]].
    + intros x. rewrite Hroot', !Hroot2. done.
    + rewrite list_lookup_insert_ne by done.
      by rewrite list_lookup_insert_eq by (by eapply lookup_lt_Some).
    + apply list_lookup_insert_eq. rewrite length_insert.
      by eapply lookup_lt_Some.
    + intros x Hx Hxi Hxj. rewrite <- (Hst2 x Hx). unfold stored.
      by rewrite !list_lookup_insert_ne.
    + lia.
Qed.

Lemma inv_nil : inv [].
Proof.
  split.
  - intros c Hc. simpl in Hc. lia.
  - intros r v Hr. done.
Qed.

(** *** Component sizes and an executable check of the invariant *)

(** Number of cells in the component of the representative [r]; a cell the
    array has not grown to is alone in its component. *)
Definition comp_size (a : list Z) (r : nat) : nat :=
  if decide (r < length a) then size_of a r else 1.

Definition wf_check (a : list Z) : bool :=
  forallb (λ c, match find_root (length a) a c with Some _ => true | None => false end)
          (seq 0 (length a)).

Definition sized_check (a : list Z) : bool :=
  forallb (λ r, match a !! r with
                | Some v => (0 <=? v)%Z || (v =? - Z.of_nat (size_of a r))%Z
                | None => true
                end)
          (seq 0 (length a)).

Definition inv_check (a : list Z) : bool := wf_check a && sized_check a.

Lemma wf_check_sound a : wf_check a = true → wf a.
Proof.
  intros Hw c Hc. unfold wf_check in Hw. rewrite forallb_forall in Hw.
  specialize (Hw c). rewrite in_seq in Hw. specialize (Hw ltac:(lia)).
  destruct (find_root (length a) a c) as [r|] eqn:E; [|done].
  apply find_root_Some in E as (n & Hn & _). eauto.
Qed.

Lemma inv_check_sound a : inv_check a = true → inv a.
Proof.
  unfold inv_check. rewrite andb_true_iff. intros [Hw Hs].
  split; [by apply wf_check_sound|].
  - intros r v Hr Hv. unfold sized_check in Hs. rewrite forallb_forall in Hs.
    specialize (Hs r). rewrite in_seq in Hs. apply lookup_lt_Some in Hr as Hlt.
    specialize (Hs ltac:(lia)). rewrite Hr in Hs.
    apply orb_true_iff in Hs as [Hs|Hs]; [apply Z.leb_le in Hs; lia|].
    by apply Z.eqb_eq in Hs.
Qed.

Lemma stored_comp_size a r :
  inv a → root a r = r → stored a r = (- Z.of_nat (comp_size a r))%Z.
Proof.
  intros [Hwf Hsz] Hr. unfold stored, comp_size. case_decide as Hlt.
  - destruct (root_self_neg a r Hwf Hlt Hr) as (v & Hv & Hn).
    rewrite Hv. simpl. by apply Hsz.
  - by rewrite lookup_ge_None_2 by lia.
Qed.

Lemma size_of_pos a r v :
  wf a → a !! r = Some v → (v < 0)%Z → 1 ≤ size_of a r.
Proof.
  intros Hwf Hr Hv. apply (count_eq_pos _ _ _ r).
  - by eapply lookup_lt_Some.
  - by eapply root_is_root.
Qed.

(** How a merge coarsens the partition. *)
Lemma union_merge_same a ci cj a' :
  wf a → root a ci ≠ root a cj →
  (∀ x, root a' x
        = if decide (root a x = absorbed a ci cj)
          then survivor a ci cj else root a x) →
  same a' ci cj ∧
  (∀ x y, same a x y → same a' x y) ∧
  (∀ x y, same a' x y →
          same a x y ∨ (same a x ci ∧ same a y cj) ∨ (same a x cj ∧ same a y ci)).
Proof.
  intros Hwf Hne Hroot. unfold same, survivor, absorbed in *.
  destruct (stored a (root a cj) <=? stored a (root a ci))%Z.
  - split; [|split].
    + rewrite !Hroot. repeat case_decide; congruence.
    + intros x y E. rewrite !Hroot, E. done.
    + intros x y. rewrite !Hroot.
      repeat case_decide; intros; simplify_eq; auto; left; congruence.
  - split; [|split].
    + rewrite !Hroot. repeat case_decide; congruence.
    + intros x y E. rewrite !Hroot, E. done.
    + intros x y. rewrite !Hroot.
      repeat case_decide; intros; simplify_eq; auto; left; congruence.
Qed.

(** When the first [n] cells share one representative, all slots but one
    hold a parent link. *)
Lemma filter_all (P : Z → Prop) `{∀ x, Decision (P x)} (l : list Z) :
  (∀ x, x ∈ l → P x) → length (filter P l) = length l.
Proof.
  induction l as [|x l IH]; intros Hl; [done|]. rewrite filter_cons.
  case_decide as E; [|by destruct E; apply Hl; left].
  simpl. rewrite IH; [done|]. intros. apply Hl. by right.
Qed.

Lemma links_all_same a n :
  wf a → length a ≤ n →
  (∀ x y, x < n → y < n → same a x y) → links a = n - 1.
Proof.
  intros Hwf Hlen Hsame.
  destruct (decide (length a = 0)) as [E0|Hpos].
  { destruct a; [|done]. unfold links. simpl.
    destruct (decide (n ≤ 1)) as [|Hn]; [lia|].
    specialize (Hsame 0 (n - 1) ltac:(lia) ltac:(lia)). unfold same in Hsame.
    rewrite !root_ge in Hsame by (simpl; lia). lia. }
  assert (Hn : length a = n).
  { destruct (decide (length a = n)) as [|Hne]; [done|].
    specialize (Hsame 0 (n - 1) ltac:(lia) ltac:(lia)). unfold same in Hsame.
    pose proof (root_lt a 0 Hwf ltac:(lia)).
    rewrite (root_ge a (n - 1)) in Hsame by lia. lia. }
  set (r := root a 0).
  assert (Hr : r < length a) by (apply root_lt; [done|lia]).
  destruct (root_self_neg a r Hwf Hr) as (v & Hv & Hneg).
  { apply root_root. done. }
  assert (Hother : ∀ x w, x ≠ r → a !! x = Some w → (0 <= w)%Z).
  { intros x w Hx Hw. destruct (Z.le_gt_cases 0 w) as [|Hlt]; [done|].
    exfalso. apply Hx. rewrite <- (root_is_root a x w Hw) by lia.
    apply lookup_lt_Some in Hw. apply Hsame; lia. }
  apply list_elem_of_split_length in Hv as (l1 & l2 & Ea & Er).
  unfold links. rewrite Ea, list.filter_app, filter_cons, !length_app.
  case_decide; [lia|]. rewrite <- Hn, Ea, length_app. simpl.
  rewrite !filter_all; [lia| |].
  - intros w (k & Hk)%list_elem_of_lookup_1. apply (Hother (S (length l1) + k)).
    + lia.
    + rewrite Ea. rewrite lookup_app_r by lia.
      replace (S (length l1) + k - length l1) with (S k) by lia. done.
  - intros w (k & Hk)%list_elem_of_lookup_1. apply (Hother k).
    + apply lookup_lt_Some in Hk. lia.
    + rewrite Ea. by apply lookup_app_l_Some.
Qed.

(** *** The two operations, as the maze generator relies on them *)

(** C10. [ufind] answers with a root of the array it leaves behind and never
    changes the partition: afterwards every cell gets the answer it got
    before, so two cells get equal answers after the call exactly when they
    did before.  Growth only appends slots holding [-1]; a slot whose content
    changed held a parent link of the caller's component and now links to the
    answer. *)
Theorem ufind_keeps_partition (a : list Z) (c : nat) :
  wf a →
  ∃ a' r, ufind a c = Some (a', r) ∧ wf a' ∧
    (∃ v, a' !! r = Some v ∧ (v < 0)%Z) ∧
    (∀ x, snd <$> ufind a' x = snd <$> ufind a x) ∧
    (∀ x y, snd <$> ufind a' x = snd <$> ufind a' y
            ↔ snd <$> ufind a x = snd <$> ufind a y) ∧
    length a' = max (length a) (S c) ∧
    (∀ x, length a ≤ x < length a' → a' !! x = Some (-1)%Z) ∧
    (∀ x v, a !! x = Some v → a' !! x ≠ Some v →
            (0 <= v)%Z ∧ a' !! x = Some (Z.of_nat r) ∧
            snd <$> ufind a x = Some r).
Proof.
  intros Hwf.
  destruct (ufind_spec a c Hwf) as (a' & Hu & Hl & Hwf' & Hroot & Hneg & Hmod).
  assert (Hans : ∀ b x, wf b → snd <$> ufind b x = Some (root b x)).
  { intros b x Hb. by destruct (ufind_spec b x Hb) as (? & -> & _). }
  assert (Hsame : ∀ x, snd <$> ufind a' x = snd <$> ufind a x).
  { intros x. by rewrite !Hans, Hroot. }
  exists a', (root a c). split; [done|]. split; [done|]. split; [|split; [|split]].
  - apply root_self_neg; [done| |].
    + rewrite Hl. destruct (decide (c < length a)) as [Hc|Hc].
      * pose proof (root_lt a c Hwf Hc). lia.
      * rewrite root_ge by lia. lia.
    + by rewrite Hroot, root_root.
  - done.
  - intros x y. by rewrite !Hsame.
  - split; [done|]. split.
    + intros x Hx. apply Hneg; [|lia]. apply grow_lookup_new; lia.
    + intros x v Hx Hchg. apply lookup_lt_Some in Hx as Hlt.
      destruct (Hmod x) as [E|[E Hr]].
      * rewrite grow_lookup_old in E by done. congruence.
      * split; [|split; [done|by rewrite Hans, Hr]].
        destruct (Z.le_gt_cases 0 v) as [|Hn]; [done|]. exfalso. apply Hchg.
        apply Hneg; [|done]. by rewrite grow_lookup_old.
Qed.

Lemma ufind_keeps_partition_witness :
  ∃ a' r, ufind [1; 2; -3]%Z 0 = Some (a', r) ∧ wf a' ∧
    (∃ v, a' !! r = Some v ∧ (v < 0)%Z) ∧
    (∀ x, snd <$> ufind a' x = snd <$> ufind [1; 2; -3]%Z x) ∧
    (∀ x y, snd <$> ufind a' x = snd <$> ufind a' y
            ↔ snd <$> ufind [1; 2; -3]%Z x = snd <$> ufind [1; 2; -3]%Z y) ∧
    length a' = max (length [1; 2; -3]%Z) 1 ∧
    (∀ x, length [1; 2; -3]%Z ≤ x < length a' → a' !! x = Some (-1)%Z) ∧
    (∀ x v, [1; 2; -3]%Z !! x = Some v → a' !! x ≠ Some v →
            (0 <= v)%Z ∧ a' !! x = Some (Z.of_nat r) ∧
            snd <$> ufind [1; 2; -3]%Z x = Some r).
Proof.
  apply (ufind_keeps_partition [1; 2; -3]%Z 0).
  apply wf_check_sound. reflexivity.
Defined.

(** C5. [union] answers [false] and keeps every representative when the two
    cells already share one.  Otherwise it answers [true] and merges by
    size: the representative of the larger component survives, the one of
    the second argument on a tie; the other one is linked under it, every
    cell of its component moves to the survivor, and the survivor's slot
    holds the negated sum of the two sizes.  In both cases every root of the
    resulting array again holds the negated size of its component, which is
    at least one. *)
Theorem union_merges_by_size (a : list Z) (ci cj : nat) :
  inv a →
  ∃ a' b, union a ci cj = Some (a', b) ∧
    (root a ci = root a cj →
       b = false ∧ ∀ x, root a' x = root a x) ∧
    (root a ci ≠ root a cj →
       b = true ∧
       ∃ winner loser,
         (winner, loser)
           = (if decide (comp_size a (root a ci) ≤ comp_size a (root a cj))
              then (root a cj, root a ci) else (root a ci, root a cj)) ∧
         (∀ x, root a' x = if decide (root a x = loser) then winner else root a x) ∧
         a' !! loser = Some (Z.of_nat winner) ∧
         a' !! winner
           = Some (- Z.of_nat (comp_size a (root a ci) + comp_size a (root a cj)))%Z ∧
         comp_size a' winner = comp_size a (root a ci) + comp_size a (root a cj)) ∧
    wf a' ∧
    (∀ r v, a' !! r = Some v → (v < 0)%Z →
            v = (- Z.of_nat (size_of a' r))%Z ∧ 1 ≤ size_of a' r).
Proof.
  intros Hinv. assert (Hwf := proj1 Hinv).
  assert (Hpost : ∀ a', inv a' → wf a' ∧
            ∀ r v, a' !! r = Some v → (v < 0)%Z →
                   v = (- Z.of_nat (size_of a' r))%Z ∧ 1 ≤ size_of a' r).
  { intros a' [Hw Hs]. split; [done|]. intros r v Hr Hv.
    split; [by apply Hs | by eapply size_of_pos]. }
  destruct (decide (root a ci = root a cj)) as [Heq|Hne].
  - destruct (union_same a ci cj Hinv Heq) as (a' & Hu & Hinv' & _ & Hroot & _).
    exists a', false. split; [done|]. split; [done|]. split; [done|]. by apply Hpost.
  - destruct (union_merge a ci cj Hinv Hne)
      as (a' & Hu & Hinv' & Hlen & Hroot & Hsv & Hab & _ & _).
    exists a', true. split; [done|]. split; [done|]. split; [|by apply Hpost].
    intros _. split; [done|].
    assert (Hi := stored_comp_size a (root a ci) Hinv (root_root a ci Hwf)).
    assert (Hj := stored_comp_size a (root a cj) Hinv (root_root a cj Hwf)).
    exists (survivor a ci cj), (absorbed a ci cj).
    assert (Hsz : comp_size a' (survivor a ci cj)
                  = comp_size a (root a ci) + comp_size a (root a cj)).
    { assert (Hlt : survivor a ci cj < length a') by (by eapply lookup_lt_Some).
      pose proof (proj2 Hinv' _ _ Hsv) as Hv. unfold comp_size at 1.
      pose proof (root_stored_neg a _ Hwf (root_root a ci Hwf)).
      pose proof (root_stored_neg a _ Hwf (root_root a cj Hwf)).
      case_decide; [|lia]. rewrite Hi, Hj in *. lia. }
    split; [|split; [done|]; split; [done|]; split; [|done]].
    + unfold survivor, absorbed. rewrite Hi, Hj.
      destruct (Z.leb_spec (- Z.of_nat (comp_size a (root a cj)))
                           (- Z.of_nat (comp_size a (root a ci))));
        case_decide; (done || lia).
    + rewrite Hsv, Hi, Hj. f_equal. lia.
Qed.

Lemma union_merges_by_size_witness :
  ∃ a' b, union [-2; 0; -1]%Z 2 1 = Some (a', b) ∧
    (root [-2; 0; -1]%Z 2 = root [-2; 0; -1]%Z 1 →
       b = false ∧ ∀ x, root a' x = root [-2; 0; -1]%Z x) ∧
    (root [-2; 0; -1]%Z 2 ≠ root [-2; 0; -1]%Z 1 →
       b = true ∧
       ∃ winner loser,
         (winner, loser)
           = (if decide (comp_size [-2; 0; -1]%Z (root [-2; 0; -1]%Z 2)
                         ≤ comp_size [-2; 0; -1]%Z (root [-2; 0; -1]%Z 1))
              then (root [-2; 0; -1]%Z 1, root [-2; 0; -1]%Z 2)
              else (root [-2; 0; -1]%Z 2, root [-2; 0; -1]%Z 1)) ∧
         (∀ x, root a' x
               = if decide (root [-2; 0; -1]%Z x = loser) then winner
                 else root [-2; 0; -1]%Z x) ∧
         a' !! loser = Some (Z.of_nat winner) ∧
         a' !! winner
           = Some (- Z.of_nat (comp_size [-2; 0; -1]%Z (root [-2; 0; -1]%Z 2)
                               + comp_size [-2; 0; -1]%Z (root [-2; 0; -1]%Z 1)))%Z ∧
         comp_size a' winner
           = comp_size [-2; 0; -1]%Z (root [-2; 0; -1]%Z 2)
             + comp_size [-2; 0; -1]%Z (root [-2; 0; -1]%Z 1)) ∧
    wf a' ∧
    (∀ r v, a' !! r = Some v → (v < 0)%Z →
            v = (- Z.of_nat (size_of a' r))%Z ∧ 1 ≤ size_of a' r).
Proof.
  apply (union_merges_by_size [-2; 0; -1]%Z 2 1).
  apply inv_check_sound. reflexivity.
Defined.

End UF.

(** ** The random source and the drawing surface *)

(** Python's [random] module: [randrange n] draws from [0, n) and [random]
    from [0, 1); both advance the generator state. *)
Class RandomSource (G : Type) := {
  randrange : nat → G → nat * G;
  random : G → Q * G;
  randrange_lt n g : 0 < n → (randrange n g).1 < n;
  random_lo g : (0 <= (random g).1)%Q;
  random_hi g : ((random g).1 < 1)%Q
}.

(** [math.pow(2.0, w * 0.5)], as a rational; it answers a positive
    number. *)
Class MathPow := {
  pow_half : nat → Q;
  pow_half_pos w : (0 < pow_half w)%Q
}.

Inductive colour :=
  | WHITE
  | BLACK
  | PATH_COLOUR
  | solution_colour (k : nat).

(** The calls received by the [screen] object, oldest first. *)
Inductive draw :=
  | screen_fill (c : colour)
  | fill_cell (x y wx wy : Z) (c : colour).

(** ** Walls *)

(** The dictionary [{'x', 'y', 'dr', 'typ', 'clr'}]. *)
Record wall := Wall {
  wall_x : nat;
  wall_y : nat;
  wall_dr : bool;
  wall_typ : nat;
  wall_clr : bool
}.

Definition set_typ (t : nat) (w : wall) : wall :=
  Wall (wall_x w) (wall_y w) (wall_dr w) t (wall_clr w).

Definition set_clr (c : bool) (w : wall) : wall :=
  Wall (wall_x w) (wall_y w) (wall_dr w) (wall_typ w) c.

(** The wall object behind a reference. *)
Definition deref (walls : list (option wall)) (r : nat) : option wall :=
  walls !! r ≫= id.

(** The value of an expression that is [None] or a wall reference. *)
Definition wall_of (walls : list (option wall)) (r : option nat) : option wall :=
  r ≫= deref walls.

(** [w and w['clr']] *)
Definition is_removed (w : option wall) : bool :=
  match w with
  | Some w => wall_clr w
  | None => false
  end.

(** [get_wall_end_type(w1, w2, w3)] *)
Definition get_wall_end_type (w1 w2 w3 : option wall) : nat :=
  if is_removed w1 then
    if is_removed w3 then 2
    else if is_removed w2 then 2
    else 1
  else if is_removed w3 then
    if is_removed w2 then 2 else 1
  else 0.

(** How many of the three walls are removed. *)
Definition removed_among (w1 w2 w3 : option wall) : nat :=
  Nat.b2n (is_removed w1) + Nat.b2n (is_removed w2) + Nat.b2n (is_removed w3).

Definition HORIZONTAL_OFFSETS : list (Z * Z * bool) :=
  [(0, -1, false); (0, -1, true); (1, -1, false);
   (0, 0, false); (0, 1, true); (1, 0, false)]%Z.

Definition VERTICAL_OFFSETS : list (Z * Z * bool) :=
  [(-1, 0, true); (-1, 0, false); (-1, 1, true);
   (0, 0, true); (1, 0, false); (0, 1, true)]%Z.

(** The table of [getNeighbour] in [weighted_kruskal_maze.py], keyed by
    [wall['dr']]. *)
Definition offsets_weighted_kruskal (dr : bool) : list (Z * Z * bool) :=
  if dr
  then [(-1, 0, false); (-1, 0, true); (0, -1, false);
        (0, 0, false); (0, 1, true); (1, 0, false)]%Z
  else [(-1, 0, true); (-1, 0, false); (-1, 1, true);
        (0, 0, true); (1, 0, false); (0, 1, true)]%Z.

(** [pop()] from the end of a list. *)
Fixpoint pop {A} (l : list A) : option (list A * A) :=
  match l with
  | [] => None
  | x :: l' =>
      match pop l' with
      | None => Some ([], x)
      | Some (r, y) => Some (x :: r, y)
      end
  end.

(** [arr.insert(i, item)]; an index past the end appends. *)
Definition list_insert_at {A} (i : nat) (item : A) (arr : list A) : list A :=
  take i arr ++ item :: drop i arr.

(** A [for] loop whose body may raise. *)
Fixpoint for_each {A S} (l : list A) (body : A → S → option S) (s : S) : option S :=
  match l with
  | [] => Some s
  | x :: l' => s' ← body x s; for_each l' body s'
  end.

Fixpoint sum_Q (l : list Q) : Q :=
  match l with
  | [] => 0%Q
  | x :: l' => (x + sum_Q l')%Q
  end.

(** The bucket choice of [step]: walk the bucket weights, subtracting each
    from the threshold until it falls below one; bucket 0 when the loop runs
    out. *)
Fixpoint select_queue (qw : list Q) (i : nat) (random_threshold : Q) : nat :=
  match qw with
  | [] => 0
  | queue_weight :: rest =>
      if Qlt_le_dec random_threshold queue_weight then i
      else select_queue rest (S i) (random_threshold - queue_weight)%Q
  end.

(** What [get_wall_end_type] computes: the number of removed walls, capped
    at two, unless neither the first nor the third wall is removed. *)
Lemma get_wall_end_type_spec (w1 w2 w3 : option wall) :
  get_wall_end_type w1 w2 w3
  = if is_removed w1 || is_removed w3
    then Nat.min 2 (removed_among w1 w2 w3) else 0.
Proof.
  unfold get_wall_end_type, removed_among.
  destruct (is_removed w1), (is_removed w2), (is_removed w3); reflexivity.
Qed.

Lemma get_wall_end_type_le (w1 w2 w3 : option wall) :
  get_wall_end_type w1 w2 w3 ≤ 2.
Proof.
  unfold get_wall_end_type.
  destruct (is_removed w1), (is_removed w2), (is_removed w3); simpl; lia.
Qed.

(** ** Generation state *)

(** The module-level variables of the script, the generator state of
    [random] and the screen. *)
Record state (G : Type) := State {
  union_find : list Z;
  wall_queues : list (list nat);
  walls_by_index : list (option wall);
  start_x : option nat;
  finish_x : option nat;
  progress_time : Q;
  rng : G;
  screen : list draw
}.

Arguments State {G}.
Arguments union_find {G}.
Arguments wall_queues {G}.
Arguments walls_by_index {G}.
Arguments start_x {G}.
Arguments finish_x {G}.
Arguments progress_time {G}.
Arguments rng {G}.
Arguments screen {G}.

Section Generation.

Context {G : Type} `{RandomSource G} `{MathPow}.

(** [GRID_WIDTH] and [GRID_HEIGHT]. *)
Variables (GRID_WIDTH GRID_HEIGHT : nat).

Definition SPEED_CONTROL : Q := 16.

Definition raw_weights : list nat := [17; 15; 5; 15; 10; 2; 5; 2; 1].

Definition weights : list Q := pow_half <$> raw_weights.

Definition set_union_find (a : list Z) (s : state G) : state G :=
  State a (wall_queues s) (walls_by_index s) (start_x s) (finish_x s)
        (progress_time s) (rng s) (screen s).

Definition set_wall_queues (q : list (list nat)) (s : state G) : state G :=
  State (union_find s) q (walls_by_index s) (start_x s) (finish_x s)
        (progress_time s) (rng s) (screen s).

Definition set_walls (w : list (option wall)) (s : state G) : state G :=
  State (union_find s) (wall_queues s) w (start_x s) (finish_x s)
        (progress_time s) (rng s) (screen s).

Definition set_progress_time (t : Q) (s : state G) : state G :=
  State (union_find s) (wall_queues s) (walls_by_index s) (start_x s)
        (finish_x s) t (rng s) (screen s).

Definition set_rng (g : G) (s : state G) : state G :=
  State (union_find s) (wall_queues s) (walls_by_index s) (start_x s)
        (finish_x s) (progress_time s) g (screen s).

(** One more call on the screen. *)
Definition draw_on (d : draw) (s : state G) : state G :=
  State (union_find s) (wall_queues s) (walls_by_index s) (start_x s)
        (finish_x s) (progress_time s) (rng s) (screen s ++ [d]).

(** [rand_int(n)]; [randrange] raises on an empty range. *)
Definition rand_int (n : nat) (g : G) : option (nat * G) :=
  if decide (n = 0) then None else Some (randrange n g).

(** [push_rand(arr, item)] *)
Definition push_rand (arr : list nat) (item : nat) (g : G) : option (list nat * G) :=
  '(i, g') ← rand_int (length arr + 1) g;
  Some (list_insert_at i item arr, g').

(** [get_wall(x, y, is_horizontal)]: [Some None] is Python's [None]. *)
Definition get_wall (walls : list (option wall)) (x y : Z) (is_horizontal : bool)
    : option (option nat) :=
  if bool_decide (0 <= x < Z.of_nat GRID_WIDTH ∧ 0 <= y < Z.of_nat GRID_HEIGHT)%Z
  then
    let index :=
      Z.to_nat ((y * Z.of_nat GRID_WIDTH + x) * 2 + (if is_horizontal then 0 else 1)) in
    w ← walls !! index;
    Some (match w with Some _ => Some index | None => None end)
  else Some None.

(** [get_neighbour(wall, n)] *)
Definition get_neighbour (walls : list (option wall)) (w : wall) (n : nat)
    : option (option nat) :=
  let offsets := if wall_dr w then HORIZONTAL_OFFSETS else VERTICAL_OFFSETS in
  match offsets !! n with
  | None => Some None
  | Some (dx, dy, is_horiz) =>
      get_wall walls (Z.of_nat (wall_x w) + dx) (Z.of_nat (wall_y w) + dy) is_horiz
  end.

(** [getNeighbour(wall, n)] of [weighted_kruskal_maze.py]; its [getWall] is
    [get_wall]. *)
Definition getNeighbour (walls : list (option wall)) (w : wall) (n : nat)
    : option (option nat) :=
  '(dx, dy, dr) ← offsets_weighted_kruskal (wall_dr w) !! n;
  get_wall walls (Z.of_nat (wall_x w) + dx) (Z.of_nat (wall_y w) + dy) dr.

(** The value [t1 * 3 + t2] that [update_wall_type] computes. *)
Definition classify (walls : list (option wall)) (w : wall) : option nat :=
  n0 ← get_neighbour walls w 0;
  n1 ← get_neighbour walls w 1;
  n2 ← get_neighbour walls w 2;
  let t1 := get_wall_end_type (wall_of walls n0) (wall_of walls n1) (wall_of walls n2) in
  n3 ← get_neighbour walls w 3;
  n4 ← get_neighbour walls w 4;
  n5 ← get_neighbour walls w 5;
  let t2 := get_wall_end_type (wall_of walls n3) (wall_of walls n4) (wall_of walls n5) in
  Some (t1 * 3 + t2).

(** [update_wall_type(wall)] *)
Definition update_wall_type (r : nat) (s : state G) : option (state G) :=
  w ← deref (walls_by_index s) r;
  new_type ← classify (walls_by_index s) w;
  if decide (wall_typ w < new_type) then
    let s1 := set_walls (<[r := Some (set_typ new_type w)]> (walls_by_index s)) s in
    q ← wall_queues s1 !! new_type;
    '(q', g') ← push_rand q r (rng s1);
    Some (set_rng g' (set_wall_queues (<[new_type := q']> (wall_queues s1)) s1))
  else Some s.

(** The two cells a wall separates. *)
Definition cell_index1 (w : wall) : nat := wall_y w * GRID_WIDTH + wall_x w.

Definition cell_index2 (w : wall) : nat :=
  cell_index1 w + (if wall_dr w then 1 else GRID_WIDTH).

(** The body of the loop over the six neighbours in [try_wall]. *)
Definition update_neighbour (w : wall) (i : nat) (s : state G) : option (state G) :=
  neighbour ← get_neighbour (walls_by_index s) w i;
  match neighbour with
  | Some nb => update_wall_type nb s
  | None => Some s
  end.

(** [try_wall(wall, screen)] *)
Definition try_wall (r : nat) (s : state G) : option (bool * state G) :=
  w ← deref (walls_by_index s) r;
  if wall_clr w then Some (false, s)
  else
    '(a, merged) ← UF.union (union_find s) (cell_index1 w) (cell_index2 w);
    let s1 := set_union_find a s in
    if (merged : bool) then
      let s2 := set_walls (<[r := Some (set_clr true w)]> (walls_by_index s1)) s1 in
      let s3 :=
        draw_on (fill_cell (Z.of_nat (wall_x w)) (Z.of_nat (wall_y w))
                           (if wall_dr w then 1 else 0) (if wall_dr w then 0 else 1)
                           WHITE) s2 in
      s4 ← for_each (seq 0 6) (update_neighbour w) s3;
      Some (true, s4)
    else Some (false, s1).

(** [len(wall_queues[i]) * weights[i]] for [i] in [range(9)]. *)
Definition queue_weights (queues : list (list nat)) : option (list Q) :=
  mapM (λ i, q ← queues !! i; wt ← weights !! i;
             Some (inject_Z (Z.of_nat (length q)) * wt)%Q)
       (seq 0 9).

(** The first half of [step]: [Some None] when the total weight is not
    positive, otherwise the chosen bucket and the advanced generator. *)
Definition selection (s : state G) : option (option (nat * G)) :=
  qw ← queue_weights (wall_queues s);
  let total_weight := sum_Q qw in
  if Qle_bool total_weight 0 then Some None
  else
    let '(u, g) := random (rng s) in
    Some (Some (select_queue qw 0 (total_weight * u)%Q, g)).

(** The second half of [step]: pop from the chosen bucket and try the
    wall. *)
Definition take_from (queue_index : nat) (s1 : state G) : option (bool * state G) :=
  q ← wall_queues s1 !! queue_index;
  match pop q with
  | None => Some (true, s1)
  | Some (q', r) =>
      let s2 := set_wall_queues (<[queue_index := q']> (wall_queues s1)) s1 in
      w ← deref (walls_by_index s2) r;
      if decide (wall_typ w = queue_index) then
        '(ok, s3) ← try_wall r s2;
        if (ok : bool) then
          Some (true,
                set_progress_time
                  (progress_time s3
                   + (20 - SPEED_CONTROL) * 250
                     / inject_Z (Z.of_nat (GRID_WIDTH * GRID_HEIGHT)))%Q s3)
        else Some (true, s3)
      else Some (true, s2)
  end.

(** [step(screen)]: [false] when no bucket holds a wall. *)
Definition step (s : state G) : option (bool * state G) :=
  sel ← selection s;
  match sel with
  | None => Some (false, s)
  | Some (queue_index, g) => take_from queue_index (set_rng g s)
  end.

(** One wall slot of [init]: a fresh wall pushed on bucket 0, or [None]. *)
Definition add_wall (x y : nat) (dr present : bool) (s : state G) : option (state G) :=
  if present then
    let r := length (walls_by_index s) in
    let s1 := set_walls (walls_by_index s ++ [Some (Wall x y dr 0 false)]) s in
    q ← wall_queues s1 !! 0;
    '(q', g') ← push_rand q r (rng s1);
    Some (set_rng g' (set_wall_queues (<[0 := q']> (wall_queues s1)) s1))
  else Some (set_walls (walls_by_index s ++ [None]) s).

(** The body of the two nested loops of [init]. *)
Definition init_cell (y x : nat) (s : state G) : option (state G) :=
  let s0 := draw_on (fill_cell (Z.of_nat x) (Z.of_nat y) 0 0 WHITE) s in
  s1 ← add_wall x y true (bool_decide (Z.of_nat x < Z.of_nat GRID_WIDTH - 1)%Z) s0;
  add_wall x y false (bool_decide (Z.of_nat y < Z.of_nat GRID_HEIGHT - 1)%Z) s1.

(** [init(screen)]; [ticks] is what [pygame.time.get_ticks()] answers. *)
Definition init (ticks : Q) (s : state G) : option (state G) :=
  let scr := screen s ++ [screen_fill BLACK] in
  '(sx, g1) ← rand_int GRID_WIDTH (rng s);
  '(fx, g2) ← rand_int GRID_WIDTH g1;
  let scr :=
    scr ++ [fill_cell (Z.of_nat sx) 0 0 (-1) WHITE;
            fill_cell (Z.of_nat fx) (Z.of_nat GRID_HEIGHT - 1) 0 1 WHITE] in
  let s0 := State [] (replicate 9 []) [] (Some sx) (Some fx) (progress_time s) g2 scr in
  s1 ← for_each (seq 0 GRID_HEIGHT)
         (λ y, for_each (seq 0 GRID_WIDTH) (init_cell y)) s0;
  Some (set_progress_time ticks s1).

(** [while step(screen): pass], cut off after [fuel] calls; returns the
    number of calls that answered [True] and the final state. *)
Fixpoint generate (fuel : nat) (s : state G) : option (nat * state G) :=
  match fuel with
  | 0 => None
  | S f =>
      '(more, s') ← step s;
      if (more : bool) then '(n, s'') ← generate f s'; Some (S n, s'')
      else Some (0, s')
  end.

(** [n] calls of [step], whatever they answer. *)
Fixpoint steps (n : nat) (s : state G) : option (state G) :=
  match n with
  | 0 => Some s
  | S m => '(_, s') ← step s; steps m s'
  end.

(** Number of walls whose ['clr'] is true. *)
Definition removed_count (walls : list (option wall)) : nat :=
  length (filter (λ w, is_removed w = true) walls).

(** *** Lists: [pop], [insert], loops *)

Lemma pop_None {A} (l : list A) : pop l = None ↔ l = [].
Proof.
  destruct l as [|x l]; [done|]. simpl.
  destruct (pop l) as [[??]|]; split; intros; simplify_eq.
Qed.

Lemma pop_Some {A} (l l' : list A) (x : A) :
  pop l = Some (l', x) ↔ l = l' ++ [x].
Proof.
  revert l'. induction l as [|y l IH]; intros l'.
  - split; [done|]. by destruct l'.
  - simpl. destruct (pop l) as [[r z]|] eqn:E.
    + split.
      * intros [= <- <-]. simpl. f_equal. by apply IH.
      * destruct l' as [|y' l'']; simpl.
        { intros [= -> ->]. done. }
        intros [= <- Hl]. apply IH in Hl. by simplify_eq.
    + apply pop_None in E as ->. split.
      * by intros [= <- <-].
      * destruct l' as [|y' [|??]]; simpl; intros; by simplify_eq.
Qed.

Lemma length_list_insert_at {A} (i : nat) (x : A) (l : list A) :
  length (list_insert_at i x l) = S (length l).
Proof.
  unfold list_insert_at. rewrite length_app. simpl.
  rewrite <- (take_drop i l) at 3. rewrite length_app. lia.
Qed.

Lemma elem_of_list_insert_at {A} (i : nat) (x y : A) (l : list A) :
  y ∈ list_insert_at i x l ↔ y = x ∨ y ∈ l.
Proof.
  unfold list_insert_at. rewrite <- (take_drop i l) at 3.
  rewrite !elem_of_app, elem_of_cons. tauto.
Qed.

Lemma for_each_inv {A S} (P : S → Prop) (body : A → S → option S) (l : list A) (s : S) :
  (∀ x s, x ∈ l → P s → ∃ s', body x s = Some s' ∧ P s') →
  P s → ∃ s', for_each l body s = Some s' ∧ P s'.
Proof.
  revert s. induction l as [|x l IH]; intros s Hb Hs; [by exists s|].
  simpl. destruct (Hb x s) as (s1 & -> & Hs1); [left|done|]. simpl.
  apply IH; [|done]. intros y s' Hy. apply Hb. by right.
Qed.

Lemma for_each_rel {A S} (R : S → S → Prop) (body : A → S → option S) (l : list A) :
  (∀ s, R s s) → (∀ s1 s2 s3, R s1 s2 → R s2 s3 → R s1 s3) →
  (∀ x s s', body x s = Some s' → R s s') →
  ∀ s s', for_each l body s = Some s' → R s s'.
Proof.
  intros Hrefl Htrans Hb. induction l as [|x l IH]; intros s s' Hs.
  - simpl in Hs. by simplify_eq.
  - simpl in Hs. destruct (body x s) as [s1|] eqn:E; [|done]. simpl in Hs.
    eapply Htrans; [by eapply Hb | by apply IH].
Qed.

(** *** Slots of [walls_by_index] *)

(** The slot of the wall anchored at [(x, y)]. *)
Definition slot (x y : nat) (dr : bool) : nat :=
  (y * GRID_WIDTH + x) * 2 + (if dr then 0 else 1).

(** The grid has a wall of this orientation anchored at [(x, y)]. *)
Definition present (x y : nat) (dr : bool) : Prop :=
  x < GRID_WIDTH ∧ y < GRID_HEIGHT ∧
  if dr then x + 1 < GRID_WIDTH else y + 1 < GRID_HEIGHT.

Lemma slot_inj x y dr x' y' dr' :
  x < GRID_WIDTH → x' < GRID_WIDTH →
  slot x y dr = slot x' y' dr' → x = x' ∧ y = y' ∧ dr = dr'.
Proof.
  unfold slot. intros Hx Hx' E.
  assert (y * GRID_WIDTH + x = y' * GRID_WIDTH + x' ∧ dr = dr') as [E' ->].
  { destruct dr, dr'; split; (done || lia). }
  assert (y = y') as ->; [|split_and!; (done || lia)].
  destruct (decide (y < y')); [nia|]. destruct (decide (y' < y)); [nia|lia].
Qed.

Lemma slot_lt x y dr :
  x < GRID_WIDTH → y < GRID_HEIGHT → slot x y dr < GRID_WIDTH * GRID_HEIGHT * 2.
Proof. unfold slot. intros. destruct dr; nia. Qed.

(** The shape [init] gives to [walls_by_index]: two slots per cell, and
    every wall sits in the slot of its anchor. *)
Record walls_ok (walls : list (option wall)) : Prop := {
  wo_length : length walls = GRID_WIDTH * GRID_HEIGHT * 2;
  wo_wall r w :
    deref walls r = Some w →
    r = slot (wall_x w) (wall_y w) (wall_dr w) ∧
    present (wall_x w) (wall_y w) (wall_dr w) ∧ wall_typ w ≤ 8;
  wo_present x y dr :
    present x y dr → is_Some (deref walls (slot x y dr))
}.

Lemma deref_Some walls r w :
  deref walls r = Some w ↔ walls !! r = Some (Some w).
Proof.
  unfold deref. destruct (walls !! r) as [[?|]|]; simpl; naive_solver.
Qed.

Lemma deref_insert walls r w r' :
  r < length walls →
  deref (<[r := Some w]> walls) r'
  = if decide (r' = r) then Some w else deref walls r'.
Proof.
  intros Hr. unfold deref. case_decide as E.
  - subst. by rewrite list_lookup_insert_eq.
  - by rewrite list_lookup_insert_ne.
Qed.

Lemma deref_lt walls r w : deref walls r = Some w → r < length walls.
Proof. rewrite deref_Some. apply lookup_lt_Some. Qed.

Lemma walls_ok_insert walls r w w' :
  walls_ok walls → deref walls r = Some w →
  wall_x w' = wall_x w → wall_y w' = wall_y w → wall_dr w' = wall_dr w →
  wall_typ w' ≤ 8 →
  walls_ok (<[r := Some w']> walls).
Proof.
  intros [Hl Hw Hp] Hr Hx Hy Hd Ht. apply deref_lt in Hr as Hlt. split.
  - by rewrite length_insert.
  - intros r' w0. rewrite deref_insert by done. case_decide as E.
    + intros [= <-]. subst. rewrite Hx, Hy, Hd.
      destruct (Hw _ _ Hr) as (? & ? & ?). done.
    + apply Hw.
  - intros x y dr Hxy. rewrite deref_insert by done.
    case_decide; [done|]. by apply Hp.
Qed.

Lemma cell_index_lt walls r w :
  walls_ok walls → deref walls r = Some w →
  cell_index1 w < GRID_WIDTH * GRID_HEIGHT ∧
  cell_index2 w < GRID_WIDTH * GRID_HEIGHT ∧
  cell_index1 w < cell_index2 w.
Proof.
  intros Hok Hr. destruct (wo_wall _ Hok _ _ Hr) as (_ & (Hx & Hy & Hd) & _).
  unfold cell_index2, cell_index1. destruct (wall_dr w); nia.
Qed.

(** [get_wall] never raises on a well-shaped table, and what it returns is
    a reference to the wall anchored at the coordinates asked for. *)
Lemma get_wall_ok walls x y h :
  walls_ok walls →
  ∃ o, get_wall walls x y h = Some o ∧
    ∀ r, o = Some r →
      ∃ w, deref walls r = Some w ∧
        Z.of_nat (wall_x w) = x ∧ Z.of_nat (wall_y w) = y ∧ wall_dr w = h.
Proof.
  intros Hok. unfold get_wall. case_bool_decide as Hin.
  - set (i := Z.to_nat _).
    assert (Hi : i = slot (Z.to_nat x) (Z.to_nat y) h).
    { unfold i, slot. destruct h; nia. }
    assert (Hlt : i < length walls).
    { rewrite (wo_length _ Hok), Hi. apply slot_lt; lia. }
    destruct (lookup_lt_is_Some_2 _ _ Hlt) as [o Ho]. rewrite Ho. simpl.
    destruct o as [w|].
    + eexists. split; [done|]. intros r [= <-]. exists w.
      assert (Hd : deref walls i = Some w) by (by apply deref_Some).
      split; [done|].
      destruct (wo_wall _ Hok _ _ Hd) as (E & (Hx & _) & _).
      rewrite Hi in E. apply slot_inj in E as (? & ? & ?); [|lia..].
      split_and!; first [lia | congruence].
    + eexists. split; [done|]. done.
  - eexists. split; [done|]. done.
Qed.

Lemma get_neighbour_ok walls w n :
  walls_ok walls →
  ∃ o, get_neighbour walls w n = Some o ∧
    ∀ r, o = Some r → is_Some (deref walls r).
Proof.
  intros Hok. unfold get_neighbour.
  destruct (_ !! n) as [[[dx dy] h]|]; [|by eexists].
  destruct (get_wall_ok walls (Z.of_nat (wall_x w) + dx)
              (Z.of_nat (wall_y w) + dy) h Hok) as (o & -> & Ho).
  exists o. split; [done|]. intros r Hr. destruct (Ho r Hr) as (? & ? & _). eauto.
Qed.

Lemma classify_ok walls w :
  walls_ok walls → ∃ t, classify walls w = Some t ∧ t ≤ 8.
Proof.
  intros Hok. unfold classify.
  destruct (get_neighbour_ok walls w 0 Hok) as (n0 & -> & _).
  destruct (get_neighbour_ok walls w 1 Hok) as (n1 & -> & _).
  destruct (get_neighbour_ok walls w 2 Hok) as (n2 & -> & _).
  destruct (get_neighbour_ok walls w 3 Hok) as (n3 & -> & _).
  destruct (get_neighbour_ok walls w 4 Hok) as (n4 & -> & _).
  destruct (get_neighbour_ok walls w 5 Hok) as (n5 & -> & _).
  simpl. eexists. split; [done|].
  pose proof (get_wall_end_type_le (wall_of walls n0) (wall_of walls n1) (wall_of walls n2)).
  pose proof (get_wall_end_type_le (wall_of walls n3) (wall_of walls n4) (wall_of walls n5)).
  lia.
Qed.

(** *** Connectivity through removed walls, and the invariant of generation *)

(** [a] and [b] are the two cells of a removed wall. *)
Definition passage (walls : list (option wall)) (a b : nat) : Prop :=
  ∃ r w, deref walls r = Some w ∧ wall_clr w = true ∧
    ((a = cell_index1 w ∧ b = cell_index2 w) ∨
     (a = cell_index2 w ∧ b = cell_index1 w)).

Inductive connected (walls : list (option wall)) : nat → nat → Prop :=
  | connected_refl a : connected walls a a
  | connected_step a b c :
      passage walls a b → connected walls b c → connected walls a c.

(** Number of references held by the buckets. *)
Definition total_queued (queues : list (list nat)) : nat :=
  sum_list (length <$> queues).

(** Walls only gain: coordinates stay, the type never decreases, a removed
    wall stays removed. *)
Definition walls_le (walls walls' : list (option wall)) : Prop :=
  ∀ r w, deref walls r = Some w →
    ∃ w', deref walls' r = Some w' ∧
      wall_x w' = wall_x w ∧ wall_y w' = wall_y w ∧ wall_dr w' = wall_dr w ∧
      wall_typ w ≤ wall_typ w' ∧ (wall_clr w = true → wall_clr w' = true).

(** The invariant of generation.  [P] selects the walls for which the
    bucket discipline holds: such a wall is referenced from the bucket of
    its type unless its two cells are already connected. *)
Record gen_inv (P : nat → Prop) (s : state G) : Prop := {
  gi_walls : walls_ok (walls_by_index s);
  gi_buckets : length (wall_queues s) = 9;
  gi_refs i q r :
    wall_queues s !! i = Some q → r ∈ q → is_Some (deref (walls_by_index s) r);
  gi_uf : UF.inv (union_find s);
  gi_uf_length : length (union_find s) ≤ GRID_WIDTH * GRID_HEIGHT;
  gi_removed r w :
    deref (walls_by_index s) r = Some w → wall_clr w = true →
    UF.same (union_find s) (cell_index1 w) (cell_index2 w);
  gi_queued r w :
    P r → deref (walls_by_index s) r = Some w →
    (∃ q, wall_queues s !! wall_typ w = Some q ∧ r ∈ q) ∨
    UF.same (union_find s) (cell_index1 w) (cell_index2 w);
  gi_count : removed_count (walls_by_index s) = UF.links (union_find s);
  gi_connected a b :
    a < GRID_WIDTH * GRID_HEIGHT → b < GRID_WIDTH * GRID_HEIGHT →
    UF.same (union_find s) a b → connected (walls_by_index s) a b
}.

Lemma walls_le_refl walls : walls_le walls walls.
Proof. intros r w Hr. exists w. by rewrite Hr. Qed.

Lemma walls_le_trans w1 w2 w3 : walls_le w1 w2 → walls_le w2 w3 → walls_le w1 w3.
Proof.
  intros H12 H23 r w Hr.
  destruct (H12 r w Hr) as (w' & Hr' & ? & ? & ? & ? & ?).
  destruct (H23 r w' Hr') as (w'' & Hr'' & ? & ? & ? & ? & ?).
  exists w''. split; [done|]. split_and!; try congruence; [lia | auto].
Qed.

Lemma walls_le_insert walls r w w' :
  deref walls r = Some w →
  wall_x w' = wall_x w → wall_y w' = wall_y w → wall_dr w' = wall_dr w →
  wall_typ w ≤ wall_typ w' → (wall_clr w = true → wall_clr w' = true) →
  walls_le walls (<[r := Some w']> walls).
Proof.
  intros Hr ????? r0 w0 Hr0. rewrite deref_insert by (by eapply deref_lt).
  case_decide as E; [|by apply walls_le_refl].
  subst. exists w'. rewrite Hr in Hr0. by simplify_eq.
Qed.

Lemma passage_mono walls walls' a b :
  walls_le walls walls' → passage walls a b → passage walls' a b.
Proof.
  intros Hle (r & w & Hr & Hc & Hab).
  destruct (Hle r w Hr) as (w' & Hr' & Hx & Hy & Hd & _ & Hc').
  exists r, w'. split; [done|]. split; [auto|].
  unfold cell_index2, cell_index1 in *. by rewrite Hx, Hy, Hd.
Qed.

Lemma connected_mono walls walls' a b :
  walls_le walls walls' → connected walls a b → connected walls' a b.
Proof.
  intros Hle. induction 1 as [|a b c Hab _ IH]; [constructor|].
  eapply connected_step; [by eapply passage_mono | done].
Qed.

Lemma connected_trans walls a b c :
  connected walls a b → connected walls b c → connected walls a c.
Proof.
  induction 1 as [|a b b' Hab _ IH]; [done|]. intros Hc.
  eapply connected_step; [done | by apply IH].
Qed.

Lemma passage_sym walls a b : passage walls a b → passage walls b a.
Proof. intros (r & w & ? & ? & ?). exists r, w. tauto. Qed.

Lemma connected_sym walls a b : connected walls a b → connected walls b a.
Proof.
  induction 1 as [|a b c Hab _ IH]; [constructor|].
  eapply connected_trans; [done|].
  eapply connected_step; [by apply passage_sym | constructor].
Qed.

Lemma removed_count_insert (walls : list (option wall)) r o o' :
  walls !! r = Some o →
  removed_count (<[r := o']> walls) + Nat.b2n (is_removed o)
  = removed_count walls + Nat.b2n (is_removed o').
Proof.
  unfold removed_count. revert r.
  induction walls as [|u walls IH]; intros [|r] Hr; try done.
  - injection Hr as ->. change (<[0:=o']> (o :: walls)) with (o' :: walls).
    rewrite !filter_cons. repeat case_decide;
      destruct (is_removed o), (is_removed o'); simpl in *; (done || lia).
  - change (<[S r:=o']> (u :: walls)) with (u :: <[r:=o']> walls).
    rewrite !filter_cons. specialize (IH r Hr).
    case_decide; simpl; lia.
Qed.

Lemma total_queued_insert (queues : list (list nat)) i q q' :
  queues !! i = Some q →
  total_queued (<[i := q']> queues) + length q = total_queued queues + length q'.
Proof.
  unfold total_queued. revert i.
  induction queues as [|u queues IH]; intros [|i] Hi; try done.
  - injection Hi as ->. simpl. lia.
  - specialize (IH i Hi).
    change (<[S i:=q']> (u :: queues)) with (u :: <[i:=q']> queues).
    rewrite !fmap_cons. simpl. lia.
Qed.

(** *** [update_wall_type] *)

Lemma push_rand_eq arr item g :
  push_rand arr item g
  = Some (list_insert_at (randrange (length arr + 1) g).1 item arr,
          (randrange (length arr + 1) g).2).
Proof.
  unfold push_rand, rand_int. case_decide; [lia|]. simpl.
  by destruct (randrange _ _).
Qed.

(** The state [update_wall_type] leaves when it re-files the wall [r] under
    the type [t]. *)
Definition refiled (r t : nat) (w : wall) (q : list nat) (s : state G) : state G :=
  State (union_find s)
        (<[t := list_insert_at (randrange (length q + 1) (rng s)).1 r q]> (wall_queues s))
        (<[r := Some (set_typ t w)]> (walls_by_index s))
        (start_x s) (finish_x s) (progress_time s)
        (randrange (length q + 1) (rng s)).2 (screen s).

Lemma update_wall_type_eq r s w t :
  deref (walls_by_index s) r = Some w → classify (walls_by_index s) w = Some t →
  update_wall_type r s
  = if decide (wall_typ w < t)
    then q ← wall_queues s !! t; Some (refiled r t w q s)
    else Some s.
Proof.
  intros Hr Ht. unfold update_wall_type. rewrite Hr. simpl. rewrite Ht. simpl.
  case_decide; [|done]. destruct (wall_queues s !! t) as [q|]; [|done]. simpl.
  by rewrite push_rand_eq.
Qed.

Lemma is_Some_deref_insert walls r w r' :
  is_Some (deref walls r) → is_Some (deref walls r') →
  is_Some (deref (<[r := Some w]> walls) r').
Proof.
  intros [w0 Hr] Hr'. rewrite deref_insert by (by eapply deref_lt).
  by case_decide.
Qed.

Lemma refiled_inv P r t w q s :
  gen_inv P s → deref (walls_by_index s) r = Some w →
  wall_queues s !! t = Some q → wall_typ w < t → t ≤ 8 →
  gen_inv P (refiled r t w q s).
Proof.
  intros Hinv Hr Hq Hlt Ht8. destruct Hinv as [Hw Hb Hrefs Huf Hul Hrem Hque Hcnt Hcon].
  assert (Hrl := deref_lt _ _ _ Hr).
  assert (Hle : walls_le (walls_by_index s) (<[r := Some (set_typ t w)]> (walls_by_index s))).
  { eapply walls_le_insert; simpl; eauto with lia. }
  assert (Hqt : t < length (wall_queues s)) by (by eapply lookup_lt_Some).
  split; simpl.
  - by eapply walls_ok_insert.
  - by rewrite length_insert.
  - intros i q0 r0 Hi Hr0. apply is_Some_deref_insert; [by eexists|].
    destruct (decide (i = t)) as [->|Hne].
    + rewrite list_lookup_insert_eq in Hi by done. simplify_eq.
      apply elem_of_list_insert_at in Hr0 as [->|Hr0]; [by eexists|].
      by eapply Hrefs.
    + rewrite list_lookup_insert_ne in Hi by done. by eapply Hrefs.
  - done.
  - done.
  - intros r0 w0. rewrite deref_insert by done. case_decide as E.
    + intros [= <-]. simpl. intros Hc. by apply (Hrem r w).
    + apply Hrem.
  - intros r0 w0 HP. rewrite deref_insert by done. case_decide as E.
    + intros [= <-]. simpl. left. eexists.
      rewrite list_lookup_insert_eq by done. split; [done|].
      apply elem_of_list_insert_at. by left.
    + intros Hr0. destruct (Hque r0 w0 HP Hr0) as [(q0 & Hq0 & Hin)|Hs]; [|by right].
      left. destruct (decide (wall_typ w0 = t)) as [Et|Hne].
      * rewrite Et in *. simplify_eq. eexists.
        rewrite list_lookup_insert_eq by done. split; [done|].
        apply elem_of_list_insert_at. by right.
      * exists q0. by rewrite list_lookup_insert_ne.
  - rewrite <- Hcnt. apply deref_Some in Hr.
    pose proof (removed_count_insert _ _ _ (Some (set_typ t w)) Hr) as E.
    simpl in E. lia.
  - intros a b Ha Hb' Hs. eapply connected_mono; [done|]. by apply Hcon.
Qed.

Lemma update_wall_type_inv P r s :
  gen_inv P s → is_Some (deref (walls_by_index s) r) →
  ∃ s', update_wall_type r s = Some s' ∧ gen_inv P s' ∧
    union_find s' = union_find s ∧
    walls_le (walls_by_index s) (walls_by_index s') ∧
    removed_count (walls_by_index s') = removed_count (walls_by_index s) ∧
    total_queued (wall_queues s) ≤ total_queued (wall_queues s') ≤
      total_queued (wall_queues s) + 1.
Proof.
  intros Hinv [w Hr].
  destruct (classify_ok _ w (gi_walls _ _ Hinv)) as (t & Ht & Ht8).
  rewrite (update_wall_type_eq r s w t Hr Ht). case_decide as Hlt.
  - destruct (lookup_lt_is_Some_2 (wall_queues s) t) as [q Hq].
    { rewrite (gi_buckets _ _ Hinv). lia. }
    rewrite Hq. simpl. eexists. split; [done|].
    split; [by apply refiled_inv|]. simpl. split; [done|]. split; [|split].
    + eapply walls_le_insert; simpl; eauto with lia.
    + apply deref_Some in Hr.
      pose proof (removed_count_insert _ _ _ (Some (set_typ t w)) Hr) as E.
      simpl in E. lia.
    + pose proof (total_queued_insert _ _ _
        (list_insert_at (randrange (length q + 1) (rng s)).1 r q) Hq) as E.
      rewrite length_list_insert_at in E. lia.
  - exists s. split; [done|]. split; [done|]. split; [done|].
    split; [apply walls_le_refl|]. split; [done|lia].
Qed.

(** *** [try_wall] *)

Lemma gen_inv_frame P s s' :
  gen_inv P s → union_find s' = union_find s →
  wall_queues s' = wall_queues s → walls_by_index s' = walls_by_index s →
  gen_inv P s'.
Proof. intros [] Hu Hq Hw. split; rewrite ?Hu, ?Hq, ?Hw; done. Qed.

Lemma gen_inv_mono (P Q : nat → Prop) s :
  (∀ r, Q r → P r) → gen_inv P s → gen_inv Q s.
Proof. intros HPQ []. split; auto. Qed.

Lemma gen_inv_restore r s :
  gen_inv (λ r', r' ≠ r) s →
  (∀ w, deref (walls_by_index s) r = Some w →
        (∃ q, wall_queues s !! wall_typ w = Some q ∧ r ∈ q) ∨
        UF.same (union_find s) (cell_index1 w) (cell_index2 w)) →
  gen_inv (λ _, True) s.
Proof.
  intros [] Hr. split; auto. intros r0 w0 _ Hr0.
  destruct (decide (r0 = r)) as [->|]; auto.
Qed.

Lemma update_neighbours_inv P w l s :
  gen_inv P s →
  ∃ s', for_each l (update_neighbour w) s = Some s' ∧ gen_inv P s' ∧
    union_find s' = union_find s ∧
    walls_le (walls_by_index s) (walls_by_index s') ∧
    removed_count (walls_by_index s') = removed_count (walls_by_index s) ∧
    total_queued (wall_queues s) ≤ total_queued (wall_queues s') ≤
      total_queued (wall_queues s) + length l.
Proof.
  revert s. induction l as [|i l IH]; intros s Hinv.
  { exists s. split; [done|]. split; [done|]. split; [done|].
    split; [apply walls_le_refl|]. split; [done|simpl; lia]. }
  assert (∃ s1, update_neighbour w i s = Some s1 ∧ gen_inv P s1 ∧
                union_find s1 = union_find s ∧
                walls_le (walls_by_index s) (walls_by_index s1) ∧
                removed_count (walls_by_index s1) = removed_count (walls_by_index s) ∧
                total_queued (wall_queues s) ≤ total_queued (wall_queues s1) ≤
                  total_queued (wall_queues s) + 1)
    as (s1 & Hs1 & Hinv1 & Hu1 & Hle1 & Hc1 & Hq1).
  { unfold update_neighbour.
    destruct (get_neighbour_ok _ w i (gi_walls _ _ Hinv)) as (o & -> & Ho).
    cbn [mbind option_bind]. destruct o as [nb|].
    - apply update_wall_type_inv; [done|]. by apply Ho.
    - exists s. split; [done|]. split; [done|]. split; [done|].
      split; [apply walls_le_refl|]. split; [done|lia]. }
  cbn [for_each]. rewrite Hs1. cbn [mbind option_bind].
  destruct (IH s1 Hinv1) as (s' & -> & Hinv' & Hu' & Hle' & Hc' & Hq').
  exists s'. split; [done|]. split; [done|]. split; [congruence|].
  split; [by eapply walls_le_trans|]. split; [congruence|]. simpl. lia.
Qed.

(** The state after [try_wall] has removed the wall [r], before it
    re-classifies the neighbours. *)
Definition opened (r : nat) (w : wall) (a : list Z) (s : state G) : state G :=
  draw_on (fill_cell (Z.of_nat (wall_x w)) (Z.of_nat (wall_y w))
                     (if wall_dr w then 1 else 0) (if wall_dr w then 0 else 1) WHITE)
    (set_walls (<[r := Some (set_clr true w)]> (walls_by_index (set_union_find a s)))
       (set_union_find a s)).

Lemma try_wall_eq r s w :
  deref (walls_by_index s) r = Some w →
  try_wall r s
  = if wall_clr w then Some (false, s)
    else
      '(a, merged) ← UF.union (union_find s) (cell_index1 w) (cell_index2 w);
      if (merged : bool)
      then s4 ← for_each (seq 0 6) (update_neighbour w) (opened r w a s); Some (true, s4)
      else Some (false, set_union_find a s).
Proof. intros Hr. unfold try_wall. rewrite Hr. done. Qed.

Lemma opened_inv r w a s :
  gen_inv (λ r', r' ≠ r) s → deref (walls_by_index s) r = Some w →
  wall_clr w = false →
  UF.root (union_find s) (cell_index1 w) ≠ UF.root (union_find s) (cell_index2 w) →
  UF.union (union_find s) (cell_index1 w) (cell_index2 w) = Some (a, true) →
  gen_inv (λ _, True) (opened r w a s) ∧
  removed_count (walls_by_index (opened r w a s))
  = S (removed_count (walls_by_index s)).
Proof.
  intros Hinv Hr Hclr Hne Hun.
  destruct Hinv as [Hw Hb Hrefs Huf Hul Hrem Hque Hcnt Hcon].
  destruct (UF.union_merge _ _ _ Huf Hne)
    as (a' & Hun' & Hinv' & Hlen & Hroot & _ & _ & _ & Hlinks).
  rewrite Hun in Hun'. simplify_eq.
  destruct (UF.union_merge_same _ _ _ _ (proj1 Huf) Hne Hroot) as (Hsame & Hco & Hsplit).
  destruct (cell_index_lt _ _ _ Hw Hr) as (Hc1 & Hc2 & _).
  assert (Hrl := deref_lt _ _ _ Hr).
  assert (Hle : walls_le (walls_by_index s)
                  (<[r := Some (set_clr true w)]> (walls_by_index s))).
  { eapply walls_le_insert; simpl; eauto. }
  assert (Hcount : removed_count (<[r := Some (set_clr true w)]> (walls_by_index s))
                   = S (removed_count (walls_by_index s))).
  { apply deref_Some in Hr.
    pose proof (removed_count_insert _ _ _ (Some (set_clr true w)) Hr) as E.
    simpl in E. rewrite Hclr in E. simpl in E. lia. }
  split; [|done]. split; simpl.
  - eapply walls_ok_insert; simpl; eauto.
    by destruct (wo_wall _ Hw _ _ Hr) as (_ & _ & ?).
  - done.
  - intros i q r0 Hi Hr0. apply is_Some_deref_insert; [by eexists|].
    by eapply Hrefs.
  - done.
  - lia.
  - intros r0 w0. rewrite deref_insert by done. case_decide as E.
    + intros [= <-] _. done.
    + intros Hr0 Hc. apply Hco. by eapply Hrem.
  - intros r0 w0 _. rewrite deref_insert by done. case_decide as E.
    + intros [= <-]. by right.
    + intros Hr0. destruct (Hque r0 w0 E Hr0) as [?|?]; [by left|].
      right. by apply Hco.
  - rewrite Hcount, Hlinks. by f_equal.
  - intros x y Hx Hy Hxy.
    assert (Hp : passage (<[r := Some (set_clr true w)]> (walls_by_index s))
                   (cell_index1 w) (cell_index2 w)).
    { exists r, (set_clr true w). rewrite deref_insert by done.
      case_decide; [|done]. split; [done|]. split; [done|]. by left. }
    destruct (Hsplit x y Hxy) as [E|[[E1 E2]|[E1 E2]]].
    + eapply connected_mono; [done|]. by apply Hcon.
    + eapply connected_trans.
      { eapply connected_mono; [done|]. by apply (Hcon x (cell_index1 w)). }
      eapply connected_step; [done|].
      eapply connected_mono; [done|]. apply Hcon; [done..|]. by symmetry.
    + eapply connected_trans.
      { eapply connected_mono; [done|]. by apply (Hcon x (cell_index2 w)). }
      eapply connected_step; [by apply passage_sym|].
      eapply connected_mono; [done|]. apply Hcon; [done..|]. by symmetry.
Qed.

Lemma try_wall_inv r s w :
  gen_inv (λ r', r' ≠ r) s → deref (walls_by_index s) r = Some w →
  ∃ b s', try_wall r s = Some (b, s') ∧ gen_inv (λ _, True) s' ∧
    walls_le (walls_by_index s) (walls_by_index s') ∧
    if b
    then removed_count (walls_by_index s') = S (removed_count (walls_by_index s)) ∧
         total_queued (wall_queues s) ≤ total_queued (wall_queues s') ≤
           total_queued (wall_queues s) + 6
    else walls_by_index s' = walls_by_index s ∧ wall_queues s' = wall_queues s.
Proof.
  intros Hinv Hr. rewrite (try_wall_eq r s w Hr).
  destruct (wall_clr w) eqn:Hclr.
  { exists false, s. split; [done|]. split; [|split; [apply walls_le_refl|done]].
    apply (gen_inv_restore r); [done|]. intros w' Hr'. right.
    rewrite Hr in Hr'. simplify_eq. by eapply gi_removed. }
  destruct (cell_index_lt _ _ _ (gi_walls _ _ Hinv) Hr) as (Hc1 & Hc2 & _).
  destruct (decide (UF.root (union_find s) (cell_index1 w)
                    = UF.root (union_find s) (cell_index2 w))) as [Heq|Hne].
  - destruct (UF.union_same _ _ _ (gi_uf _ _ Hinv) Heq)
      as (a' & -> & Hinv' & Hlen & Hroot & _ & Hlinks).
    cbn [mbind option_bind]. exists false, (set_union_find a' s).
    split; [done|]. split; [|split; [apply walls_le_refl|done]].
    assert (Hsame : ∀ x y, UF.same a' x y ↔ UF.same (union_find s) x y).
    { intros x y. unfold UF.same. by rewrite !Hroot. }
    destruct Hinv as [Hw Hb Hrefs Huf Hul Hrem Hque Hcnt Hcon].
    split; simpl; auto.
    + lia.
    + intros r0 w0 Hr0 Hc. apply Hsame. by eapply Hrem.
    + intros r0 w0 _ Hr0. destruct (decide (r0 = r)) as [->|Hr0r].
      * right. rewrite Hr in Hr0. simplify_eq. by apply Hsame.
      * destruct (Hque r0 w0 Hr0r Hr0) as [?|?]; [by left|].
        right. by apply Hsame.
    + congruence.
    + intros x y Hx Hy Hxy. apply Hcon; [done..|]. by apply Hsame.
  - destruct (UF.union_merge _ _ _ (gi_uf _ _ Hinv) Hne) as (a' & Hun & _).
    rewrite Hun. cbn [mbind option_bind].
    destruct (opened_inv r w a' s Hinv Hr Hclr Hne Hun) as [Hinv1 Hcnt1].
    destruct (update_neighbours_inv _ w (seq 0 6) _ Hinv1)
      as (s4 & -> & Hinv4 & _ & Hle4 & Hcnt4 & Hq4).
    cbn [mbind option_bind]. exists true, s4. split; [done|]. split; [done|].
    split; [|split; [congruence|done]].
    eapply walls_le_trans; [|done]. simpl.
    eapply walls_le_insert; simpl; eauto.
Qed.

(** *** The weighted choice of a bucket *)

Lemma queue_weights_eq (queues : list (list nat)) :
  length queues = 9 →
  queue_weights queues
  = Some (zip_with (λ q wt, inject_Z (Z.of_nat (length q)) * wt)%Q queues weights).
Proof.
  intros Hl. do 9 (destruct queues as [|? queues]; [done|]).
  destruct queues; [|done]. reflexivity.
Qed.

Lemma sum_Q_nonneg (l : list Q) :
  (∀ x, x ∈ l → (0 <= x)%Q) → (0 <= sum_Q l)%Q.
Proof.
  induction l as [|x l IH]; intros Hl; simpl; [lra|].
  assert (0 <= x)%Q by (apply Hl; left).
  assert (0 <= sum_Q l)%Q by (apply IH; intros; apply Hl; by right). lra.
Qed.

Lemma sum_Q_zero (l : list Q) :
  (∀ x, x ∈ l → (0 <= x)%Q) → (sum_Q l <= 0)%Q → ∀ x, x ∈ l → (x <= 0)%Q.
Proof.
  induction l as [|y l IH]; intros Hl Hs x Hx; [by apply elem_of_nil in Hx|].
  simpl in Hs.
  assert (0 <= y)%Q by (apply Hl; left).
  assert (0 <= sum_Q l)%Q by (apply sum_Q_nonneg; intros; apply Hl; by right).
  apply elem_of_cons in Hx as [->|Hx]; [lra|].
  apply IH; [intros; apply Hl; by right | lra | done].
Qed.

Lemma select_queue_spec (qw : list Q) (i : nat) (r : Q) :
  (∀ x, x ∈ qw → (0 <= x)%Q) → (0 <= r)%Q → (r < sum_Q qw)%Q →
  ∃ k x, select_queue qw i r = i + k ∧ qw !! k = Some x ∧ (0 < x)%Q.
Proof.
  revert i r. induction qw as [|y qw IH]; intros i r Hl Hr Hs; simpl in *; [lra|].
  destruct (Qlt_le_dec r y) as [Hlt|Hge].
  - exists 0, y. split; [lia|]. split; [done|lra].
  - destruct (IH (S i) (r - y)%Q) as (k & x & -> & Hk & Hx).
    + intros; apply Hl; by right.
    + lra.
    + lra.
    + exists (S k), x. split; [lia|done].
Qed.

Lemma queue_weight_nonneg (q : list nat) (wt : Q) :
  (0 < wt)%Q → (0 <= inject_Z (Z.of_nat (length q)) * wt)%Q.
Proof.
  intros Hw. apply Qmult_le_0_compat; [|lra].
  change 0%Q with (inject_Z 0). rewrite <- Zle_Qle. lia.
Qed.

Lemma queue_weight_pos (q : list nat) (wt : Q) :
  (0 < wt)%Q → (0 < inject_Z (Z.of_nat (length q)) * wt)%Q ↔ q ≠ [].
Proof.
  intros Hw. destruct q as [|x q]; simpl length.
  - split; [|done]. intros Hlt. change (inject_Z (Z.of_nat 0)) with 0%Q in Hlt. lra.
  - split; [done|]. intros _. apply Qmult_lt_0_compat; [|done].
    change 0%Q with (inject_Z 0). rewrite <- Zlt_Qlt. lia.
Qed.

Lemma weights_pos (wt : Q) : wt ∈ weights → (0 < wt)%Q.
Proof.
  unfold weights. intros (w & -> & _)%list_elem_of_fmap. apply pow_half_pos.
Qed.

Lemma queue_weights_lookup (queues : list (list nat)) k x :
  zip_with (λ q wt, inject_Z (Z.of_nat (length q)) * wt)%Q queues weights !! k = Some x →
  ∃ q wt, queues !! k = Some q ∧ (0 < wt)%Q ∧
          x = (inject_Z (Z.of_nat (length q)) * wt)%Q.
Proof.
  rewrite lookup_zip_with. intros Hk.
  destruct (queues !! k) as [q|]; [|done]. simpl in Hk.
  destruct (weights !! k) as [wt|] eqn:Hw; [|done]. simpl in Hk. simplify_eq.
  exists q, wt. split; [done|]. split; [|done].
  apply weights_pos. by eapply list_elem_of_lookup_2.
Qed.

(** In exact arithmetic the first half of [step] either finds every bucket
    empty or chooses a bucket that holds a reference. *)
Lemma selection_spec s :
  length (wall_queues s) = 9 →
  (selection s = Some None ∧ ∀ i q, wall_queues s !! i = Some q → q = []) ∨
  (∃ i q, selection s = Some (Some (i, (random (rng s)).2)) ∧
          wall_queues s !! i = Some q ∧ q ≠ []).
Proof.
  intros Hl. unfold selection. rewrite (queue_weights_eq _ Hl).
  cbn [mbind option_bind].
  set (qw := zip_with _ _ _).
  assert (Hnn : ∀ x, x ∈ qw → (0 <= x)%Q).
  { intros x (k & Hk)%list_elem_of_lookup_1.
    apply queue_weights_lookup in Hk as (q & wt & _ & Hwt & ->).
    by apply queue_weight_nonneg. }
  destruct (Qle_bool (sum_Q qw) 0) eqn:Hle.
  - left. split; [done|]. apply Qle_bool_iff in Hle.
    intros i q Hi.
    assert (Hw : is_Some (weights !! i)).
    { apply lookup_lt_is_Some_2. apply lookup_lt_Some in Hi.
      unfold weights. rewrite length_fmap. simpl. lia. }
    destruct Hw as [wt Hwt].
    assert (Hx : qw !! i = Some (inject_Z (Z.of_nat (length q)) * wt)%Q).
    { unfold qw. rewrite lookup_zip_with, Hi. simpl. rewrite Hwt. done. }
    assert (Hwp : (0 < wt)%Q) by (apply weights_pos; by eapply list_elem_of_lookup_2).
    pose proof (sum_Q_zero qw Hnn Hle _ (list_elem_of_lookup_2 _ _ _ Hx)) as Hz.
    destruct (decide (q = [])) as [|Hne]; [done|].
    apply (queue_weight_pos q wt Hwp) in Hne. lra.
  - right. assert (Hpos : (0 < sum_Q qw)%Q).
    { destruct (Qlt_le_dec 0 (sum_Q qw)) as [|Hc]; [done|].
      apply Qle_bool_iff in Hc. congruence. }
    pose proof (random_lo (rng s)) as Hlo. pose proof (random_hi (rng s)) as Hhi.
    destruct (random (rng s)) as [u g]. simpl in *.
    destruct (select_queue_spec qw 0 (sum_Q qw * u)%Q Hnn) as (k & x & -> & Hk & Hx).
    + apply Qmult_le_0_compat; lra.
    + assert (sum_Q qw * u < sum_Q qw * 1)%Q; [|lra].
      apply Qmult_lt_l; done.
    + apply queue_weights_lookup in Hk as (q & wt & Hq & Hwt & ->).
      exists k, q. split; [done|]. split; [done|].
      by apply (queue_weight_pos q wt Hwt).
Qed.

(** *** [step] keeps the invariant and makes progress *)

(** The bound on the remaining calls of [step]: the references still in the
    buckets, plus six for every removal that may still happen. *)
Definition remaining (s : state G) : nat :=
  total_queued (wall_queues s)
  + 6 * (GRID_WIDTH * GRID_HEIGHT - 1 - removed_count (walls_by_index s)).

(** What one productive call of [step] does to the counters: one reference
    leaves the buckets, at most one wall is removed, and only a removal
    pushes references, at most six. *)
Definition one_pop (s s' : state G) : Prop :=
  removed_count (walls_by_index s) ≤ removed_count (walls_by_index s') ≤
    S (removed_count (walls_by_index s)) ∧
  total_queued (wall_queues s) ≤ total_queued (wall_queues s') + 1 ∧
  total_queued (wall_queues s') + 1
  ≤ total_queued (wall_queues s)
    + 6 * (removed_count (walls_by_index s') - removed_count (walls_by_index s)).

Lemma removed_count_bound P s :
  gen_inv P s → removed_count (walls_by_index s) ≤ GRID_WIDTH * GRID_HEIGHT - 1.
Proof.
  intros Hinv. rewrite (gi_count _ _ Hinv).
  pose proof (gi_uf_length _ _ Hinv) as Hl.
  destruct (union_find s) as [|v a] eqn:E; [unfold UF.links; simpl; lia|].
  rewrite <- E in *. pose proof (UF.links_lt _ (proj1 (gi_uf _ _ Hinv))) as Hlt.
  assert (0 < length (union_find s)) by (rewrite E; simpl; lia). lia.
Qed.

Lemma popped_inv q q' r qi s :
  gen_inv (λ _, True) s → wall_queues s !! qi = Some q → q = q' ++ [r] →
  gen_inv (λ r', r' ≠ r) (set_wall_queues (<[qi := q']> (wall_queues s)) s) ∧
  S (total_queued (<[qi := q']> (wall_queues s))) = total_queued (wall_queues s).
Proof.
  intros Hinv Hq ->. assert (Hqi := lookup_lt_Some _ _ _ Hq). split.
  - destruct Hinv as [Hw Hb Hrefs Huf Hul Hrem Hque Hcnt Hcon]. split; simpl; auto.
    + by rewrite length_insert.
    + intros i q0 r0 Hi Hr0. destruct (decide (i = qi)) as [->|Hne].
      * rewrite list_lookup_insert_eq in Hi by done. simplify_eq.
        eapply Hrefs; [done|]. apply elem_of_app. by left.
      * rewrite list_lookup_insert_ne in Hi by done. by eapply Hrefs.
    + intros r0 w0 Hne Hr0. destruct (Hque r0 w0 I Hr0) as [(q0 & Hq0 & Hin)|?];
        [|by right]. left.
      destruct (decide (wall_typ w0 = qi)) as [E|Hne'].
      * rewrite E in *. simplify_eq. exists q'.
        rewrite list_lookup_insert_eq by done. split; [done|].
        apply elem_of_app in Hin as [?|Hin]; [done|].
        apply list_elem_of_singleton in Hin. done.
      * exists q0. by rewrite list_lookup_insert_ne.
  - pose proof (total_queued_insert _ _ _ q' Hq) as E.
    rewrite length_app in E. simpl in E. lia.
Qed.

Lemma take_from_inv qi q s :
  gen_inv (λ _, True) s → wall_queues s !! qi = Some q → q ≠ [] →
  ∃ s', take_from qi s = Some (true, s') ∧ gen_inv (λ _, True) s' ∧
    walls_le (walls_by_index s) (walls_by_index s') ∧ one_pop s s' ∧
    remaining s' < remaining s.
Proof.
  intros Hinv Hq Hne. unfold take_from. rewrite Hq. cbn [mbind option_bind].
  destruct (pop q) as [[q' r]|] eqn:Hpop; [|by apply pop_None in Hpop].
  apply pop_Some in Hpop.
  destruct (popped_inv q q' r qi s Hinv Hq Hpop) as [Hinv2 Htot].
  set (s2 := set_wall_queues _ s) in *.
  destruct (gi_refs _ _ Hinv qi q r Hq) as [w Hr].
  { rewrite Hpop. apply elem_of_app. right. by left. }
  change (walls_by_index s2) with (walls_by_index s). rewrite Hr.
  cbn [mbind option_bind]. case_decide as Htyp.
  - destruct (try_wall_inv r s2 w Hinv2 Hr) as (b & s3 & -> & Hinv3 & Hle3 & Hb).
    cbn [mbind option_bind]. destruct b.
    + eexists. split; [done|]. split; [by eapply gen_inv_frame|].
      split; [done|]. destruct Hb as [Hcnt Hq3].
      pose proof (removed_count_bound _ _ Hinv3) as Hb3.
      unfold remaining, one_pop. simpl in *. lia.
    + exists s3. split; [done|]. split; [done|]. split; [done|].
      destruct Hb as [Ew Eq]. unfold remaining, one_pop. rewrite Ew, Eq. simpl. lia.
  - exists s2. split; [done|]. split; [|split; [apply walls_le_refl|]].
    + apply (gen_inv_restore r); [done|]. simpl. intros w' Hr'.
      rewrite Hr in Hr'. simplify_eq.
      destruct (gi_queued _ _ Hinv r w' I Hr) as [(q0 & Hq0 & Hin)|?]; [|by right].
      left. exists q0. by rewrite list_lookup_insert_ne.
    + unfold remaining, one_pop. simpl. lia.
Qed.

Lemma step_inv s :
  gen_inv (λ _, True) s →
  (step s = Some (false, s) ∧ ∀ i q, wall_queues s !! i = Some q → q = []) ∨
  (∃ s', step s = Some (true, s') ∧ gen_inv (λ _, True) s' ∧
         walls_le (walls_by_index s) (walls_by_index s') ∧ one_pop s s' ∧
         remaining s' < remaining s).
Proof.
  intros Hinv. unfold step.
  destruct (selection_spec s (gi_buckets _ _ Hinv))
    as [[-> Hempty]|(i & q & -> & Hq & Hne)]; cbn [mbind option_bind].
  - by left.
  - right. destruct (take_from_inv i q (set_rng (random (rng s)).2 s))
      as (s' & Hs' & ? & ? & ? & ?); [by eapply gen_inv_frame|done..|].
    exists s'. done.
Qed.

Lemma steps_inv n s s' :
  gen_inv (λ _, True) s → steps n s = Some s' →
  gen_inv (λ _, True) s' ∧ walls_le (walls_by_index s) (walls_by_index s').
Proof.
  revert s. induction n as [|n IH]; intros s Hinv Hs; simpl in Hs.
  { simplify_eq. split; [done|apply walls_le_refl]. }
  destruct (step_inv s Hinv) as [[E _]|(s1 & E & Hinv1 & Hle1 & _ & _)];
    rewrite E in Hs; cbn [mbind option_bind] in Hs.
  - by apply IH.
  - destruct (IH s1 Hinv1 Hs) as [? ?]. split; [done|]. by eapply walls_le_trans.
Qed.

Lemma generate_terminates n s :
  gen_inv (λ _, True) s → remaining s < n →
  ∃ k s', generate n s = Some (k, s') ∧ k ≤ remaining s ∧
    steps k s = Some s' ∧ gen_inv (λ _, True) s' ∧ step s' = Some (false, s').
Proof.
  revert s. induction n as [|n IH]; intros s Hinv Hn; [lia|].
  simpl. destruct (step_inv s Hinv) as [[E _]|(s1 & E & Hinv1 & _ & _ & Hlt)];
    rewrite E; cbn [mbind option_bind].
  - exists 0, s. split; [done|]. split; [lia|]. done.
  - destruct (IH s1 Hinv1 ltac:(lia)) as (k & s' & -> & Hk & Hsteps & Hinv' & Hdone).
    cbn [mbind option_bind]. exists (S k), s'. split; [done|]. split; [lia|].
    split; [|done]. simpl. rewrite E. done.
Qed.

(** *** [init] establishes the invariant *)

(** The loop invariant of [init], after [n] slots have been appended. *)
Record init_inv (n : nat) (s : state G) : Prop := {
  ii_uf : union_find s = [];
  ii_length : length (walls_by_index s) = n;
  ii_buckets : length (wall_queues s) = 9;
  ii_wall r w :
    deref (walls_by_index s) r = Some w →
    r = slot (wall_x w) (wall_y w) (wall_dr w) ∧
    present (wall_x w) (wall_y w) (wall_dr w) ∧
    wall_typ w = 0 ∧ wall_clr w = false ∧
    ∃ q, wall_queues s !! 0 = Some q ∧ r ∈ q;
  ii_refs i q r :
    wall_queues s !! i = Some q → r ∈ q → is_Some (deref (walls_by_index s) r);
  ii_present x y dr :
    present x y dr → slot x y dr < n → is_Some (deref (walls_by_index s) (slot x y dr));
  ii_total : total_queued (wall_queues s) ≤ n
}.

Lemma deref_snoc walls o r :
  deref (walls ++ [o]) r
  = if decide (r = length walls) then o else deref walls r.
Proof.
  unfold deref. case_decide as E.
  - subst. by rewrite list_lookup_middle.
  - destruct (decide (r < length walls)).
    + by rewrite lookup_app_l.
    + rewrite !lookup_ge_None_2; [done|lia|]. rewrite length_app. simpl. lia.
Qed.

Lemma add_wall_inv x y dr (b : bool) s :
  init_inv (slot x y dr) s → x < GRID_WIDTH → y < GRID_HEIGHT →
  (b = true ↔ present x y dr) →
  ∃ s', add_wall x y dr b s = Some s' ∧ init_inv (S (slot x y dr)) s'.
Proof.
  intros [Hu Hl Hb Hw Hrefs Hp Ht] Hx Hy Hpres. unfold add_wall. destruct b.
  - destruct (lookup_lt_is_Some_2 (wall_queues s) 0) as [q Hq]; [lia|].
    cbn [wall_queues set_walls]. rewrite Hq. cbn [mbind option_bind].
    cbn [rng set_walls]. rewrite push_rand_eq. cbn [mbind option_bind].
    eexists. split; [done|]. rewrite Hl.
    assert (Hq0 : 0 < length (wall_queues s)) by lia.
    split; simpl.
    + done.
    + rewrite length_app. simpl. lia.
    + by rewrite length_insert.
    + intros r w. rewrite deref_snoc, Hl. case_decide as E.
      * intros [= <-]. simpl. split; [done|]. split; [by apply Hpres|].
        split; [done|]. split; [done|]. eexists.
        rewrite list_lookup_insert_eq by done. split; [done|].
        apply elem_of_list_insert_at. by left.
      * intros Hr. destruct (Hw r w Hr) as (? & ? & ? & ? & q0 & Hq0' & Hin).
        split_and!; try done. eexists.
        rewrite list_lookup_insert_eq by done. split; [done|].
        apply elem_of_list_insert_at. right. by simplify_eq.
    + intros i q0 r Hi Hr. rewrite deref_snoc, Hl. case_decide; [done|].
      destruct (decide (i = 0)) as [->|Hne].
      * rewrite list_lookup_insert_eq in Hi by done. simplify_eq.
        apply elem_of_list_insert_at in Hr as [?|Hr]; [done|]. by eapply Hrefs.
      * rewrite list_lookup_insert_ne in Hi by done. by eapply Hrefs.
    + intros x' y' dr' Hp' Hlt. rewrite deref_snoc, Hl.
      case_decide as E; [done|]. apply Hp; [done|lia].
    + pose proof (total_queued_insert _ _ _
        (list_insert_at (randrange (length q + 1) (rng s)).1 (slot x y dr) q) Hq) as E.
      rewrite length_list_insert_at in E. lia.
  - eexists. split; [done|]. split; simpl.
    + done.
    + rewrite length_app. simpl. lia.
    + done.
    + intros r w. rewrite deref_snoc, Hl. case_decide; [done|]. apply Hw.
    + intros i q0 r Hi Hr. rewrite deref_snoc, Hl. case_decide as E.
      * destruct (Hrefs _ _ _ Hi Hr) as [w Hw']. apply deref_lt in Hw'. lia.
      * by eapply Hrefs.
    + intros x' y' dr' Hp' Hlt. rewrite deref_snoc, Hl. case_decide as E.
      * assert (Hx' := proj1 Hp').
        apply slot_inj in E as (-> & -> & ->); [|done..].
        apply Hpres in Hp'. done.
      * apply Hp; [done|lia].
    + lia.
Qed.

Lemma init_inv_frame n s s' :
  init_inv n s → union_find s' = union_find s →
  wall_queues s' = wall_queues s → walls_by_index s' = walls_by_index s →
  init_inv n s'.
Proof. intros [] Hu Hq Hw. split; rewrite ?Hu, ?Hq, ?Hw; done. Qed.

Lemma init_cell_inv x y s :
  init_inv ((y * GRID_WIDTH + x) * 2) s → x < GRID_WIDTH → y < GRID_HEIGHT →
  ∃ s', init_cell y x s = Some s' ∧ init_inv ((y * GRID_WIDTH + S x) * 2) s'.
Proof.
  intros Hinv Hx Hy. unfold init_cell.
  destruct (add_wall_inv x y true
              (bool_decide (Z.of_nat x < Z.of_nat GRID_WIDTH - 1)%Z)
              (draw_on (fill_cell (Z.of_nat x) (Z.of_nat y) 0 0 WHITE) s))
    as (s1 & -> & Hinv1); [| done.. | |].
  { apply (init_inv_frame _ s); [|done..].
    by replace (slot x y true) with ((y * GRID_WIDTH + x) * 2) by (unfold slot; lia). }
  { rewrite bool_decide_eq_true. unfold present. split; [lia|]. intros (_ & _ & ?). lia. }
  cbn [mbind option_bind].
  destruct (add_wall_inv x y false
              (bool_decide (Z.of_nat y < Z.of_nat GRID_HEIGHT - 1)%Z) s1)
    as (s2 & -> & Hinv2); [| done.. | |].
  { by replace (slot x y false) with (S (slot x y true)) by (unfold slot; lia). }
  { rewrite bool_decide_eq_true. unfold present. split; [lia|]. intros (_ & _ & ?). lia. }
  exists s2. split; [done|].
  by replace ((y * GRID_WIDTH + S x) * 2) with (S (slot x y false))
    by (unfold slot; lia).
Qed.

Lemma init_row_inv y x n s :
  init_inv ((y * GRID_WIDTH + x) * 2) s → x + n ≤ GRID_WIDTH → y < GRID_HEIGHT →
  ∃ s', for_each (seq x n) (init_cell y) s = Some s' ∧
        init_inv ((y * GRID_WIDTH + (x + n)) * 2) s'.
Proof.
  revert x s. induction n as [|n IH]; intros x s Hinv Hle Hy.
  - exists s. split; [done|]. by replace (x + 0) with x by lia.
  - cbn [seq for_each].
    destruct (init_cell_inv x y s Hinv ltac:(lia) Hy) as (s1 & -> & Hinv1).
    cbn [mbind option_bind].
    destruct (IH (S x) s1 Hinv1 ltac:(lia) Hy) as (s' & -> & Hinv').
    exists s'. split; [done|]. by replace (x + S n) with (S x + n) by lia.
Qed.

Lemma init_rows_inv y n s :
  init_inv (y * GRID_WIDTH * 2) s → y + n ≤ GRID_HEIGHT →
  ∃ s', for_each (seq y n) (λ y, for_each (seq 0 GRID_WIDTH) (init_cell y)) s = Some s' ∧
        init_inv ((y + n) * GRID_WIDTH * 2) s'.
Proof.
  revert y s. induction n as [|n IH]; intros y s Hinv Hle.
  - exists s. split; [done|]. by replace (y + 0) with y by lia.
  - cbn [seq for_each].
    destruct (init_row_inv y 0 GRID_WIDTH s) as (s1 & -> & Hinv1); [|lia..|].
    { by replace ((y * GRID_WIDTH + 0) * 2) with (y * GRID_WIDTH * 2) by lia. }
    cbn [mbind option_bind].
    destruct (IH (S y) s1) as (s' & -> & Hinv'); [|lia|].
    { by replace (S y * GRID_WIDTH * 2)
        with ((y * GRID_WIDTH + (0 + GRID_WIDTH)) * 2) by lia. }
    exists s'. split; [done|]. by replace (y + S n) with (S y + n) by lia.
Qed.

Lemma removed_count_zero (walls : list (option wall)) :
  (∀ r w, deref walls r = Some w → wall_clr w = false) → removed_count walls = 0.
Proof.
  unfold removed_count. induction walls as [|o walls IH]; intros Hc; [done|].
  rewrite filter_cons. case_decide as E.
  - destruct o as [w|]; [|done]. simpl in E. by rewrite (Hc 0 w) in E.
  - apply IH. intros r w Hr. by apply (Hc (S r) w).
Qed.

Lemma init_inv_gen_inv s :
  init_inv (GRID_HEIGHT * GRID_WIDTH * 2) s →
  gen_inv (λ _, True) s ∧ removed_count (walls_by_index s) = 0 ∧
  remaining s ≤ 8 * (GRID_WIDTH * GRID_HEIGHT).
Proof.
  intros [Hu Hl Hb Hw Hrefs Hp Ht].
  assert (Hz : removed_count (walls_by_index s) = 0).
  { apply removed_count_zero. intros r w Hr. by destruct (Hw r w Hr) as (_ & _ & _ & ? & _). }
  split; [|split; [done|unfold remaining; lia]].
  split; rewrite ?Hu; auto.
  - split.
    + lia.
    + intros r w Hr. destruct (Hw r w Hr) as (? & ? & -> & _). split_and!; (done || lia).
    + intros x y dr Hxy. apply Hp; [done|].
      destruct Hxy as (? & ? & _). pose proof (slot_lt x y dr). lia.
  - apply UF.inv_nil.
  - simpl. lia.
  - intros r w Hr Hc. destruct (Hw r w Hr) as (_ & _ & _ & ? & _). congruence.
  - intros r w _ Hr. destruct (Hw r w Hr) as (_ & _ & E & _ & Hq). left. by rewrite E.
  - intros a b _ _ Hab. unfold UF.same in Hab.
    rewrite !UF.root_ge in Hab by (simpl; lia). subst. constructor.
Qed.

(** [init] succeeds on a grid with at least one column, whatever the state
    before, and leaves a state that satisfies the invariant, with no wall
    removed and both openings inside the grid. *)
Lemma init_spec ticks s :
  0 < GRID_WIDTH →
  ∃ s', init ticks s = Some s' ∧ gen_inv (λ _, True) s' ∧
    removed_count (walls_by_index s') = 0 ∧
    remaining s' ≤ 8 * (GRID_WIDTH * GRID_HEIGHT) ∧
    (∃ sx, start_x s' = Some sx ∧ sx < GRID_WIDTH) ∧
    (∃ fx, finish_x s' = Some fx ∧ fx < GRID_WIDTH).
Proof.
  intros HW. unfold init, rand_int. case_decide; [lia|].
  cbn [mbind option_bind].
  pose proof (randrange_lt GRID_WIDTH (rng s) HW) as Hsx.
  destruct (randrange GRID_WIDTH (rng s)) as [sx g1]. cbn [mbind option_bind].
  pose proof (randrange_lt GRID_WIDTH g1 HW) as Hfx.
  destruct (randrange GRID_WIDTH g1) as [fx g2]. cbn [mbind option_bind].
  set (s0 := State _ _ _ _ _ _ _ _).
  destruct (init_rows_inv 0 GRID_HEIGHT s0) as (s1 & Hs1 & Hinv1); [|lia|].
  { unfold s0. split; cbn [union_find walls_by_index wall_queues]; try done.
    - intros i q r (-> & _)%lookup_replicate Hr. by apply elem_of_nil in Hr.
    - intros; lia. }
  rewrite Hs1. cbn [mbind option_bind].
  assert (Hfr : start_x s1 = Some sx ∧ finish_x s1 = Some fx).
  { assert (Hcell : ∀ y x s s', init_cell y x s = Some s' →
              start_x s' = start_x s ∧ finish_x s' = finish_x s).
    { intros y x t t'. unfold init_cell, add_wall.
      repeat case_match; intros; simplify_option_eq; try done.
      all: repeat match goal with
             | H : push_rand _ _ _ = Some _ |- _ => rewrite push_rand_eq in H
             end; simplify_eq; done. }
    pose (R := λ t t' : state G, start_x t' = start_x t ∧ finish_x t' = finish_x t).
    assert (HR : R s0 s1).
    { eapply (for_each_rel R); [by split | | | exact Hs1].
      - intros ??? [??] [??]. split; congruence.
      - intros y t t'. apply (for_each_rel R); [by split | |].
        + intros ??? [??] [??]. split; congruence.
        + apply Hcell. }
    destruct HR as [E1 E2]. by rewrite E1, E2. }
  simpl in Hinv1. destruct (init_inv_gen_inv s1 Hinv1) as (Hg & Hz & Hrem).
  eexists. split; [done|]. split; [by eapply gen_inv_frame|].
  split; [done|]. split; [done|]. simpl in Hsx, Hfx. simpl.
  destruct Hfr as [-> ->]. split; eexists; (split; [done|]); done.
Qed.

(** *** Generation ends with a spanning tree *)

Lemma total_queued_empty (queues : list (list nat)) :
  (∀ i q, queues !! i = Some q → q = []) → total_queued queues = 0.
Proof.
  unfold total_queued. induction queues as [|q queues IH]; intros Hq; [done|].
  rewrite fmap_cons. simpl. rewrite (Hq 0 q eq_refl). simpl.
  apply IH. intros i q' Hi. by apply (Hq (S i)).
Qed.

Lemma wall_between s x y dr :
  gen_inv (λ _, True) s → present x y dr →
  (∀ i q, wall_queues s !! i = Some q → q = []) →
  UF.same (union_find s) (y * GRID_WIDTH + x)
          (y * GRID_WIDTH + x + (if dr then 1 else GRID_WIDTH)).
Proof.
  intros Hinv Hp Hempty.
  destruct (wo_present _ (gi_walls _ _ Hinv) x y dr Hp) as [w Hw].
  destruct (wo_wall _ (gi_walls _ _ Hinv) _ _ Hw) as (E & (Hx & _) & _).
  apply slot_inj in E as (Ex & Ey & Ed); [|by destruct Hp|done].
  destruct (gi_queued _ _ Hinv _ w I Hw) as [(q & Hq & Hin)|Hs].
  - rewrite (Hempty _ _ Hq) in Hin. by apply elem_of_nil in Hin.
  - unfold cell_index2, cell_index1 in Hs. by rewrite <- Ex, <- Ey, <- Ed in Hs.
Qed.

Lemma all_cells_same s :
  gen_inv (λ _, True) s →
  (∀ i q, wall_queues s !! i = Some q → q = []) →
  ∀ a b, a < GRID_WIDTH * GRID_HEIGHT → b < GRID_WIDTH * GRID_HEIGHT →
         UF.same (union_find s) a b.
Proof.
  intros Hinv Hempty.
  assert (Hcol : ∀ y, y < GRID_HEIGHT → 0 < GRID_WIDTH →
            UF.same (union_find s) (y * GRID_WIDTH) 0).
  { induction y as [|y IH]; intros Hy HW; [done|].
    pose proof (wall_between s 0 y false Hinv) as Hb.
    unfold UF.same in *. rewrite <- IH by lia.
    replace (S y * GRID_WIDTH) with (y * GRID_WIDTH + 0 + GRID_WIDTH) by lia.
    replace (y * GRID_WIDTH) with (y * GRID_WIDTH + 0) at 2 by lia.
    symmetry. apply Hb; [|done]. unfold present. lia. }
  assert (Hrow : ∀ x y, x < GRID_WIDTH → y < GRID_HEIGHT →
            UF.same (union_find s) (y * GRID_WIDTH + x) 0).
  { induction x as [|x IH]; intros y Hx Hy.
    - replace (y * GRID_WIDTH + 0) with (y * GRID_WIDTH) by lia. apply Hcol; lia.
    - pose proof (wall_between s x y true Hinv) as Hb.
      unfold UF.same in *. rewrite <- (IH y) by lia.
      replace (y * GRID_WIDTH + S x) with (y * GRID_WIDTH + x + 1) by lia.
      symmetry. apply Hb; [|done]. unfold present. lia. }
  assert (Hcell : ∀ a, a < GRID_WIDTH * GRID_HEIGHT → UF.same (union_find s) a 0).
  { intros a Ha. assert (HW : 0 < GRID_WIDTH) by lia.
    pose proof (Nat.div_mod a GRID_WIDTH ltac:(lia)) as E.
    pose proof (Nat.mod_upper_bound a GRID_WIDTH ltac:(lia)).
    assert (a / GRID_WIDTH < GRID_HEIGHT).
    { apply Nat.Div0.div_lt_upper_bound. lia. }
    rewrite E. replace (GRID_WIDTH * (a / GRID_WIDTH)) with (a / GRID_WIDTH * GRID_WIDTH) by lia.
    by apply Hrow. }
  intros a b Ha Hb. unfold UF.same in *. by rewrite (Hcell a), (Hcell b).
Qed.

(** C1. On a grid with at least one row and one column, once [step]
    reports that no wall is left, every cell of the grid has the same
    union-find representative, any two cells are joined by a chain of
    removed walls, and exactly [W * H - 1] walls are removed. *)
Theorem generation_spans_grid ticks (s0 s1 s2 : state G) (n : nat) :
  0 < GRID_WIDTH → 0 < GRID_HEIGHT →
  init ticks s0 = Some s1 → steps n s1 = Some s2 →
  fst <$> step s2 = Some false →
  (∀ a b, a < GRID_WIDTH * GRID_HEIGHT → b < GRID_WIDTH * GRID_HEIGHT →
          UF.same (union_find s2) a b ∧ connected (walls_by_index s2) a b) ∧
  removed_count (walls_by_index s2) = GRID_WIDTH * GRID_HEIGHT - 1.
Proof.
  intros HW HH Hinit Hsteps Hdone.
  destruct (init_spec ticks s0 HW) as (s1' & Hinit' & Hinv1 & _).
  rewrite Hinit in Hinit'. simplify_eq.
  destruct (steps_inv _ _ _ Hinv1 Hsteps) as [Hinv2 _].
  destruct (step_inv s2 Hinv2) as [[_ Hempty]|(s' & E & _)];
    [|by rewrite E in Hdone].
  pose proof (all_cells_same s2 Hinv2 Hempty) as Hsame. split.
  - intros a b Ha Hb. split; [by apply Hsame|].
    apply (gi_connected _ _ Hinv2); [done..|]. by apply Hsame.
  - rewrite (gi_count _ _ Hinv2).
    apply UF.links_all_same; [apply (gi_uf _ _ Hinv2) | apply (gi_uf_length _ _ Hinv2) | done].
Qed.

Lemma generate_mono n m s r :
  generate n s = Some r → n ≤ m → generate m s = Some r.
Proof.
  revert m s r. induction n as [|n IH]; intros m s r Hg Hle; [done|].
  destruct m as [|m]; [lia|]. simpl in *.
  destruct (step s) as [[more s']|]; [|done]. cbn [mbind option_bind] in *.
  destruct more; [|done].
  destruct (generate n s') as [[k s'']|] eqn:E; [|done].
  rewrite (IH m s' (k, s'') E ltac:(lia)). done.
Qed.


(** *** Discarded pops *)

(** The state [step] leaves when all it does is pop from bucket [i]. *)
Definition popped (i : nat) (q' : list nat) (g : G) (s : state G) : state G :=
  State (union_find s) (<[i := q']> (wall_queues s)) (walls_by_index s)
        (start_x s) (finish_x s) (progress_time s) g (screen s).

(** C7. [try_wall] on a wall that is already removed answers [False] and
    leaves the whole state as it was.  A [step] whose pop yields a stale
    reference (the wall's type differs from the bucket index), or a wall
    that is already removed, only advances the random source and drops the
    popped reference: walls, union-find array, the other buckets, the
    screen and the timer are unchanged. *)
Theorem removed_or_stale_is_discarded (s : state G) (r : nat) (w : wall) :
  deref (walls_by_index s) r = Some w →
  (wall_clr w = true → try_wall r s = Some (false, s)) ∧
  (∀ i g q', selection s = Some (Some (i, g)) →
             wall_queues s !! i = Some (q' ++ [r]) →
             wall_typ w ≠ i ∨ wall_clr w = true →
             step s = Some (true, popped i q' g s)).
Proof.
  intros Hr. split.
  - intros Hc. by rewrite (try_wall_eq r s w Hr), Hc.
  - intros i g q' Hsel Hq Hcase. unfold step. rewrite Hsel.
    cbn [mbind option_bind]. unfold take_from.
    cbn [wall_queues set_rng]. rewrite Hq. cbn [mbind option_bind].
    rewrite (proj2 (pop_Some (q' ++ [r]) q' r) eq_refl).
    cbn [walls_by_index set_wall_queues set_rng]. rewrite Hr.
    cbn [mbind option_bind]. case_decide as Ht; [|done].
    destruct Hcase as [|Hc]; [done|].
    rewrite (try_wall_eq r _ w) by done. rewrite Hc. done.
Qed.

(** *** The type of a wall never decreases *)

(** C8. Along a run, from any state reached after [init], any further
    number of [step] calls leaves every wall with its coordinates and a
    type at least as large.  The one operation that writes the type,
    [update_wall_type], recomputes [t1 * 3 + t2] from the two triples of
    neighbours; exactly when this exceeds the stored type it stores it and
    inserts one reference to the wall into the bucket of the new type, at
    the position [randrange(len + 1)] drew; otherwise the state is
    unchanged. *)
Theorem wall_type_never_decreases ticks (s0 s1 s : state G) (n : nat) :
  0 < GRID_WIDTH → init ticks s0 = Some s1 → steps n s1 = Some s →
  (∀ m s', steps m s = Some s' → walls_le (walls_by_index s) (walls_by_index s')) ∧
  (∀ (t : state G) r w,
     walls_ok (walls_by_index t) → length (wall_queues t) = 9 →
     deref (walls_by_index t) r = Some w →
     ∃ n0 n1 n2 n3 n4 n5 new_type,
       get_neighbour (walls_by_index t) w 0 = Some n0 ∧
       get_neighbour (walls_by_index t) w 1 = Some n1 ∧
       get_neighbour (walls_by_index t) w 2 = Some n2 ∧
       get_neighbour (walls_by_index t) w 3 = Some n3 ∧
       get_neighbour (walls_by_index t) w 4 = Some n4 ∧
       get_neighbour (walls_by_index t) w 5 = Some n5 ∧
       new_type
       = get_wall_end_type (wall_of (walls_by_index t) n0)
           (wall_of (walls_by_index t) n1) (wall_of (walls_by_index t) n2) * 3
         + get_wall_end_type (wall_of (walls_by_index t) n3)
             (wall_of (walls_by_index t) n4) (wall_of (walls_by_index t) n5) ∧
       (new_type ≤ wall_typ w → update_wall_type r t = Some t) ∧
       (wall_typ w < new_type →
        ∃ q i, wall_queues t !! new_type = Some q ∧
          i = (randrange (length q + 1) (rng t)).1 ∧ i ≤ length q ∧
          update_wall_type r t
          = Some (State (union_find t)
                        (<[new_type := take i q ++ r :: drop i q]> (wall_queues t))
                        (<[r := Some (set_typ new_type w)]> (walls_by_index t))
                        (start_x t) (finish_x t) (progress_time t)
                        (randrange (length q + 1) (rng t)).2 (screen t)))).
Proof.
  intros HW Hinit Hsteps. split.
  - intros m s' Hm.
    destruct (init_spec ticks s0 HW) as (s1' & Hinit' & Hinv1 & _).
    rewrite Hinit in Hinit'. simplify_eq.
    destruct (steps_inv _ _ _ Hinv1 Hsteps) as [Hinv _].
    by destruct (steps_inv _ _ _ Hinv Hm) as [_ ?].
  - intros t r w Hok Hb Hr.
    destruct (get_neighbour_ok _ w 0 Hok) as (n0 & E0 & _).
    destruct (get_neighbour_ok _ w 1 Hok) as (n1 & E1 & _).
    destruct (get_neighbour_ok _ w 2 Hok) as (n2 & E2 & _).
    destruct (get_neighbour_ok _ w 3 Hok) as (n3 & E3 & _).
    destruct (get_neighbour_ok _ w 4 Hok) as (n4 & E4 & _).
    destruct (get_neighbour_ok _ w 5 Hok) as (n5 & E5 & _).
    exists n0, n1, n2, n3, n4, n5. eexists. split_and!; try done.
    + intros Hle. erewrite update_wall_type_eq; [|done|].
      2:{ unfold classify. rewrite E0, E1, E2, E3, E4, E5. done. }
      case_decide; [lia|done].
    + intros Hlt. destruct (classify_ok _ w Hok) as (t' & Ht' & Ht8).
      unfold classify in Ht'. rewrite E0, E1, E2, E3, E4, E5 in Ht'.
      cbn [mbind option_bind] in Ht'. injection Ht' as Et'.
      destruct (lookup_lt_is_Some_2 (wall_queues t) t') as [q Hq]; [lia|].
      rewrite Et'. exists q. eexists. split; [done|]. split; [done|]. split.
      * pose proof (randrange_lt (length q + 1) (rng t)). lia.
      * erewrite update_wall_type_eq; [|done|].
        2:{ unfold classify. rewrite E0, E1, E2, E3, E4, E5. done. }
        rewrite Et'. case_decide; [|lia]. rewrite Hq. done.
Qed.

(** *** Determinism *)

(** Two states that differ at most in the timer and in what the screen had
    received before the calls [p1], respectively [p2]. *)
Definition sim (p1 p2 : list draw) (s t : state G) : Prop :=
  union_find s = union_find t ∧ wall_queues s = wall_queues t ∧
  walls_by_index s = walls_by_index t ∧
  start_x s = start_x t ∧ finish_x s = finish_x t ∧ rng s = rng t ∧
  ∃ d, screen s = p1 ++ d ∧ screen t = p2 ++ d.

Ltac sim_destruct :=
  match goal with
  | H : sim _ _ ?s ?t |- _ =>
      destruct s, t; destruct H as (? & ? & ? & ? & ? & ? & ? & ? & ?);
      simpl in *; subst
  end.

Ltac sim_solve := unfold sim; simpl; split_and!; try done; eexists; done.

Lemma for_each_sim {A} (R : state G → state G → Prop)
    (body : A → state G → option (state G)) (l : list A) :
  (∀ x s t s', R s t → body x s = Some s' → ∃ t', body x t = Some t' ∧ R s' t') →
  ∀ s t s', R s t → for_each l body s = Some s' →
            ∃ t', for_each l body t = Some t' ∧ R s' t'.
Proof.
  intros Hb. induction l as [|x l IH]; intros s t s' HR Hs; simpl in *.
  - simplify_eq. by exists t.
  - destruct (body x s) as [s1|] eqn:E; [|done]. cbn [mbind option_bind] in Hs.
    destruct (Hb x s t s1 HR E) as (t1 & -> & HR1). cbn [mbind option_bind].
    by eapply IH.
Qed.

Lemma update_wall_type_sim p1 p2 r s t s' :
  sim p1 p2 s t → update_wall_type r s = Some s' →
  ∃ t', update_wall_type r t = Some t' ∧ sim p1 p2 s' t'.
Proof.
  intros Hsim Hs. sim_destruct. unfold update_wall_type in *. simpl in *.
  destruct (deref _ r) as [w|]; [|done]. cbn [mbind option_bind] in *.
  destruct (classify _ w) as [nt|]; [|done]. cbn [mbind option_bind] in *.
  case_decide.
  - destruct (_ !! nt) as [q|]; [|done]. cbn [mbind option_bind] in *.
    rewrite push_rand_eq in *. cbn [mbind option_bind] in *. simplify_eq.
    eexists. split; [done|]. sim_solve.
  - simplify_eq. eexists. split; [done|]. sim_solve.
Qed.

Lemma update_neighbour_sim p1 p2 w i s t s' :
  sim p1 p2 s t → update_neighbour w i s = Some s' →
  ∃ t', update_neighbour w i t = Some t' ∧ sim p1 p2 s' t'.
Proof.
  intros Hsim Hs. unfold update_neighbour in *.
  assert (Hw : walls_by_index s = walls_by_index t) by apply Hsim.
  rewrite <- Hw. destruct (get_neighbour _ w i) as [[nb|]|]; [| |done];
    cbn [mbind option_bind] in *.
  - by eapply update_wall_type_sim.
  - simplify_eq. by exists t.
Qed.

Lemma try_wall_sim p1 p2 r s t b s' :
  sim p1 p2 s t → try_wall r s = Some (b, s') →
  ∃ t', try_wall r t = Some (b, t') ∧ sim p1 p2 s' t'.
Proof.
  intros Hsim Hs. unfold try_wall in *.
  assert (Hw : walls_by_index s = walls_by_index t) by apply Hsim.
  assert (Hu : union_find s = union_find t) by apply Hsim.
  rewrite <- Hw, <- Hu. destruct (deref _ r) as [w|]; [|done].
  cbn [mbind option_bind] in *. destruct (wall_clr w).
  { simplify_eq. by exists t. }
  destruct (UF.union _ _ _) as [[a merged]|]; [|done].
  cbn [mbind option_bind] in *. destruct merged.
  - destruct (for_each _ _ _) as [s4|] eqn:E; [|done].
    cbn [mbind option_bind] in Hs. simplify_eq.
    eapply (for_each_sim (sim p1 p2)) in E as (t4 & -> & Hsim4).
    + cbn [mbind option_bind]. by exists t4.
    + intros. by eapply update_neighbour_sim.
    + clear E. sim_destruct. unfold sim; simpl. split_and!; try done.
      eexists; split; symmetry; apply (assoc_L (++)).
  - simplify_eq. eexists. split; [done|]. clear Hw Hu. sim_destruct. sim_solve.
Qed.

Lemma step_sim p1 p2 s t b s' :
  sim p1 p2 s t → step s = Some (b, s') →
  ∃ t', step t = Some (b, t') ∧ sim p1 p2 s' t'.
Proof.
  intros Hsim Hs. unfold step in *.
  assert (Hsel : selection s = selection t).
  { unfold selection. destruct Hsim as (_ & -> & _ & _ & _ & -> & _). done. }
  rewrite <- Hsel. destruct (selection s) as [[[i g]|]|]; [| |done];
    cbn [mbind option_bind] in *.
  - assert (Hsim1 : sim p1 p2 (set_rng g s) (set_rng g t)).
    { clear Hs Hsel. sim_destruct. sim_solve. }
    revert Hs Hsim1. generalize (set_rng g s) (set_rng g t). clear s t Hsim Hsel.
    intros s t Hs Hsim. unfold take_from in *.
    assert (Hq : wall_queues s = wall_queues t) by apply Hsim.
    assert (Hw : walls_by_index s = walls_by_index t) by apply Hsim.
    rewrite <- Hq. destruct (_ !! i) as [q|]; [|done].
    cbn [mbind option_bind] in *. destruct (pop q) as [[q' r]|].
    + cbn [walls_by_index set_wall_queues] in *. rewrite <- Hw.
      destruct (deref _ r) as [w|]; [|done]. cbn [mbind option_bind] in *.
      assert (Hsim2 : sim p1 p2 (set_wall_queues (<[i:=q']> (wall_queues s)) s)
                        (set_wall_queues (<[i:=q']> (wall_queues s)) t)).
      { clear Hs Hw. sim_destruct. sim_solve. }
      case_decide.
      * destruct (try_wall r _) as [[ok s3]|] eqn:E; [|done].
        cbn [mbind option_bind] in Hs.
        destruct (try_wall_sim _ _ _ _ _ _ _ Hsim2 E) as (t3 & -> & Hsim3).
        cbn [mbind option_bind]. destruct ok; simplify_eq.
        -- eexists. split; [done|]. clear E. sim_destruct. sim_solve.
        -- by exists t3.
      * simplify_eq. eexists. split; [done|]. done.
    + simplify_eq. by exists t.
  - simplify_eq. by exists t.
Qed.

Lemma steps_sim p1 p2 n s t s' :
  sim p1 p2 s t → steps n s = Some s' →
  ∃ t', steps n t = Some t' ∧ sim p1 p2 s' t'.
Proof.
  revert s t. induction n as [|n IH]; intros s t Hsim Hs; simpl in *.
  - simplify_eq. by exists t.
  - destruct (step s) as [[b s1]|] eqn:E; [|done]. cbn [mbind option_bind] in Hs.
    destruct (step_sim _ _ _ _ _ _ Hsim E) as (t1 & -> & Hsim1).
    cbn [mbind option_bind]. by eapply IH.
Qed.

Lemma add_wall_sim p1 p2 x y dr b s t s' :
  sim p1 p2 s t → add_wall x y dr b s = Some s' →
  ∃ t', add_wall x y dr b t = Some t' ∧ sim p1 p2 s' t'.
Proof.
  intros Hsim Hs. sim_destruct. unfold add_wall in *. simpl in *. destruct b.
  - destruct (_ !! 0) as [q|]; [|done]. cbn [mbind option_bind] in *.
    rewrite push_rand_eq in *. cbn [mbind option_bind] in *. simplify_eq.
    eexists. split; [done|]. sim_solve.
  - simplify_eq. eexists. split; [done|]. sim_solve.
Qed.

Lemma init_cell_sim p1 p2 y x s t s' :
  sim p1 p2 s t → init_cell y x s = Some s' →
  ∃ t', init_cell y x t = Some t' ∧ sim p1 p2 s' t'.
Proof.
  intros Hsim Hs. unfold init_cell in *.
  destruct (add_wall x y true _ _) as [s1|] eqn:E; [|done].
  cbn [mbind option_bind] in Hs.
  eapply add_wall_sim in E as (t1 & -> & Hsim1).
  - cbn [mbind option_bind]. by eapply add_wall_sim.
  - clear Hs. sim_destruct. unfold sim; simpl. split_and!; try done.
    eexists; split; symmetry; apply (assoc_L (++)).
Qed.

Lemma init_sim ticks1 ticks2 (a b : state G) a' :
  rng a = rng b → init ticks1 a = Some a' →
  ∃ b', init ticks2 b = Some b' ∧ sim (screen a) (screen b) a' b'.
Proof.
  intros Hrng Ha. unfold init in *. rewrite <- Hrng.
  destruct (rand_int GRID_WIDTH (rng a)) as [[sx g1]|]; [|done].
  cbn [mbind option_bind] in *.
  destruct (rand_int GRID_WIDTH g1) as [[fx g2]|]; [|done].
  cbn [mbind option_bind] in *.
  destruct (for_each _ _ _) as [s1|] eqn:E; [|done].
  cbn [mbind option_bind] in Ha. simplify_eq.
  eapply (for_each_sim (sim (screen a) (screen b))) in E as (t1 & -> & Hsim1).
  - cbn [mbind option_bind]. eexists. split; [done|].
    clear -Hsim1. sim_destruct. sim_solve.
  - intros y s t s' Hsim Hs.
    eapply (for_each_sim (sim (screen a) (screen b))); [|done..].
    intros. by eapply init_cell_sim.
  - unfold sim; simpl. split_and!; try done.
    eexists; split; symmetry; apply (assoc_L (++)).
Qed.

(** C9. Two runs on the same grid whose random sources start in the same
    state behave identically, whatever the module variables, the clock and
    the screen were before: if [init] followed by [n] calls of [step]
    returns in one run, it returns in the other, with the same entrance and
    exit columns, the same buckets, the same walls and union-find array, the
    same state of the random source, and the same sequence of drawing calls,
    hence the same walls opened in the same order. *)
Theorem generation_is_deterministic ticks1 ticks2 (a b a' : state G) (n : nat) :
  rng a = rng b →
  init ticks1 a ≫= steps n = Some a' →
  ∃ b', init ticks2 b ≫= steps n = Some b' ∧
    start_x a' = start_x b' ∧ finish_x a' = finish_x b' ∧
    wall_queues a' = wall_queues b' ∧ walls_by_index a' = walls_by_index b' ∧
    union_find a' = union_find b' ∧ rng a' = rng b' ∧
    ∃ drawn, screen a' = screen a ++ drawn ∧ screen b' = screen b ++ drawn.
Proof.
  intros Hrng Ha. destruct (init ticks1 a) as [a1|] eqn:E; [|done].
  cbn [mbind option_bind] in Ha.
  destruct (init_sim ticks1 ticks2 a b a1 Hrng E) as (b1 & -> & Hsim1).
  cbn [mbind option_bind].
  destruct (steps_sim _ _ _ _ _ _ Hsim1 Ha) as (b' & -> & Hsim').
  exists b'. split; [done|].
  destruct Hsim' as (? & ? & ? & ? & ? & ? & ?). done.
Qed.

(** *** The openings stay where [init] put them *)

Definition same_ends (s s' : state G) : Prop :=
  start_x s' = start_x s ∧ finish_x s' = finish_x s.

Lemma same_ends_refl s : same_ends s s.
Proof. by split. Qed.

Lemma same_ends_trans s1 s2 s3 : same_ends s1 s2 → same_ends s2 s3 → same_ends s1 s3.
Proof. intros [??] [??]. split; congruence. Qed.

Lemma update_wall_type_ends r s s' : update_wall_type r s = Some s' → same_ends s s'.
Proof.
  unfold update_wall_type, same_ends.
  repeat case_match; intros; simplify_option_eq; try done.
  all: repeat match goal with
         | H : push_rand _ _ _ = Some _ |- _ => rewrite push_rand_eq in H
         end; simplify_eq; done.
Qed.

Lemma update_neighbour_ends w i s s' : update_neighbour w i s = Some s' → same_ends s s'.
Proof.
  unfold update_neighbour. intros Hs.
  destruct (get_neighbour (walls_by_index s) w i) as [[nb|]|]; simpl in Hs.
  - by eapply update_wall_type_ends.
  - simplify_eq. apply same_ends_refl.
  - done.
Qed.

Lemma try_wall_ends r s b s' : try_wall r s = Some (b, s') → same_ends s s'.
Proof.
  unfold try_wall. intros Hs.
  destruct (deref (walls_by_index s) r) as [w|]; [|done]. cbn [mbind option_bind] in Hs.
  destruct (wall_clr w); [simplify_eq; apply same_ends_refl|].
  destruct (UF.union _ _ _) as [[a merged]|]; [|done]. cbn [mbind option_bind] in Hs.
  destruct merged; [|simplify_eq; by split].
  match type of Hs with context [for_each ?l ?f ?t] =>
    destruct (for_each l f t) as [s4|] eqn:E; [|done] end.
  cbn [mbind option_bind] in Hs. simplify_eq.
  apply (for_each_rel same_ends) in E;
    [|apply same_ends_refl|apply same_ends_trans|apply update_neighbour_ends].
  destruct E as [E1 E2]. split; [by rewrite E1|by rewrite E2].
Qed.

Lemma step_ends s b s' : step s = Some (b, s') → same_ends s s'.
Proof.
  unfold step. intros Hs.
  destruct (selection s) as [[[queue_index g]|]|]; simpl in Hs;
    [|simplify_eq; apply same_ends_refl|done].
  unfold take_from in Hs.
  destruct (wall_queues _ !! queue_index) as [q|]; [|done]. simpl in Hs.
  destruct (pop q) as [[q' r]|]; [|simplify_eq; by split].
  destruct (deref _ r) as [w|]; [|done]. simpl in Hs.
  case_decide; [|simplify_eq; by split].
  destruct (try_wall r _) as [[ok s3]|] eqn:E; [|done]. simpl in Hs.
  apply try_wall_ends in E. destruct E as [E1 E2].
  destruct ok; simplify_eq; split; by rewrite ?E1, ?E2.
Qed.

Lemma steps_ends n s s' : steps n s = Some s' → same_ends s s'.
Proof.
  revert s. induction n as [|n IH]; intros s Hs; simpl in Hs.
  - simplify_eq. apply same_ends_refl.
  - destruct (step s) as [[b s1]|] eqn:E; [|done]. simpl in Hs.
    eapply same_ends_trans; [by eapply step_ends|by apply IH].
Qed.

End Generation.

(** ** The solver *)

(** The module variables of the solution animation, with the two shared
    ones it writes: the timer and the screen. *)
Record solving := Solving {
  solution_state : list (list nat);
  solution_level : list (nat * nat);
  solution_depth : nat;
  solving_time : Q;
  solving_screen : list draw
}.

(** [solution_state[y][x]] *)
Definition state_at (st : list (list nat)) (x y : nat) : option nat :=
  row ← st !! y; row !! x.

(** [solution_state[y][x] = d], on a cell that was just read. *)
Definition state_set (st : list (list nat)) (x y d : nat) : list (list nat) :=
  alter (<[x := d]>) y st.

(** [0 <= wall_index < len(walls_by_index) and
     walls_by_index[wall_index] is not None and
     walls_by_index[wall_index]['clr']] *)
Definition wall_open (walls : list (option wall)) (wall_index : Z) : bool :=
  bool_decide (0 <= wall_index < Z.of_nat (length walls))%Z
  && is_removed (deref walls (Z.to_nat wall_index)).

Section Solver.

Context {G : Type}.

Variables (GRID_WIDTH GRID_HEIGHT : nat).

(** [walldiff = [-GRID_WIDTH * 2 + 1, 0, -2, 1]] *)
Definition walldiff : list Z := [- Z.of_nat GRID_WIDTH * 2 + 1; 0; -2; 1]%Z.

(** [(tx, ty)] for the direction [n]:
    [ty = cy - 1 + (n - 1 if n >= 2 else n)],
    [tx = cx + (n & 1) - ((n >> 1) & 1)]. *)
Definition target (cx cy n : nat) : Z * Z :=
  (Z.of_nat cx + Z.land (Z.of_nat n) 1 - Z.land (Z.shiftr (Z.of_nat n) 1) 1,
   Z.of_nat cy - 1 + (if bool_decide (2 <= Z.of_nat n)%Z then Z.of_nat n - 1 else Z.of_nat n))%Z.

(** [0 <= tx < GRID_WIDTH and 0 <= ty < GRID_HEIGHT] *)
Definition in_grid (t : Z * Z) : bool :=
  bool_decide (0 <= t.1 < Z.of_nat GRID_WIDTH ∧ 0 <= t.2 < Z.of_nat GRID_HEIGHT)%Z.

(** The neighbour in direction [n] when the wall towards it is removed:
    the tests of both loops of [solution_step] that do not look at
    [solution_state]. *)
Definition door (walls : list (option wall)) (cx cy n : nat) : option (nat * nat) :=
  let t := target cx cy n in
  if in_grid t then
    match walldiff !! n with
    | Some wd =>
        if wall_open walls ((Z.of_nat cy * Z.of_nat GRID_WIDTH + Z.of_nat cx) * 2 + wd)
        then Some (Z.to_nat t.1, Z.to_nat t.2) else None
    | None => None
    end
  else None.

(** The body of the loop over [n] in the expansion of a frontier cell. *)
Definition visit (walls : list (option wall)) (cx cy n : nat) (v : solving)
    : option solving :=
  let t := target cx cy n in
  if in_grid t then
    d ← state_at (solution_state v) (Z.to_nat t.1) (Z.to_nat t.2);
    if decide (d = 0) then
      match door walls cx cy n with
      | Some (tx, ty) =>
          Some (Solving (state_set (solution_state v) tx ty (solution_depth v))
                        (solution_level v ++ [(tx, ty)])
                        (solution_depth v) (solving_time v)
                        (solving_screen v
                         ++ [fill_cell (Z.of_nat tx) (Z.of_nat ty) 0 0
                               (solution_colour (solution_depth v mod 7))]))
      | None => Some v
      end
    else Some v
  else Some v.

(** The loop over [old_level]. *)
Definition expand (walls : list (option wall)) (old_level : list (nat * nat))
    (v : solving) : option solving :=
  for_each old_level (λ c, for_each (seq 0 4) (visit walls c.1 c.2)) v.

(** The loop over [n] of the backtrace: the first neighbour behind a
    removed wall whose depth is not 0 and below [d]. *)
Fixpoint find_lower (walls : list (option wall)) (st : list (list nat))
    (d x y : nat) (ns : list nat) : option (option (nat * nat)) :=
  match ns with
  | [] => Some None
  | n :: ns' =>
      let t := target x y n in
      if in_grid t then
        d' ← state_at st (Z.to_nat t.1) (Z.to_nat t.2);
        if bool_decide (d' ≠ 0 ∧ d' < d) then
          match door walls x y n with
          | Some c => Some (Some c)
          | None => find_lower walls st d x y ns'
          end
        else find_lower walls st d x y ns'
      else find_lower walls st d x y ns'
  end.

(** The [while True] loop of the backtrace; returns the cells it paints,
    the exit first. *)
Fixpoint backtrace (fuel : nat) (walls : list (option wall)) (st : list (list nat))
    (x y : nat) : option (list (nat * nat)) :=
  match fuel with
  | 0 => None
  | S f =>
      d ← state_at st x y;
      next ← find_lower walls st d x y (seq 0 4);
      match next with
      | Some (tx, ty) => rest ← backtrace f walls st tx ty; Some ((x, y) :: rest)
      | None => Some [(x, y)]
      end
  end.

Definition path_fill (c : nat * nat) : draw :=
  fill_cell (Z.of_nat c.1) (Z.of_nat c.2) 0 0 PATH_COLOUR.

(** [init_solution(screen)] *)
Definition init_solution (ticks : Q) (s : state G) : option solving :=
  sx ← start_x s;
  let st := replicate GRID_HEIGHT (replicate GRID_WIDTH 0) in
  _ ← state_at st sx 0;
  Some (Solving (state_set st sx 0 1) [(sx, 0)] 1 ticks
                (screen s ++ [path_fill (sx, 0)])).

(** [solution_step(screen)]; the backtrace runs with as many rounds as the
    depth of the exit, which bounds it because every round moves to a
    smaller depth. *)
Definition solution_step (s : state G) (v : solving) : option (bool * solving) :=
  let v1 := Solving (solution_state v) [] (S (solution_depth v))
                    (solving_time v) (solving_screen v) in
  v2 ← expand (walls_by_index s) (solution_level v) v1;
  let time :=
    (solving_time v2
     + inject_Z (Qfloor (inject_Z (Z.of_nat (length (solution_level v2) + 5))
                         * (20 - 16) * 250
                         / inject_Z (Z.of_nat (GRID_WIDTH * GRID_HEIGHT)))))%Q in
  let v3 := Solving (solution_state v2) (solution_level v2) (solution_depth v2)
                    time (solving_screen v2) in
  fx ← finish_x s;
  d ← state_at (solution_state v3) fx (GRID_HEIGHT - 1);
  if decide (d = 0) then
    Some (bool_decide (solution_level v3 ≠ []), v3)
  else
    path ← backtrace d (walls_by_index s) (solution_state v3) fx (GRID_HEIGHT - 1);
    Some (false,
          Solving (solution_state v3) (solution_level v3) (solution_depth v3)
                  time (solving_screen v3 ++ (path_fill <$> path))).

(** The main loop while [current_state] is [solution_step]: call it until
    it answers [False]. *)
Fixpoint solve (fuel : nat) (s : state G) (v : solving) : option solving :=
  match fuel with
  | 0 => None
  | S f =>
      '(more, v') ← solution_step s v;
      if (more : bool) then solve f s v' else Some v'
  end.

(** *** Doors and removed walls *)

(** The flattened index [y * GRID_WIDTH + x] of a cell. *)
Definition cell_of (c : nat * nat) : nat := c.2 * GRID_WIDTH + c.1.

Definition inside (c : nat * nat) : Prop := c.1 < GRID_WIDTH ∧ c.2 < GRID_HEIGHT.

(** Two cells of the grid separated by a removed wall. *)
Definition adj (walls : list (option wall)) (c c' : nat * nat) : Prop :=
  inside c ∧ inside c' ∧ passage GRID_WIDTH walls (cell_of c) (cell_of c').

Lemma adj_sym walls c c' : adj walls c c' → adj walls c' c.
Proof. intros (? & ? & ?). split_and!; try done. by apply passage_sym. Qed.

Lemma target_cases x y :
  target x y 0 = (Z.of_nat x, Z.of_nat y - 1)%Z ∧
  target x y 1 = (Z.of_nat x + 1, Z.of_nat y)%Z ∧
  target x y 2 = (Z.of_nat x - 1, Z.of_nat y)%Z ∧
  target x y 3 = (Z.of_nat x, Z.of_nat y + 1)%Z.
Proof.
  unfold target.
  change (Z.of_nat 0) with 0%Z. change (Z.of_nat 1) with 1%Z.
  change (Z.of_nat 2) with 2%Z. change (Z.of_nat 3) with 3%Z.
  change (Z.land 0 1) with 0%Z. change (Z.land 1 1) with 1%Z.
  change (Z.land 2 1) with 0%Z. change (Z.land 3 1) with 1%Z.
  change (Z.land (0 ≫ 1) 1) with 0%Z. change (Z.land (1 ≫ 1) 1) with 0%Z.
  change (Z.land (2 ≫ 1) 1) with 1%Z. change (Z.land (3 ≫ 1) 1) with 1%Z.
  simpl. split_and!; f_equal; lia.
Qed.

Lemma cell_split x y x' y' :
  x < GRID_WIDTH → x' < GRID_WIDTH →
  y * GRID_WIDTH + x = y' * GRID_WIDTH + x' → x = x' ∧ y = y'.
Proof.
  intros Hx Hx' E. assert (y = y') as ->; [|lia].
  destruct (decide (y < y')); [nia|]. destruct (decide (y' < y)); [nia|lia].
Qed.

Lemma wall_open_Some walls i :
  wall_open walls i = true ↔
  (0 <= i)%Z ∧ ∃ w, deref walls (Z.to_nat i) = Some w ∧ wall_clr w = true.
Proof.
  unfold wall_open. rewrite andb_true_iff, bool_decide_eq_true. split.
  - intros [Hi Hr]. split; [lia|].
    destruct (deref walls (Z.to_nat i)) as [w|]; [|done]. by exists w.
  - intros (Hi & w & Hw & Hc). split.
    + apply deref_lt in Hw. lia.
    + by rewrite Hw.
Qed.

Lemma door_lt walls x y n c : door walls x y n = Some c → n < 4.
Proof.
  unfold door. destruct (in_grid _); [|done].
  destruct (walldiff !! n) eqn:E; [|done]. intros _.
  apply lookup_lt_Some in E. simpl in E. lia.
Qed.

Lemma door_adj walls x y n c :
  walls_ok GRID_WIDTH GRID_HEIGHT walls → x < GRID_WIDTH → y < GRID_HEIGHT →
  door walls x y n = Some c → adj walls (x, y) c.
Proof.
  intros Hok Hx Hy Hd. assert (Hn := door_lt _ _ _ _ _ Hd).
  destruct (target_cases x y) as (T0 & T1 & T2 & T3).
  revert Hd. unfold door. destruct (target x y n) as [tx ty] eqn:Et.
  destruct (in_grid (tx, ty)) eqn:Hin; [|done].
  unfold in_grid in Hin. apply bool_decide_eq_true in Hin. simpl in Hin.
  destruct (walldiff !! n) as [wd|] eqn:Hwd; [|done].
  destruct (wall_open _ _) eqn:Ho; [|done]. intros [= <-].
  apply wall_open_Some in Ho as (Hi & w & Hw & Hc).
  destruct (wo_wall _ _ _ Hok _ _ Hw) as (Er & (Hwx & Hwy & Hwp) & _).
  assert (Hslot : ∀ x0 y0 dr, x0 < GRID_WIDTH →
            Z.to_nat ((Z.of_nat y * Z.of_nat GRID_WIDTH + Z.of_nat x) * 2 + wd)
            = slot GRID_WIDTH x0 y0 dr →
            wall_x w = x0 ∧ wall_y w = y0 ∧ wall_dr w = dr).
  { intros x0 y0 dr Hx0 E. rewrite E in Er.
    apply slot_inj in Er as (? & ? & ?); done. }
  destruct n as [|[|[|[|n]]]]; [| | | |lia]; simpl in Hwd; injection Hwd as <-;
    [rewrite T0 in Et | rewrite T1 in Et | rewrite T2 in Et | rewrite T3 in Et];
    injection Et as <- <-;
    clear T0 T1 T2 T3; unfold adj, inside, cell_of, passage; simpl in *.
  - destruct (Hslot x (y - 1) false Hx) as (Ex & Ey & Ed); [unfold slot; nia|].
    split; [done|]. split; [lia|]. do 2 eexists. split; [exact Hw|].
    split; [done|]. right. unfold cell_index2, cell_index1. rewrite Ex, Ey, Ed. nia.
  - destruct (Hslot x y true Hx) as (Ex & Ey & Ed); [unfold slot; nia|].
    split; [done|]. split; [lia|]. do 2 eexists. split; [exact Hw|].
    split; [done|]. left. unfold cell_index2, cell_index1. rewrite Ex, Ey, Ed. nia.
  - destruct (Hslot (x - 1) y true ltac:(lia)) as (Ex & Ey & Ed); [unfold slot; nia|].
    split; [done|]. split; [lia|]. do 2 eexists. split; [exact Hw|].
    split; [done|]. right. unfold cell_index2, cell_index1. rewrite Ex, Ey, Ed. nia.
  - destruct (Hslot x y false Hx) as (Ex & Ey & Ed); [unfold slot; nia|].
    split; [done|]. split; [lia|]. do 2 eexists. split; [exact Hw|].
    split; [done|]. left. unfold cell_index2, cell_index1. rewrite Ex, Ey, Ed. nia.
Qed.

Lemma door_eval walls x y n tx ty wd w :
  target x y n = (tx, ty) →
  (0 <= tx < Z.of_nat GRID_WIDTH)%Z → (0 <= ty < Z.of_nat GRID_HEIGHT)%Z →
  walldiff !! n = Some wd →
  (0 <= (Z.of_nat y * Z.of_nat GRID_WIDTH + Z.of_nat x) * 2 + wd)%Z →
  deref walls (Z.to_nat ((Z.of_nat y * Z.of_nat GRID_WIDTH + Z.of_nat x) * 2 + wd))
  = Some w →
  wall_clr w = true →
  door walls x y n = Some (Z.to_nat tx, Z.to_nat ty).
Proof.
  intros Et Hx Hy Hwd Hi Hw Hc. unfold door. rewrite Et. cbv zeta.
  unfold in_grid. rewrite bool_decide_eq_true_2 by done. rewrite Hwd.
  rewrite (proj2 (wall_open_Some walls _)); [done|]. split; [done|]. by exists w.
Qed.

Lemma adj_door walls c c' :
  walls_ok GRID_WIDTH GRID_HEIGHT walls → adj walls c c' →
  ∃ n, door walls c.1 c.2 n = Some c'.
Proof.
  intros Hok ([Hx Hy] & [Hx' Hy'] & r & w & Hw & Hc & Hcase).
  destruct c as [x y], c' as [x' y']. unfold cell_of in Hcase. simpl in *.
  destruct (wo_wall _ _ _ Hok _ _ Hw) as (Er & (Hwx & Hwy & Hwp) & _).
  destruct (target_cases x y) as (T0 & T1 & T2 & T3).
  unfold cell_index2, cell_index1 in Hcase.
  assert (Hev : ∀ n tx ty wd,
            target x y n = (tx, ty) → walldiff !! n = Some wd →
            tx = Z.of_nat x' → ty = Z.of_nat y' →
            (0 <= (Z.of_nat y * Z.of_nat GRID_WIDTH + Z.of_nat x) * 2 + wd)%Z →
            Z.to_nat ((Z.of_nat y * Z.of_nat GRID_WIDTH + Z.of_nat x) * 2 + wd) = r →
            ∃ n, door walls x y n = Some (x', y')).
  { intros n tx ty wd Et Hwd -> -> Hi Hr. exists n.
    rewrite (door_eval walls x y n _ _ wd w Et);
      [by rewrite !Nat2Z.id | lia | lia | done | done | by rewrite Hr | done]. }
  destruct (wall_dr w) eqn:Hd.
  - destruct Hcase as [[E1 E2]|[E1 E2]].
    + apply cell_split in E1 as [-> ->]; [|done..].
      replace (wall_y w * GRID_WIDTH + wall_x w + 1)
        with (wall_y w * GRID_WIDTH + (wall_x w + 1)) in E2 by lia.
      apply cell_split in E2 as [-> ->]; [|done..].
      apply (Hev 1 _ _ 0%Z T1); [done|lia|done|lia|]. rewrite Er. unfold slot. nia.
    + apply cell_split in E2 as [-> ->]; [|done..].
      replace (wall_y w * GRID_WIDTH + wall_x w + 1)
        with (wall_y w * GRID_WIDTH + (wall_x w + 1)) in E1 by lia.
      apply cell_split in E1 as [-> ->]; [|done..].
      apply (Hev 2 _ _ (-2)%Z T2); [done|lia|done|nia|]. rewrite Er. unfold slot. nia.
  - destruct Hcase as [[E1 E2]|[E1 E2]].
    + apply cell_split in E1 as [-> ->]; [|done..].
      replace (wall_y w * GRID_WIDTH + wall_x w + GRID_WIDTH)
        with ((wall_y w + 1) * GRID_WIDTH + wall_x w) in E2 by lia.
      apply cell_split in E2 as [-> ->]; [|done..].
      apply (Hev 3 _ _ 1%Z T3); [done|done|lia|lia|]. rewrite Er. unfold slot. nia.
    + apply cell_split in E2 as [-> ->]; [|done..].
      replace (wall_y w * GRID_WIDTH + wall_x w + GRID_WIDTH)
        with ((wall_y w + 1) * GRID_WIDTH + wall_x w) in E1 by lia.
      apply cell_split in E1 as [-> ->]; [|done..].
      apply (Hev 0 _ _ (- Z.of_nat GRID_WIDTH * 2 + 1)%Z T0); [done|done|lia|nia|].
      rewrite Er. unfold slot. nia.
Qed.

(** *** The depth table *)

(** [solution_state] has [GRID_HEIGHT] rows of [GRID_WIDTH] entries. *)
Definition shaped (st : list (list nat)) : Prop :=
  length st = GRID_HEIGHT ∧ ∀ y row, st !! y = Some row → length row = GRID_WIDTH.

Lemma state_at_inside st c :
  shaped st → inside c → is_Some (state_at st c.1 c.2).
Proof.
  intros [Hl Hrow] [Hx Hy]. unfold state_at.
  destruct (lookup_lt_is_Some_2 st c.2) as [row Hr]; [lia|].
  rewrite Hr. simpl. apply lookup_lt_is_Some_2. rewrite (Hrow _ _ Hr). done.
Qed.

Lemma state_at_Some_inside st x y d :
  shaped st → state_at st x y = Some d → inside (x, y).
Proof.
  intros [Hl Hrow]. unfold state_at.
  destruct (st !! y) as [row|] eqn:Hr; [|done]. simpl. intros Hx.
  apply lookup_lt_Some in Hx. rewrite (Hrow y row Hr) in Hx.
  apply lookup_lt_Some in Hr. split; simpl; lia.
Qed.

Lemma state_at_set st x y d x' y' :
  shaped st → inside (x, y) →
  state_at (state_set st x y d) x' y'
  = if decide (x' = x ∧ y' = y) then Some d else state_at st x' y'.
Proof.
  intros [Hl Hrow] [Hx Hy]. simpl in *. unfold state_at, state_set.
  destruct (decide (y' = y)) as [->|Hne].
  - rewrite list_lookup_alter_eq.
    destruct (lookup_lt_is_Some_2 st y) as [row Hr]; [lia|].
    rewrite Hr. simpl. destruct (decide (x' = x)) as [->|Hnx].
    + rewrite list_lookup_insert_eq by (rewrite (Hrow _ _ Hr); lia).
      case_decide; [done|tauto].
    + rewrite list_lookup_insert_ne by done. case_decide; [tauto|done].
  - rewrite list_lookup_alter_ne by done. case_decide; [tauto|done].
Qed.

Lemma shaped_set st x y d : shaped st → shaped (state_set st x y d).
Proof.
  intros [Hl Hrow]. unfold state_set. split.
  - by rewrite length_alter.
  - intros y' row. destruct (decide (y' = y)) as [->|Hne].
    + rewrite list_lookup_alter_eq. destruct (st !! y) as [row0|] eqn:Hr; [|done].
      simpl. intros [= <-]. rewrite length_insert. by eapply Hrow.
    + rewrite list_lookup_alter_ne by done. apply Hrow.
Qed.

(** Number of cells whose depth is still 0. *)
Definition unvisited (st : list (list nat)) : nat :=
  sum_list ((λ row, length (filter (λ d, d = 0) row)) <$> st).

Lemma unvisited_row (row : list nat) x d :
  row !! x = Some 0 → d ≠ 0 →
  S (length (filter (λ d, d = 0) (<[x := d]> row))) = length (filter (λ d, d = 0) row).
Proof.
  revert x. induction row as [|e row IH]; intros [|x] Hx Hd; try done.
  - injection Hx as ->. change (<[0:=d]> (0 :: row)) with (d :: row).
    rewrite !filter_cons. repeat case_decide; simpl; (done || lia).
  - change (<[S x:=d]> (e :: row)) with (e :: <[x:=d]> row).
    rewrite !filter_cons. specialize (IH x Hx Hd). case_decide; simpl; lia.
Qed.

Lemma unvisited_set st x y d :
  state_at st x y = Some 0 → d ≠ 0 →
  S (unvisited (state_set st x y d)) = unvisited st.
Proof.
  unfold unvisited, state_at, state_set. revert y.
  induction st as [|row st IH]; intros [|y] Hy Hd; try done.
  - simpl in Hy. change (alter (<[x:=d]>) 0 (row :: st)) with (<[x:=d]> row :: st).
    rewrite !fmap_cons. simpl. rewrite <- (unvisited_row row x d Hy Hd). lia.
  - change (alter (<[x:=d]>) (S y) (row :: st)) with (row :: alter (<[x:=d]>) y st).
    rewrite !fmap_cons. simpl. specialize (IH y Hy Hd). lia.
Qed.

(** *** Shortest paths *)

(** [path_len walls src d c]: some chain of [d] cells, each joined to the
    next by a removed wall, leads from [src] to [c]. *)
Inductive path_len (walls : list (option wall)) (src : nat * nat)
    : nat → nat * nat → Prop :=
  | path_start : path_len walls src 1 src
  | path_step d c c' :
      path_len walls src d c → adj walls c c' → path_len walls src (S d) c'.

Lemma path_len_pos walls src d c : path_len walls src d c → 1 ≤ d.
Proof. induction 1; lia. Qed.

(** The invariant of the layered search between two calls of
    [solution_step]: the cells with a depth are exactly those reachable by a
    chain of at most [solution_depth] cells, each holds the length of a
    shortest chain, and the frontier lists the cells of the last layer. *)
Record bfs_inv (walls : list (option wall)) (src : nat * nat) (v : solving) : Prop := {
  bi_shaped : shaped (solution_state v);
  bi_sound c d :
    state_at (solution_state v) c.1 c.2 = Some d → d ≠ 0 →
    d ≤ solution_depth v ∧ path_len walls src d c;
  bi_complete c d :
    path_len walls src d c → d ≤ solution_depth v →
    ∃ d0, state_at (solution_state v) c.1 c.2 = Some d0 ∧ d0 ≠ 0 ∧ d0 ≤ d;
  bi_level c :
    c ∈ solution_level v ↔ state_at (solution_state v) c.1 c.2 = Some (solution_depth v);
  bi_depth : 1 ≤ solution_depth v
}.

(** The invariant inside the expansion of the frontier of [v0], after the
    cell and direction pairs [seen] have been looked at. *)
Record mid_inv (walls : list (option wall)) (v0 : solving)
    (seen : list ((nat * nat) * nat)) (v : solving) : Prop := {
  mi_shaped : shaped (solution_state v);
  mi_depth : solution_depth v = S (solution_depth v0);
  mi_old c d :
    state_at (solution_state v0) c.1 c.2 = Some d → d ≠ 0 →
    state_at (solution_state v) c.1 c.2 = Some d;
  mi_new c d :
    state_at (solution_state v) c.1 c.2 = Some d → d ≠ 0 →
    state_at (solution_state v0) c.1 c.2 = Some d ∨
    (d = S (solution_depth v0) ∧ state_at (solution_state v0) c.1 c.2 = Some 0 ∧
     ∃ p n, (p, n) ∈ seen ∧ door walls p.1 p.2 n = Some c);
  mi_seen p n c :
    (p, n) ∈ seen → door walls p.1 p.2 n = Some c →
    ∃ d, state_at (solution_state v) c.1 c.2 = Some d ∧ d ≠ 0;
  mi_level c :
    c ∈ solution_level v ↔
    ∃ d, state_at (solution_state v) c.1 c.2 = Some d ∧ d ≠ 0 ∧
         state_at (solution_state v0) c.1 c.2 = Some 0;
  mi_count :
    unvisited (solution_state v) + length (solution_level v)
    = unvisited (solution_state v0)
}.

(** *** One expansion of the frontier *)

Lemma door_target walls x y n c :
  door walls x y n = Some c →
  in_grid (target x y n) = true ∧
  c = (Z.to_nat (target x y n).1, Z.to_nat (target x y n).2).
Proof.
  unfold door. destruct (in_grid _); [|done].
  destruct (walldiff !! n); [|done]. destruct (wall_open _ _); [|done].
  by intros [= <-].
Qed.

Lemma in_grid_inside t :
  in_grid t = true → inside (Z.to_nat t.1, Z.to_nat t.2).
Proof.
  unfold in_grid, inside. rewrite bool_decide_eq_true. simpl. lia.
Qed.

Lemma mid_inv_skip walls v0 seen v p n :
  mid_inv walls v0 seen v →
  (∀ c, door walls p.1 p.2 n = Some c →
        ∃ d, state_at (solution_state v) c.1 c.2 = Some d ∧ d ≠ 0) →
  mid_inv walls v0 (seen ++ [(p, n)]) v.
Proof.
  intros [Hs Hd Ho Hn Hse Hl Hc] Hdoor. split; try done.
  - intros c d Hc1 Hc2. destruct (Hn c d Hc1 Hc2) as [?|(? & ? & p' & n' & Hin & ?)];
      [by left|right]. split_and!; try done. exists p', n'. split; [|done].
    apply elem_of_app. by left.
  - intros p' n' c [Hin|Hin]%elem_of_app Hdo; [by eapply Hse|].
    apply list_elem_of_singleton in Hin. simplify_eq. by apply Hdoor.
Qed.

(** The state [visit] leaves when it reaches the cell [c]. *)
Definition reached (c : nat * nat) (v : solving) : solving :=
  Solving (state_set (solution_state v) c.1 c.2 (solution_depth v))
          (solution_level v ++ [c]) (solution_depth v) (solving_time v)
          (solving_screen v
           ++ [fill_cell (Z.of_nat c.1) (Z.of_nat c.2) 0 0
                 (solution_colour (solution_depth v mod 7))]).

Lemma mid_inv_reached walls v0 seen v p n c :
  shaped (solution_state v0) → mid_inv walls v0 seen v →
  door walls p.1 p.2 n = Some c →
  state_at (solution_state v) c.1 c.2 = Some 0 →
  mid_inv walls v0 (seen ++ [(p, n)]) (reached c v).
Proof.
  intros Hs0 [Hs Hd Ho Hn Hse Hl Hc] Hdoor Hz.
  assert (Hin : inside c) by (destruct c; by eapply state_at_Some_inside).
  assert (Hget : ∀ c', state_at (solution_state (reached c v)) c'.1 c'.2
            = if decide (c' = c) then Some (solution_depth v)
              else state_at (solution_state v) c'.1 c'.2).
  { intros [x' y']. destruct c as [x y]. simpl.
    rewrite state_at_set by done. case_decide as E1; case_decide as E2; try done.
    - destruct E2. by destruct E1 as [-> ->].
    - destruct E1. by simplify_eq. }
  assert (Hz0 : state_at (solution_state v0) c.1 c.2 = Some 0).
  { destruct (state_at_inside _ c Hs0 Hin) as [d0 Hd0].
    destruct (decide (d0 = 0)) as [->|Hne]; [done|].
    rewrite (Ho c d0 Hd0 Hne) in Hz. by simplify_eq. }
  split.
  - simpl. by apply shaped_set.
  - done.
  - intros c' d Hc1 Hc2. rewrite Hget. case_decide as E; [|by apply Ho].
    subst. rewrite Hz0 in Hc1. by simplify_eq.
  - intros c' d. rewrite Hget. case_decide as E.
    + intros [= <-] _. subst. right. rewrite Hd. split_and!; try done.
      exists p, n. split; [|done]. apply elem_of_app. right. by left.
    + intros Hc1 Hc2. destruct (Hn c' d Hc1 Hc2) as [?|(? & ? & p' & n' & Hi & ?)];
        [by left|right]. split_and!; try done. exists p', n'. split; [|done].
      apply elem_of_app. by left.
  - intros p' n' c' Hi Hdo. rewrite Hget. case_decide as E.
    + exists (solution_depth v). split; [done|]. lia.
    + apply elem_of_app in Hi as [Hi|Hi]; [by eapply Hse|].
      apply list_elem_of_singleton in Hi. simplify_eq.
  - intros c'. simpl. rewrite elem_of_app, list_elem_of_singleton, Hl.
    change (state_at (state_set _ _ _ _) c'.1 c'.2)
      with (state_at (solution_state (reached c v)) c'.1 c'.2).
    rewrite Hget. case_decide as E.
    + subst. split; [|by right]. intros _. exists (solution_depth v).
      split; [done|]. split; [lia|done].
    + split; [intros [?|?]; done|]. intros ?. by left.
  - simpl. rewrite length_app. simpl.
    pose proof (unvisited_set (solution_state v) c.1 c.2 (solution_depth v) Hz) as E.
    lia.
Qed.

Lemma visit_inv walls v0 seen v p n :
  shaped (solution_state v0) → mid_inv walls v0 seen v →
  ∃ v', visit walls p.1 p.2 n v = Some v' ∧ mid_inv walls v0 (seen ++ [(p, n)]) v'.
Proof.
  intros Hs0 Hm. unfold visit.
  destruct (in_grid (target p.1 p.2 n)) eqn:Hin.
  - destruct (state_at_inside _ _ (mi_shaped _ _ _ _ Hm) (in_grid_inside _ Hin))
      as [d Hd]. cbn [fst snd] in Hd. rewrite Hd. cbn [mbind option_bind].
    case_decide as Ez.
    + subst. destruct (door walls p.1 p.2 n) as [[tx ty]|] eqn:Hdoor.
      * eexists. split; [done|].
        apply door_target in Hdoor as Ht. destruct Ht as [_ Ht].
        apply (mid_inv_reached walls v0 seen v p n (tx, ty)); try done.
        cbn [fst snd]. injection Ht as -> ->. done.
      * exists v. split; [done|]. apply mid_inv_skip; [done|].
        intros c Hc. congruence.
    + exists v. split; [done|]. apply mid_inv_skip; [done|].
      intros c Hdoor. apply door_target in Hdoor as [_ ->]. cbn [fst snd]. eauto.
  - exists v. split; [done|]. apply mid_inv_skip; [done|].
    intros c Hdoor. apply door_target in Hdoor as [? _]. congruence.
Qed.

Lemma visit_all_inv walls v0 p ns seen v :
  shaped (solution_state v0) → mid_inv walls v0 seen v →
  ∃ v' seen', for_each ns (visit walls p.1 p.2) v = Some v' ∧
    mid_inv walls v0 seen' v' ∧
    ∀ q n, (q, n) ∈ seen' ↔ (q, n) ∈ seen ∨ (q = p ∧ n ∈ ns).
Proof.
  intros Hs0. revert seen v. induction ns as [|n ns IH]; intros seen v Hm.
  - exists v, seen. split; [done|]. split; [done|]. intros q n.
    rewrite elem_of_nil. tauto.
  - cbn [for_each]. destruct (visit_inv walls v0 seen v p n Hs0 Hm) as (v1 & -> & Hm1).
    cbn [mbind option_bind].
    destruct (IH _ _ Hm1) as (v' & seen' & -> & Hm' & Hseen).
    exists v', seen'. split; [done|]. split; [done|]. intros q m.
    rewrite Hseen, elem_of_app, list_elem_of_singleton, elem_of_cons.
    split; [intros [[?|?]|[? ?]]|intros [?|[? [?|?]]]]; simplify_eq; auto.
Qed.

Lemma expand_inv walls v0 l seen v :
  shaped (solution_state v0) → mid_inv walls v0 seen v →
  ∃ v' seen', expand walls l v = Some v' ∧ mid_inv walls v0 seen' v' ∧
    ∀ q n, (q, n) ∈ seen' ↔ (q, n) ∈ seen ∨ (q ∈ l ∧ n < 4).
Proof.
  intros Hs0. unfold expand. revert seen v.
  induction l as [|p l IH]; intros seen v Hm.
  - exists v, seen. split; [done|]. split; [done|]. intros q n.
    rewrite elem_of_nil. tauto.
  - cbn [for_each].
    destruct (visit_all_inv walls v0 p (seq 0 4) seen v Hs0 Hm)
      as (v1 & seen1 & -> & Hm1 & Hseen1).
    cbn [mbind option_bind].
    destruct (IH _ _ Hm1) as (v' & seen' & -> & Hm' & Hseen).
    exists v', seen'. split; [done|]. split; [done|]. intros q n.
    rewrite Hseen, Hseen1, elem_of_cons, elem_of_seq.
    split; [intros [[?|[? ?]]|[? ?]]|intros [?|[[?|?] ?]]]; simplify_eq;
      auto with lia.
Qed.

(** The frontier of [v], re-opened for the next layer. *)
Definition next_layer (v : solving) : solving :=
  Solving (solution_state v) [] (S (solution_depth v))
          (solving_time v) (solving_screen v).

Lemma expand_bfs walls src v0 :
  walls_ok GRID_WIDTH GRID_HEIGHT walls → bfs_inv walls src v0 →
  ∃ v2, expand walls (solution_level v0) (next_layer v0) = Some v2 ∧
    bfs_inv walls src v2 ∧
    solution_depth v2 = S (solution_depth v0) ∧
    unvisited (solution_state v2) + length (solution_level v2)
    = unvisited (solution_state v0).
Proof.
  intros Hok [Hs0 Hsound Hcomp Hlev Hdep].
  assert (Hm0 : mid_inv walls v0 [] (next_layer v0)).
  { split; simpl; try done.
    - intros c d ? ?. by left.
    - intros p n c Hin. by apply elem_of_nil in Hin.
    - intros c. rewrite elem_of_nil. split; [done|].
      intros (d & ? & ? & ?). congruence. }
  destruct (expand_inv walls v0 (solution_level v0) [] _ Hs0 Hm0)
    as (v2 & seen & Hex & [Hs Hd Ho Hn Hse Hl Hc] & Hseen).
  exists v2. split; [done|]. split; [|split; [done|done]].
  assert (Hsrc : ∀ p n, (p, n) ∈ seen →
            inside p ∧ path_len walls src (solution_depth v0) p).
  { intros p n Hin. apply Hseen in Hin as [Hin|[Hin _]];
      [by apply elem_of_nil in Hin|].
    apply Hlev in Hin. split.
    - destruct p as [px py]. exact (state_at_Some_inside _ px py _ Hs0 Hin).
    - apply (Hsound p _ Hin). lia. }
  split.
  - done.
  - intros c d Hc1 Hc2. rewrite Hd.
    destruct (Hn c d Hc1 Hc2) as [Hc0|(-> & _ & p & n & Hin & Hdoor)].
    + destruct (Hsound c d Hc0 Hc2). split; [lia|done].
    + split; [done|]. destruct (Hsrc p n Hin) as [[Hpx Hpy] Hpath].
      eapply path_step; [done|].
      replace p with (p.1, p.2) at 1 by (by destruct p). by eapply door_adj.
  - intros c d Hpath Hle. rewrite Hd in Hle.
    destruct (decide (d ≤ solution_depth v0)) as [Hle0|Hgt].
    { destruct (Hcomp c d Hpath Hle0) as (d0 & ? & ? & ?). exists d0.
      split; [by apply Ho|done]. }
    assert (d = S (solution_depth v0)) as -> by lia.
    inversion Hpath as [|d' p c' Hp Hadj]; subst; [lia|].
    destruct (Hcomp p _ Hp ltac:(lia)) as (d0 & Hp0 & Hd0 & Hd0le).
    destruct (state_at_inside _ c Hs0) as [dc Hdc]; [apply (proj1 (proj2 Hadj))|].
    destruct (decide (dc = 0)) as [->|Hdcne].
    + assert (d0 = solution_depth v0) as ->.
      { destruct (decide (d0 = solution_depth v0)) as [|Hne]; [done|]. exfalso.
        destruct (Hsound p d0 Hp0 Hd0) as [_ Hp'].
        destruct (Hcomp c (S d0) (path_step _ _ _ _ _ Hp' Hadj) ltac:(lia))
          as (dc & Hdc' & ? & _). congruence. }
      destruct (adj_door walls p c Hok Hadj) as [n Hdoor].
      assert (Hin : (p, n) ∈ seen).
      { apply Hseen. right. split; [by apply Hlev|by eapply door_lt]. }
      destruct (Hse p n c Hin Hdoor) as (d2 & Hd2 & Hd2ne). exists d2.
      split; [done|]. split; [done|].
      destruct (Hn c d2 Hd2 Hd2ne) as [?|(-> & _)]; [congruence|lia].
    + exists dc. split; [by apply Ho|]. split; [done|].
      destruct (Hsound c dc Hdc Hdcne). lia.
  - intros c. rewrite Hl, Hd. split.
    + intros (d & Hc1 & Hc2 & Hc0).
      destruct (Hn c d Hc1 Hc2) as [?|(-> & _)]; [congruence|done].
    + intros Hc1. exists (S (solution_depth v0)). split; [done|]. split; [lia|].
      destruct (Hn c _ Hc1 ltac:(lia)) as [Hc0|(_ & ? & _)]; [|done].
      destruct (Hsound c _ Hc0 ltac:(lia)). lia.
  - lia.
Qed.

(** *** The first frontier *)

Lemma shaped_blank : shaped (replicate GRID_HEIGHT (replicate GRID_WIDTH 0)).
Proof.
  split; [apply length_replicate|].
  intros y row [-> _]%lookup_replicate. apply length_replicate.
Qed.

Lemma state_at_blank x y d :
  state_at (replicate GRID_HEIGHT (replicate GRID_WIDTH 0)) x y = Some d → d = 0.
Proof.
  unfold state_at. intros Hd.
  destruct (replicate GRID_HEIGHT _ !! y) as [row|] eqn:E; [|done]. simpl in Hd.
  apply lookup_replicate in E as [-> _]. by apply lookup_replicate in Hd as [-> _].
Qed.

Lemma unvisited_le st : shaped st → unvisited st ≤ GRID_WIDTH * GRID_HEIGHT.
Proof.
  intros [Hl Hrow]. rewrite <- Hl. clear Hl. unfold unvisited.
  induction st as [|row st IH]; [simpl; lia|]. rewrite fmap_cons. simpl.
  assert (length (filter (λ d, d = 0) row) ≤ GRID_WIDTH).
  { rewrite <- (Hrow 0 row eq_refl). apply length_filter. }
  specialize (IH (λ y, Hrow (S y))). lia.
Qed.

Lemma init_solution_spec walls ticks (s : state G) sx :
  start_x s = Some sx → sx < GRID_WIDTH → 0 < GRID_HEIGHT →
  ∃ v0, init_solution ticks s = Some v0 ∧ bfs_inv walls (sx, 0) v0 ∧
        unvisited (solution_state v0) < GRID_WIDTH * GRID_HEIGHT.
Proof.
  intros Hsx HW HH. unfold init_solution. rewrite Hsx. cbn [mbind option_bind].
  assert (Hin : inside (sx, 0)) by (split; simpl; lia).
  destruct (state_at_inside _ (sx, 0) shaped_blank Hin) as [d0 Hd0].
  cbn [fst snd] in Hd0. rewrite Hd0. cbn [mbind option_bind].
  pose proof (state_at_blank _ _ _ Hd0) as ->.
  eexists. split; [done|]. split.
  - split; cbn [solution_state solution_level solution_depth].
    + apply shaped_set, shaped_blank.
    + intros c d. rewrite (state_at_set _ _ _ _ _ _ shaped_blank Hin).
      case_decide as E.
      * intros [= <-] _. split; [done|]. destruct c as [cx cy], E as [E1 E2].
        simpl in E1, E2. subst. constructor.
      * intros ->%state_at_blank. done.
    + intros c d Hp Hd. pose proof (path_len_pos _ _ _ _ Hp).
      assert (d = 1) as -> by lia. exists 1.
      rewrite (state_at_set _ _ _ _ _ _ shaped_blank Hin).
      inversion Hp as [|d' p c' Hp' Hadj]; subst.
      * simpl. case_decide; [done|tauto].
      * apply path_len_pos in Hp'. lia.
    + intros c. rewrite list_elem_of_singleton.
      rewrite (state_at_set _ _ _ _ _ _ shaped_blank Hin).
      case_decide as E.
      * destruct c as [cx cy], E as [E1 E2]. simpl in E1, E2. by subst.
      * split; [intros ->; simpl in E; tauto|]. by intros ?%state_at_blank.
    + lia.
  - cbn [solution_state].
    pose proof (unvisited_set _ sx 0 1 Hd0 ltac:(lia)).
    pose proof (unvisited_le _ shaped_blank). lia.
Qed.

(** *** Reachable cells are marked *)

(** When a frontier comes out empty, every cell that a chain of removed
    walls joins to the entrance carries a depth. *)
Lemma bfs_exhausted walls src v :
  bfs_inv walls src v → solution_level v = [] →
  ∀ d c, path_len walls src d c →
         ∃ d0, state_at (solution_state v) c.1 c.2 = Some d0 ∧ d0 ≠ 0.
Proof.
  intros [Hs Hsound Hcomp Hlev Hdep] Hnil d c Hp.
  induction Hp as [|d p c Hp IH Hadj].
  - destruct (Hcomp src 1 (path_start _ _) Hdep) as (d0 & ? & ? & _). by exists d0.
  - destruct IH as (d0 & Hp0 & Hd0). destruct (Hsound p d0 Hp0 Hd0) as [Hle Hp'].
    assert (d0 ≠ solution_depth v).
    { intros ->. apply Hlev in Hp0. rewrite Hnil in Hp0. by apply elem_of_nil in Hp0. }
    destruct (Hcomp c (S d0) (path_step _ _ _ _ _ Hp' Hadj) ltac:(lia))
      as (dc & ? & ? & _). by exists dc.
Qed.

Lemma passage_cells walls a b :
  walls_ok GRID_WIDTH GRID_HEIGHT walls → passage GRID_WIDTH walls a b →
  ∃ c c', inside c ∧ inside c' ∧ a = cell_of c ∧ b = cell_of c'.
Proof.
  intros Hok (r & w & Hw & _ & Hcase).
  destruct (wo_wall _ _ _ Hok _ _ Hw) as (_ & (Hx & Hy & Hd) & _).
  assert (Hcells : ∃ c c', inside c ∧ inside c' ∧
            cell_index1 GRID_WIDTH w = cell_of c ∧ cell_index2 GRID_WIDTH w = cell_of c').
  { unfold cell_index2, cell_index1, cell_of, inside. destruct (wall_dr w).
    - exists (wall_x w, wall_y w), (wall_x w + 1, wall_y w). simpl. lia.
    - exists (wall_x w, wall_y w), (wall_x w, wall_y w + 1). simpl. lia. }
  destruct Hcells as (c & c' & ? & ? & E1 & E2).
  destruct Hcase as [[-> ->]|[-> ->]]; [exists c, c'|exists c', c]; done.
Qed.

Lemma cell_of_inj c c' : inside c → inside c' → cell_of c = cell_of c' → c = c'.
Proof.
  intros [Hx _] [Hx' _] E. destruct c as [x y], c' as [x' y'].
  unfold cell_of in E. simpl in *.
  destruct (cell_split x y x' y' Hx Hx' E) as [-> ->]. done.
Qed.

Lemma connected_path walls src a b :
  walls_ok GRID_WIDTH GRID_HEIGHT walls → connected GRID_WIDTH walls a b →
  ∀ ca d, inside ca → cell_of ca = a → path_len walls src d ca →
  ∀ cb, inside cb → cell_of cb = b → ∃ d', path_len walls src d' cb.
Proof.
  intros Hok Hconn. induction Hconn as [a|a b c Hab Hbc IH];
    intros ca d Hca Ea Hp cb Hcb Eb.
  - exists d. rewrite <- (cell_of_inj ca cb); [done..|congruence].
  - destruct (passage_cells walls a b Hok Hab) as (c1 & c2 & Hc1 & Hc2 & -> & ->).
    apply cell_of_inj in Ea; [|done..]. subst c1.
    apply (IH c2 (S d)); [done|done| |done|done].
    eapply path_step; [done|]. by split_and!.
Qed.

(** *** The backtrace *)

(** [descent walls st d path]: the depths along [path] count down from [d]
    to 1, one per cell, and a removed wall joins each cell to the next. *)
Inductive descent (walls : list (option wall)) (st : list (list nat))
    : nat → list (nat * nat) → Prop :=
  | descent_end c : state_at st c.1 c.2 = Some 1 → descent walls st 1 [c]
  | descent_step d c c' rest :
      state_at st c.1 c.2 = Some (S d) → adj walls c c' →
      descent walls st d (c' :: rest) → descent walls st (S d) (c :: c' :: rest).

Lemma descent_length walls st d path : descent walls st d path → length path = d.
Proof. induction 1; simpl in *; lia. Qed.

Lemma descent_depth walls st d path i c :
  descent walls st d path → path !! i = Some c →
  state_at st c.1 c.2 = Some (d - i) ∧ i < d.
Proof.
  intros Hd. revert i. induction Hd as [c0 Hc0|d c0 c' rest Hc0 Hadj Hd IH]; intros i Hi.
  - destruct i as [|i]; [|done]. injection Hi as <-. split; [done|lia].
  - destruct i as [|i].
    + injection Hi as <-. split; [by rewrite Nat.sub_0_r|lia].
    + destruct (IH i Hi) as [E Hlt]. split; [|lia].
      by replace (S d - S i) with (d - i) by lia.
Qed.

Lemma descent_adj walls st d path i a b :
  descent walls st d path → path !! i = Some a → path !! S i = Some b →
  adj walls a b.
Proof.
  intros Hd. revert i. induction Hd as [c0 Hc0|d c0 c' rest Hc0 Hadj Hd IH];
    intros i Ha Hb; [done|].
  destruct i as [|i].
  - injection Ha as <-. injection Hb as <-. done.
  - by apply (IH i).
Qed.

Lemma descent_NoDup walls st d path : descent walls st d path → NoDup path.
Proof.
  intros Hd. apply NoDup_alt. intros i j c Hi Hj.
  destruct (descent_depth _ _ _ _ _ _ Hd Hi) as [Ei ?].
  destruct (descent_depth _ _ _ _ _ _ Hd Hj) as [Ej ?].
  rewrite Ei in Ej. injection Ej. lia.
Qed.

Lemma descent_last walls st d path :
  descent walls st d path →
  ∃ c, list.last path = Some c ∧ state_at st c.1 c.2 = Some 1.
Proof.
  induction 1 as [c Hc|d c c' rest Hc Hadj Hd IH]; [by exists c|].
  destruct IH as (c0 & Hl & Hc0). exists c0. split; [|done].
  by rewrite last_cons, Hl.
Qed.

Lemma find_lower_spec walls st d x y ns :
  shaped st →
  (∃ c n d', find_lower walls st d x y ns = Some (Some c) ∧ n ∈ ns ∧
             door walls x y n = Some c ∧
             state_at st c.1 c.2 = Some d' ∧ d' ≠ 0 ∧ d' < d) ∨
  (find_lower walls st d x y ns = Some None ∧
   ∀ n c d', n ∈ ns → door walls x y n = Some c →
             state_at st c.1 c.2 = Some d' → d' ≠ 0 → d' < d → False).
Proof.
  intros Hs. induction ns as [|n ns IH].
  { right. split; [done|]. intros n c d' Hin. by apply elem_of_nil in Hin. }
  assert (Hskip :
    (∀ c d', door walls x y n = Some c → state_at st c.1 c.2 = Some d' →
             d' ≠ 0 → d' < d → False) →
    (∃ c m d', find_lower walls st d x y ns = Some (Some c) ∧ m ∈ n :: ns ∧
               door walls x y m = Some c ∧
               state_at st c.1 c.2 = Some d' ∧ d' ≠ 0 ∧ d' < d) ∨
    (find_lower walls st d x y ns = Some None ∧
     ∀ m c d', m ∈ n :: ns → door walls x y m = Some c →
               state_at st c.1 c.2 = Some d' → d' ≠ 0 → d' < d → False)).
  { intros Hn. destruct IH as [(c & m & d' & ? & ? & ?)|[? Hno]].
    - left. exists c, m, d'. split; [done|]. split; [by right|done].
    - right. split; [done|]. intros m c d' [->|Hin]%elem_of_cons.
      + apply Hn.
      + by apply Hno. }
  cbn [find_lower]. destruct (in_grid (target x y n)) eqn:Hg.
  - destruct (state_at_inside st _ Hs (in_grid_inside _ Hg)) as [d' Hd'].
    cbn [fst snd] in Hd'. rewrite Hd'. cbn [mbind option_bind].
    case_bool_decide as Hlow.
    + destruct (door walls x y n) as [c|] eqn:Hdoor.
      * left. exists c, n, d'. destruct (door_target _ _ _ _ _ Hdoor) as [_ ->].
        cbn [fst snd]. split; [done|]. split; [left|]. split; [done|].
        split; [done|tauto].
      * apply Hskip. intros c d0 ?. done.
    + apply Hskip. intros c d0 Hdoor. destruct (door_target _ _ _ _ _ Hdoor) as [_ ->].
      cbn [fst snd]. rewrite Hd'. intros [= <-] ? ?. tauto.
  - apply Hskip. intros c d0 Hdoor. destruct (door_target _ _ _ _ _ Hdoor) as [Hg' _].
    congruence.
Qed.

Lemma backtrace_spec walls src v :
  walls_ok GRID_WIDTH GRID_HEIGHT walls → bfs_inv walls src v →
  ∀ fuel d c, state_at (solution_state v) c.1 c.2 = Some d → d ≠ 0 → d ≤ fuel →
  ∃ path, backtrace fuel walls (solution_state v) c.1 c.2 = Some path ∧
          descent walls (solution_state v) d path ∧ head path = Some c.
Proof.
  intros Hok [Hs Hsound Hcomp Hlev Hdep].
  induction fuel as [|fuel IH]; intros d c Hc Hd Hfuel; [lia|].
  cbn [backtrace]. rewrite Hc. cbn [mbind option_bind].
  destruct (Hsound c d Hc Hd) as [HdD Hpath].
  assert (Hin : inside c).
  { destruct c as [x y]. by eapply state_at_Some_inside. }
  destruct (find_lower_spec walls (solution_state v) d c.1 c.2 (seq 0 4) Hs)
    as [(c' & n & d' & -> & _ & Hdoor & Hc' & Hd' & Hlt)|[-> Hno]];
    cbn [mbind option_bind].
  - assert (Hadj : adj walls c c').
    { replace c with (c.1, c.2) by (by destruct c).
      eapply door_adj; [done|apply Hin|apply Hin|done]. }
    destruct (Hsound c' d' Hc' Hd') as [_ Hpath'].
    assert (d = S d') as ->.
    { destruct (Hcomp c (S d') (path_step _ _ _ _ _ Hpath' (adj_sym _ _ _ Hadj))
                  ltac:(lia)) as (d0 & Hc0 & _ & Hle).
      rewrite Hc in Hc0. injection Hc0 as <-. lia. }
    destruct (IH d' c' Hc' Hd' ltac:(lia)) as (rest & Hrest & Hdesc & Hhead).
    destruct c' as [tx ty]. cbn [fst snd] in Hrest. rewrite Hrest.
    cbn [mbind option_bind]. exists (c :: rest).
    split; [by destruct c|]. split; [|done].
    destruct rest as [|c1 rest]; [done|]. injection Hhead as ->.
    by apply descent_step.
  - assert (d = 1) as ->.
    { destruct (decide (d = 1)) as [|Hne]; [done|]. exfalso.
      inversion Hpath as [|d0 p c0 Hp Hadj]; subst; [done|].
      destruct (Hcomp p d0 Hp ltac:(lia)) as (dp & Hp0 & Hdp & Hdple).
      destruct (adj_door walls c p Hok (adj_sym _ _ _ Hadj)) as [n Hdoor].
      apply (Hno n p dp); [|done|done|done|lia].
      apply elem_of_seq. pose proof (door_lt _ _ _ _ _ Hdoor). lia. }
    exists [c]. split; [by destruct c|]. split; [|done]. by apply descent_end.
Qed.

(** *** One call of [solution_step], and the loop *)

(** The backtrace ran: the exit carries a depth, and the cells painted last
    descend from it. *)
Definition traced (walls : list (option wall)) (fx : nat) (v : solving)
    (path : list (nat * nat)) : Prop :=
  ∃ d drawn,
    state_at (solution_state v) fx (GRID_HEIGHT - 1) = Some d ∧ d ≠ 0 ∧
    descent walls (solution_state v) d path ∧
    head path = Some (fx, GRID_HEIGHT - 1) ∧
    solving_screen v = drawn ++ (path_fill <$> path).

(** The search gave up: the frontier is empty and the exit has no depth. *)
Definition stuck (fx : nat) (v : solving) : Prop :=
  state_at (solution_state v) fx (GRID_HEIGHT - 1) = Some 0 ∧ solution_level v = [].

Lemma solution_step_spec (s : state G) src fx v :
  walls_ok GRID_WIDTH GRID_HEIGHT (walls_by_index s) →
  finish_x s = Some fx → fx < GRID_WIDTH → 0 < GRID_HEIGHT →
  bfs_inv (walls_by_index s) src v →
  ∃ more v', solution_step s v = Some (more, v') ∧
    bfs_inv (walls_by_index s) src v' ∧
    if (more : bool) then unvisited (solution_state v') < unvisited (solution_state v)
    else stuck fx v' ∨ ∃ path, traced (walls_by_index s) fx v' path.
Proof.
  intros Hok Hfx HW HH Hinv.
  destruct (expand_bfs _ _ _ Hok Hinv) as (v2 & Hex & Hinv2 & Hdepth & Hcount).
  unfold next_layer in Hex. unfold solution_step. cbv zeta. rewrite Hex, Hfx.
  cbn [mbind option_bind solution_state solution_level solution_depth solving_screen].
  assert (Hexit : inside (fx, GRID_HEIGHT - 1)) by (split; simpl; lia).
  destruct (state_at_inside _ _ (bi_shaped _ _ _ Hinv2) Hexit) as [d Hd].
  cbn [fst snd] in Hd. rewrite Hd. cbn [mbind option_bind].
  set (time := (solving_time v2 + _)%Q).
  assert (Hinv3 : ∀ scr, bfs_inv (walls_by_index s) src
            (Solving (solution_state v2) (solution_level v2) (solution_depth v2) time scr)).
  { intros scr. destruct Hinv2. by split. }
  case_decide as Hd0.
  - subst d. eexists _, _. split; [done|]. split; [apply Hinv3|].
    case_bool_decide as Hlevel; cbn [solution_state solution_level].
    + destruct (solution_level v2); [done|]. simpl in Hcount. lia.
    + left. split; [done|]. by destruct (solution_level v2).
  - destruct (backtrace_spec _ _ _ Hok Hinv2 d d (fx, GRID_HEIGHT - 1) Hd Hd0 ltac:(lia))
      as (path & Hpath & Hdesc & Hhead).
    cbn [fst snd] in Hpath. rewrite Hpath. cbn [mbind option_bind].
    eexists _, _. split; [done|]. split; [apply Hinv3|].
    right. exists path, d, (solving_screen v2). done.
Qed.

Lemma solve_spec (s : state G) src fx :
  walls_ok GRID_WIDTH GRID_HEIGHT (walls_by_index s) →
  finish_x s = Some fx → fx < GRID_WIDTH → 0 < GRID_HEIGHT →
  ∀ fuel v, bfs_inv (walls_by_index s) src v →
    unvisited (solution_state v) < fuel →
    ∃ v', solve fuel s v = Some v' ∧ bfs_inv (walls_by_index s) src v' ∧
          (stuck fx v' ∨ ∃ path, traced (walls_by_index s) fx v' path).
Proof.
  intros Hok Hfx HW HH. induction fuel as [|fuel IH]; intros v Hinv Hfuel; [lia|].
  cbn [solve].
  destruct (solution_step_spec s src fx v Hok Hfx HW HH Hinv)
    as (more & v' & -> & Hinv' & Hmore).
  cbn [mbind option_bind]. destruct more.
  - apply IH; [done|lia].
  - by exists v'.
Qed.

(** A maze whose entrance and exit are joined by removed walls is solved:
    the loop ends, the depths it leaves are exact, and the cells it paints
    last lead from the exit down to the entrance. *)
Lemma solve_connected ticks (s : state G) sx fx :
  walls_ok GRID_WIDTH GRID_HEIGHT (walls_by_index s) →
  start_x s = Some sx → finish_x s = Some fx →
  sx < GRID_WIDTH → fx < GRID_WIDTH → 0 < GRID_HEIGHT →
  connected GRID_WIDTH (walls_by_index s)
            (cell_of (sx, 0)) (cell_of (fx, GRID_HEIGHT - 1)) →
  ∃ v0 v path,
    init_solution ticks s = Some v0 ∧
    solve (GRID_WIDTH * GRID_HEIGHT) s v0 = Some v ∧
    bfs_inv (walls_by_index s) (sx, 0) v ∧
    traced (walls_by_index s) fx v path.
Proof.
  intros Hok Hsx Hfx HWs HWf HH Hconn.
  destruct (init_solution_spec (walls_by_index s) ticks s sx Hsx HWs HH)
    as (v0 & Hinit & Hinv0 & Hun).
  destruct (solve_spec s (sx, 0) fx Hok Hfx HWf HH _ v0 Hinv0 Hun)
    as (v & Hsolve & Hinv & [[Hzero Hnil]|[path Htr]]).
  - exfalso.
    destruct (connected_path _ (sx, 0) _ _ Hok Hconn (sx, 0) 1) with
      (cb := (fx, GRID_HEIGHT - 1)) as [d Hp];
      [split; simpl; lia | done | constructor | split; simpl; lia | done |].
    destruct (bfs_exhausted _ _ _ Hinv Hnil d _ Hp) as (d0 & Hd0 & Hne).
    cbn [fst snd] in Hd0. congruence.
  - by exists v0, v, path.
Qed.

(** The depths of a table that satisfies the invariant are exact. *)
Lemma bfs_inv_exact walls src v c d :
  bfs_inv walls src v → state_at (solution_state v) c.1 c.2 = Some d → d ≠ 0 →
  path_len walls src d c ∧ ∀ d', path_len walls src d' c → d ≤ d'.
Proof.
  intros [Hs Hsound Hcomp Hlev Hdep] Hc Hd.
  destruct (Hsound c d Hc Hd) as [Hle Hp]. split; [done|]. intros d' Hp'.
  destruct (decide (d ≤ d')) as [|Hlt]; [done|].
  destruct (Hcomp c d' Hp' ltac:(lia)) as (d0 & Hc0 & _ & Hle0).
  rewrite Hc in Hc0. injection Hc0 as <-. done.
Qed.

Lemma bfs_inv_source walls src v c :
  bfs_inv walls src v → state_at (solution_state v) c.1 c.2 = Some 1 → c = src.
Proof.
  intros Hinv Hc. destruct (bi_sound _ _ _ Hinv c 1 Hc ltac:(lia)) as [_ Hp].
  inversion Hp as [|d p c' Hp' Hadj]; subst; [done|].
  apply path_len_pos in Hp'. lia.
Qed.

Lemma bfs_inv_seed walls src v :
  bfs_inv walls src v → state_at (solution_state v) src.1 src.2 = Some 1.
Proof.
  intros Hinv.
  destruct (bi_complete _ _ _ Hinv src 1 (path_start _ _) (bi_depth _ _ _ Hinv))
    as (d0 & Hc & ? & ?).
  by replace d0 with 1 in Hc by lia.
Qed.

End Solver.

(** ** The solver on a generated maze *)

Section Solved.
Context {G : Type} `{RandomSource G} `{MathPow}.
Variables (GRID_WIDTH GRID_HEIGHT : nat).

(** C3. On a grid with at least one row and one column, once [step]
    reports that no wall is left, [init_solution] followed by
    [solution_step] until it answers [False] ends within [W * H] calls.
    The entrance has depth 1; every cell that has a depth [d] is the end of
    a chain of [d] cells from the entrance, each joined to the next by a
    removed wall, and of no shorter such chain.  The cells painted last are
    the backtraced path: it starts at the exit and ends at the entrance,
    consecutive cells are joined by a removed wall, it has as many cells as
    the depth of the exit, and no cell occurs twice. *)
Theorem solver_traces_shortest_path ticks ticks' (s0 s1 s2 : state G) (n : nat) :
  0 < GRID_WIDTH → 0 < GRID_HEIGHT →
  init GRID_WIDTH GRID_HEIGHT ticks s0 = Some s1 →
  steps GRID_WIDTH GRID_HEIGHT n s1 = Some s2 →
  fst <$> step GRID_WIDTH GRID_HEIGHT s2 = Some false →
  ∃ sx fx v0 v path drawn,
    start_x s2 = Some sx ∧ finish_x s2 = Some fx ∧
    init_solution GRID_WIDTH GRID_HEIGHT ticks' s2 = Some v0 ∧
    solve GRID_WIDTH GRID_HEIGHT (GRID_WIDTH * GRID_HEIGHT) s2 v0 = Some v ∧
    state_at (solution_state v) sx 0 = Some 1 ∧
    (∀ c d, state_at (solution_state v) c.1 c.2 = Some d → d ≠ 0 →
            path_len GRID_WIDTH GRID_HEIGHT (walls_by_index s2) (sx, 0) d c ∧
            ∀ d', path_len GRID_WIDTH GRID_HEIGHT (walls_by_index s2) (sx, 0) d' c →
                  d ≤ d') ∧
    solving_screen v = drawn ++ (path_fill <$> path) ∧
    head path = Some (fx, GRID_HEIGHT - 1) ∧
    list.last path = Some (sx, 0) ∧
    state_at (solution_state v) fx (GRID_HEIGHT - 1) = Some (length path) ∧
    (∀ i a b, path !! i = Some a → path !! S i = Some b →
              adj GRID_WIDTH GRID_HEIGHT (walls_by_index s2) a b) ∧
    NoDup path.
Proof.
  intros HW HH Hinit Hsteps Hdone.
  destruct (init_spec GRID_WIDTH GRID_HEIGHT ticks s0 HW)
    as (s1' & Hinit' & Hinv1 & _ & _ & (sx & Hsx & Hsxlt) & (fx & Hfx & Hfxlt)).
  rewrite Hinit in Hinit'. simplify_eq.
  destruct (steps_inv _ _ _ _ _ Hinv1 Hsteps) as [Hinv2 _].
  destruct (steps_ends _ _ _ _ _ Hsteps) as [Es Ef].
  rewrite Hsx in Es. rewrite Hfx in Ef.
  destruct (step_inv _ _ s2 Hinv2) as [[_ Hempty]|(s' & E & _)];
    [|by rewrite E in Hdone].
  assert (Hconn : connected GRID_WIDTH (walls_by_index s2)
            (cell_of GRID_WIDTH (sx, 0)) (cell_of GRID_WIDTH (fx, GRID_HEIGHT - 1))).
  { assert (cell_of GRID_WIDTH (sx, 0) < GRID_WIDTH * GRID_HEIGHT)
      by (unfold cell_of; simpl; nia).
    assert (cell_of GRID_WIDTH (fx, GRID_HEIGHT - 1) < GRID_WIDTH * GRID_HEIGHT)
      by (unfold cell_of; simpl; nia).
    apply (gi_connected _ _ _ _ Hinv2); [done..|].
    by apply (all_cells_same _ _ s2 Hinv2 Hempty). }
  destruct (solve_connected GRID_WIDTH GRID_HEIGHT ticks' s2 sx fx
              (gi_walls _ _ _ _ Hinv2) Es Ef Hsxlt Hfxlt HH Hconn)
    as (v0 & v & path & Hv0 & Hv & Hbfs & d & drawn & Hd & Hd0 & Hdesc & Hhead & Hscr).
  exists sx, fx, v0, v, path, drawn.
  split; [done|]. split; [done|]. split; [done|]. split; [done|].
  split; [apply (bfs_inv_seed _ _ _ _ _ Hbfs)|].
  split; [intros c d'; by apply bfs_inv_exact|].
  split; [done|]. split; [done|]. split.
  { destruct (descent_last _ _ _ _ _ _ Hdesc) as (c & Hlast & Hc).
    by rewrite <- (bfs_inv_source _ _ _ _ _ c Hbfs Hc). }
  split; [by rewrite (descent_length _ _ _ _ _ _ Hdesc)|].
  split; [intros i a b; by eapply descent_adj|].
  by eapply descent_NoDup.
Qed.

End Solved.

(** ** A concrete random source and weight table for running the model *)

Definition lcg_next (g : N) : N := ((g * 1103515245 + 12345) mod 2147483648)%N.

#[export] Program Instance lcg_source : RandomSource N := {|
  randrange n g := (N.to_nat (lcg_next g / 65536) mod n, lcg_next g);
  random g := (Z.of_N (lcg_next g) # 2147483648, lcg_next g)
|}.
Next Obligation. intros n g Hn. simpl. apply Nat.mod_upper_bound. lia. Qed.
Next Obligation. intros g. unfold Qle. simpl. lia. Qed.
Next Obligation.
  intros g. unfold Qlt. simpl. unfold lcg_next.
  pose proof (N.mod_upper_bound (g * 1103515245 + 12345) 2147483648). lia.
Qed.

(** A rational stand-in for [2 ** (w / 2)]. *)
Definition pow_half_approx (w : nat) : Q :=
  (inject_Z (2 ^ Z.of_nat (w / 2)) * (if Nat.odd w then 99 # 70 else 1))%Q.

Lemma pow_half_approx_pos (w : nat) : (0 < pow_half_approx w)%Q.
Proof.
  unfold pow_half_approx. apply Qmult_lt_0_compat.
  - change 0%Q with (inject_Z 0). rewrite <- Zlt_Qlt.
    apply Z.pow_pos_nonneg; lia.
  - by destruct (Nat.odd w).
Qed.

#[export] Instance approx_pow : MathPow := {|
  pow_half := pow_half_approx;
  pow_half_pos := pow_half_approx_pos
|}.

Definition blank (seed : N) : state N :=
  State [] (replicate 9 []) [] None None 0 seed [].

(** ** The wall classifier *)

(** C2, at the input where the script departs from its docstring: of the
    three walls only the second one is removed, so exactly one of them is,
    and [get_wall_end_type] answers 0, not 1. *)
Theorem end_type_second_wall_alone :
  removed_among (Some (Wall 0 1 true 0 false)) (Some (Wall 1 0 false 0 true))
                (Some (Wall 1 1 true 0 false)) = 1
  ∧ get_wall_end_type (Some (Wall 0 1 true 0 false)) (Some (Wall 1 0 false 0 true))
                      (Some (Wall 1 1 true 0 false)) = 0.
Proof. split; reflexivity. Qed.

(** ** The neighbour tables of the two scripts *)

(** The two tables agree on every vertical wall, and on the last three
    neighbours of a horizontal wall. *)
Lemma neighbour_tables_agree W H (walls : list (option wall)) (w : wall) (n : nat) :
  n < 6 → wall_dr w = false ∨ 3 ≤ n →
  getNeighbour W H walls w n = get_neighbour W H walls w n.
Proof.
  intros Hn Hc. unfold getNeighbour, get_neighbour, offsets_weighted_kruskal.
  destruct (wall_dr w).
  - destruct Hc as [|Hc]; [done|].
    do 6 (destruct n as [|n]; [try lia; reflexivity|]). lia.
  - do 6 (destruct n as [|n]; [reflexivity|]). lia.
Qed.

(** The walls of a 3 by 3 grid as [init] leaves them. *)
Definition walls_3x3 : list (option wall) :=
  [Some (Wall 0 0 true 0 false); Some (Wall 0 0 false 0 false);
   Some (Wall 1 0 true 0 false); Some (Wall 1 0 false 0 false);
   None; Some (Wall 2 0 false 0 false);
   Some (Wall 0 1 true 0 false); Some (Wall 0 1 false 0 false);
   Some (Wall 1 1 true 0 false); Some (Wall 1 1 false 0 false);
   None; Some (Wall 2 1 false 0 false);
   Some (Wall 0 2 true 0 false); None;
   Some (Wall 1 2 true 0 false); None;
   None; None].

Lemma walls_3x3_init :
  walls_by_index <$> init 3 3 0 (blank 1) = Some walls_3x3.
Proof. vm_compute. reflexivity. Qed.

(** C6, at an input where the two scripts part: for the horizontal wall at
    (1, 1) of a 3 by 3 grid and neighbour 0, [get_neighbour] designates the
    vertical wall at (1, 0), slot 3, and [getNeighbour] the vertical wall at
    (0, 1), slot 7. *)
Theorem neighbour_tables_differ :
  get_neighbour 3 3 walls_3x3 (Wall 1 1 true 0 false) 0 = Some (Some 3)
  ∧ deref walls_3x3 3 = Some (Wall 1 0 false 0 false)
  ∧ getNeighbour 3 3 walls_3x3 (Wall 1 1 true 0 false) 0 = Some (Some 7)
  ∧ deref walls_3x3 7 = Some (Wall 0 1 false 0 false).
Proof. repeat split; reflexivity. Qed.

(** ** A run on a 3 by 3 grid *)

(** The state after [init], after 17 calls of [step], and after the 32
    calls that answer [True]. *)
Definition start_3x3 : state N :=
  Eval vm_compute in default (blank 0) (init 3 3 0 (blank 7)).

Definition stale_3x3 : state N :=
  Eval vm_compute in
    default (blank 0) (init 3 3 0 (blank 7) ≫= steps 3 3 17).

Definition final_3x3 : state N :=
  Eval vm_compute in
    default (blank 0) (init 3 3 0 (blank 7) ≫= steps 3 3 32).

Lemma start_3x3_eq : init 3 3 0 (blank 7) = Some start_3x3.
Proof. vm_compute. reflexivity. Qed.

Lemma stale_3x3_eq : steps 3 3 17 start_3x3 = Some stale_3x3.
Proof. vm_compute. reflexivity. Qed.

Lemma final_3x3_eq : steps 3 3 15 stale_3x3 = Some final_3x3.
Proof. vm_compute. reflexivity. Qed.

Lemma generation_spans_grid_witness :
  (∀ a b, a < 3 * 3 → b < 3 * 3 →
          UF.same (union_find final_3x3) a b ∧
          connected 3 (walls_by_index final_3x3) a b) ∧
  removed_count (walls_by_index final_3x3) = 3 * 3 - 1.
Proof.
  apply (generation_spans_grid 3 3
           0 (blank 7) start_3x3 final_3x3 32).
  - lia.
  - lia.
  - vm_compute. reflexivity.
  - vm_compute. reflexivity.
  - vm_compute. reflexivity.
Defined.

Lemma solver_traces_shortest_path_witness :
  ∃ sx fx v0 v path drawn,
    start_x final_3x3 = Some sx ∧ finish_x final_3x3 = Some fx ∧
    init_solution 3 3 0 final_3x3 = Some v0 ∧
    solve 3 3 (3 * 3) final_3x3 v0 = Some v ∧
    state_at (solution_state v) sx 0 = Some 1 ∧
    (∀ c d, state_at (solution_state v) c.1 c.2 = Some d → d ≠ 0 →
            path_len 3 3 (walls_by_index final_3x3) (sx, 0) d c ∧
            ∀ d', path_len 3 3 (walls_by_index final_3x3) (sx, 0) d' c → d ≤ d') ∧
    solving_screen v = drawn ++ (path_fill <$> path) ∧
    head path = Some (fx, 3 - 1) ∧
    list.last path = Some (sx, 0) ∧
    state_at (solution_state v) fx (3 - 1) = Some (length path) ∧
    (∀ i a b, path !! i = Some a → path !! S i = Some b →
              adj 3 3 (walls_by_index final_3x3) a b) ∧
    NoDup path.
Proof.
  apply (solver_traces_shortest_path 3 3 0 0 (blank 7) start_3x3 final_3x3 32).
  - lia.
  - lia.
  - vm_compute. reflexivity.
  - vm_compute. reflexivity.
  - vm_compute. reflexivity.
Defined.


Lemma removed_or_stale_is_discarded_witness :
  deref (walls_by_index stale_3x3) 1 = Some (Wall 0 0 false 1 true) ∧
  try_wall 3 3 1 stale_3x3 = Some (false, stale_3x3) ∧
  step 3 3 stale_3x3
  = Some (true, popped 0 [] (random (rng stale_3x3)).2 stale_3x3).
Proof.
  destruct (removed_or_stale_is_discarded 3 3 stale_3x3 1
              (Wall 0 0 false 1 true) eq_refl) as [Htry Hstep].
  split; [reflexivity|]. split.
  - apply Htry. reflexivity.
  - apply Hstep.
    + vm_compute. reflexivity.
    + vm_compute. reflexivity.
    + right. reflexivity.
Defined.

Lemma wall_type_never_decreases_witness :
  init 3 3 0 (blank 7) = Some start_3x3 ∧
  steps 3 3 17 start_3x3 = Some stale_3x3 ∧
  walls_le (walls_by_index stale_3x3) (walls_by_index final_3x3).
Proof.
  split; [vm_compute; reflexivity|]. split; [vm_compute; reflexivity|].
  apply (proj1 (wall_type_never_decreases 3 3
                  0 (blank 7) start_3x3 stale_3x3 17 ltac:(lia)
                  ltac:(vm_compute; reflexivity) ltac:(vm_compute; reflexivity))
           15 final_3x3).
  vm_compute. reflexivity.
Defined.

(** A state with leftovers of an earlier run, and the same seed as
    [blank 7]. *)
Definition littered : state N :=
  State [-2; 0]%Z [[4; 1]; []] [Some (Wall 0 0 true 3 true)] (Some 5) None 42 7%N
        [screen_fill WHITE].

Definition littered_17 : state N :=
  Eval vm_compute in
    default (blank 0) (init 3 3 0 littered ≫= steps 3 3 17).

Lemma generation_is_deterministic_witness :
  ∃ b', init 3 3 1000 (blank 7) ≫= steps 3 3 17 = Some b' ∧
    start_x littered_17 = start_x b' ∧ finish_x littered_17 = finish_x b' ∧
    wall_queues littered_17 = wall_queues b' ∧
    walls_by_index littered_17 = walls_by_index b' ∧
    union_find littered_17 = union_find b' ∧ rng littered_17 = rng b' ∧
    ∃ drawn, screen littered_17 = screen littered ++ drawn ∧
             screen b' = screen (blank 7) ++ drawn.
Proof.
  apply (generation_is_deterministic 3 3 0 1000 littered (blank 7)
           littered_17 17).
  - reflexivity.
  - vm_compute. reflexivity.
Defined.

(** * Further properties of the scripts *)

(** ** The rectangles of [fill_cell] *)

(** [pygame.Rect(left, top, width, height)] *)
Record rect := Rect {
  rect_left : Z;
  rect_top : Z;
  rect_width : Z;
  rect_height : Z
}.

Section Canvas.

Local Open Scope Z_scope.

(** [CANVAS_WIDTH], [CANVAS_HEIGHT], [WALL_WIDTH], [GRID_WIDTH] and
    [GRID_HEIGHT]. *)
Variables (CANVAS_WIDTH CANVAS_HEIGHT WALL_WIDTH GRID_WIDTH GRID_HEIGHT : Z).

(** The rectangle that [fill_cell(x, y, wx, wy, colour, screen)] hands to
    [pygame.draw.rect]; [None] is the [ZeroDivisionError] of a grid without
    columns or rows.  [math.floor(a / b)] on integers is the floor
    division [a / b] of [Z]; [>>] and [&] are those of Python's unbounded
    integers. *)
Definition fill_cell_rect (x y wx wy : Z) : option rect :=
  let wx := wx + 1 in
  let wy := wy + 1 in
  let x := x + Z.shiftr wx 1 in
  let wx := Z.land wx 1 in
  let y := y + Z.shiftr wy 1 in
  let wy := Z.land wy 1 in
  if decide (GRID_WIDTH = 0) then None
  else
    let '(x_coord, ex) :=
      if decide (wx ≠ 0) then
        (x * (CANVAS_WIDTH - WALL_WIDTH) / GRID_WIDTH + WALL_WIDTH,
         (x + 1) * (CANVAS_WIDTH - WALL_WIDTH) / GRID_WIDTH)
      else
        (x * (CANVAS_WIDTH - WALL_WIDTH) / GRID_WIDTH,
         x * (CANVAS_WIDTH - WALL_WIDTH) / GRID_WIDTH + WALL_WIDTH) in
    if decide (GRID_HEIGHT = 0) then None
    else
      let '(y_coord, ey) :=
        if decide (wy ≠ 0) then
          (y * (CANVAS_HEIGHT - WALL_WIDTH) / GRID_HEIGHT + WALL_WIDTH,
           (y + 1) * (CANVAS_HEIGHT - WALL_WIDTH) / GRID_HEIGHT)
        else
          (y * (CANVAS_HEIGHT - WALL_WIDTH) / GRID_HEIGHT,
           y * (CANVAS_HEIGHT - WALL_WIDTH) / GRID_HEIGHT + WALL_WIDTH) in
      Some (Rect x_coord y_coord (ex - x_coord) (ey - y_coord)).

(** The rectangle of a logged call. *)
Definition rect_of (d : draw) : option rect :=
  match d with
  | screen_fill _ => None
  | fill_cell x y wx wy _ => fill_cell_rect x y wx wy
  end.

(** Left edge and right edge of the cells of column [x]; top and bottom of
    the cells of row [y]. *)
Definition column_left (x : Z) : Z :=
  x * (CANVAS_WIDTH - WALL_WIDTH) / GRID_WIDTH + WALL_WIDTH.

Definition column_right (x : Z) : Z :=
  (x + 1) * (CANVAS_WIDTH - WALL_WIDTH) / GRID_WIDTH.

Definition row_top (y : Z) : Z :=
  y * (CANVAS_HEIGHT - WALL_WIDTH) / GRID_HEIGHT + WALL_WIDTH.

Definition row_bottom (y : Z) : Z :=
  (y + 1) * (CANVAS_HEIGHT - WALL_WIDTH) / GRID_HEIGHT.

Lemma fill_cell_rect_cell x y :
  GRID_WIDTH ≠ 0 → GRID_HEIGHT ≠ 0 →
  fill_cell_rect x y 0 0
  = Some (Rect (column_left x) (row_top y)
               (column_right x - column_left x) (row_bottom y - row_top y)).
Proof.
  intros HW HH. unfold fill_cell_rect.
  change (Z.shiftr (0 + 1) 1) with 0. change (Z.land (0 + 1) 1) with 1.
  rewrite !Z.add_0_r. repeat case_decide; try done.
Qed.

Lemma fill_cell_rect_wall x y (dr : bool) :
  GRID_WIDTH ≠ 0 → GRID_HEIGHT ≠ 0 →
  fill_cell_rect x y (if dr then 1 else 0) (if dr then 0 else 1)
  = Some (if dr
          then Rect (column_right x) (row_top y)
                    WALL_WIDTH (row_bottom y - row_top y)
          else Rect (column_left x) (row_bottom y)
                    (column_right x - column_left x) WALL_WIDTH).
Proof.
  intros HW HH. unfold fill_cell_rect, column_left, column_right, row_top, row_bottom.
  destruct dr.
  - change (Z.shiftr (1 + 1) 1) with 1. change (Z.land (1 + 1) 1) with 0.
    change (Z.shiftr (0 + 1) 1) with 0. change (Z.land (0 + 1) 1) with 1.
    rewrite Z.add_0_r. repeat case_decide; try done. f_equal. f_equal; lia.
  - change (Z.shiftr (1 + 1) 1) with 1. change (Z.land (1 + 1) 1) with 0.
    change (Z.shiftr (0 + 1) 1) with 0. change (Z.land (0 + 1) 1) with 1.
    rewrite Z.add_0_r. repeat case_decide; try done. f_equal. f_equal; lia.
Qed.

Lemma column_right_le_left x x' :
  0 < GRID_WIDTH → 0 <= CANVAS_WIDTH - WALL_WIDTH → x < x' →
  column_right x + WALL_WIDTH <= column_left x'.
Proof.
  intros HW HS Hx. unfold column_right, column_left.
  apply Z.add_le_mono_r. apply Z.div_le_mono; [done|]. nia.
Qed.

Lemma row_bottom_le_top y y' :
  0 < GRID_HEIGHT → 0 <= CANVAS_HEIGHT - WALL_WIDTH → y < y' →
  row_bottom y + WALL_WIDTH <= row_top y'.
Proof.
  intros HH HS Hy. unfold row_bottom, row_top.
  apply Z.add_le_mono_r. apply Z.div_le_mono; [done|]. nia.
Qed.

(** One axis of a cell rectangle: it starts after a wall's width, is not
    empty, and ends before the last wall's width. *)
Lemma axis_fits canvas grid x :
  0 < grid → 0 <= WALL_WIDTH → grid * (WALL_WIDTH + 1) <= canvas - WALL_WIDTH →
  0 <= x < grid →
  WALL_WIDTH <= x * (canvas - WALL_WIDTH) / grid + WALL_WIDTH ∧
  x * (canvas - WALL_WIDTH) / grid + WALL_WIDTH < (x + 1) * (canvas - WALL_WIDTH) / grid ∧
  (x + 1) * (canvas - WALL_WIDTH) / grid <= canvas - WALL_WIDTH.
Proof.
  intros Hg Hw Hc Hx. set (S := canvas - WALL_WIDTH) in *.
  assert (0 <= S) by nia. split; [|split].
  - assert (0 <= x * S / grid) by (apply Z.div_pos; nia). lia.
  - assert (x * S / grid + (WALL_WIDTH + 1) <= (x + 1) * S / grid); [|lia].
    rewrite <- Z.div_add by lia. apply Z.div_le_mono; [done|]. nia.
  - rewrite <- (Z.div_mul S grid) at 2 by lia. apply Z.div_le_mono; [done|]. nia.
Qed.

(** X1. On a canvas wide and high enough for the grid, the rectangle that
    [fill_cell(x, y, 0, 0, ...)] paints for a cell of the grid is not
    empty and keeps a wall's width away from every edge of the canvas. *)
Theorem cell_rectangles_fit x y :
  0 < GRID_WIDTH → 0 < GRID_HEIGHT → 0 <= WALL_WIDTH →
  GRID_WIDTH * (WALL_WIDTH + 1) <= CANVAS_WIDTH - WALL_WIDTH →
  GRID_HEIGHT * (WALL_WIDTH + 1) <= CANVAS_HEIGHT - WALL_WIDTH →
  0 <= x < GRID_WIDTH → 0 <= y < GRID_HEIGHT →
  ∃ r, fill_cell_rect x y 0 0 = Some r ∧
    WALL_WIDTH <= rect_left r ∧ 0 < rect_width r ∧
    rect_left r + rect_width r <= CANVAS_WIDTH - WALL_WIDTH ∧
    WALL_WIDTH <= rect_top r ∧ 0 < rect_height r ∧
    rect_top r + rect_height r <= CANVAS_HEIGHT - WALL_WIDTH.
Proof.
  intros HW HH Hw HcW HcH Hx Hy.
  rewrite fill_cell_rect_cell by lia. eexists. split; [done|]. simpl.
  destruct (axis_fits CANVAS_WIDTH GRID_WIDTH x HW Hw HcW Hx) as (? & ? & ?).
  destruct (axis_fits CANVAS_HEIGHT GRID_HEIGHT y HH Hw HcH Hy) as (? & ? & ?).
  unfold column_left, column_right, row_top, row_bottom. lia.
Qed.

(** X2. The rectangles of two cells in different columns, or in different
    rows, leave at least a wall's width between them, and exactly a wall's
    width when the columns, or the rows, are next to each other. *)
Theorem cell_rectangles_apart x y x' y' r r' :
  0 < GRID_WIDTH → 0 < GRID_HEIGHT →
  0 <= CANVAS_WIDTH - WALL_WIDTH → 0 <= CANVAS_HEIGHT - WALL_WIDTH →
  fill_cell_rect x y 0 0 = Some r → fill_cell_rect x' y' 0 0 = Some r' →
  (x < x' → rect_left r + rect_width r + WALL_WIDTH <= rect_left r') ∧
  (y < y' → rect_top r + rect_height r + WALL_WIDTH <= rect_top r') ∧
  (x' = x + 1 → rect_left r + rect_width r + WALL_WIDTH = rect_left r') ∧
  (y' = y + 1 → rect_top r + rect_height r + WALL_WIDTH = rect_top r').
Proof.
  intros HW HH HSW HSH. rewrite !fill_cell_rect_cell by lia.
  intros [= <-] [= <-]. simpl. split_and!.
  - intros Hx. pose proof (column_right_le_left x x' HW HSW Hx). lia.
  - intros Hy. pose proof (row_bottom_le_top y y' HH HSH Hy). lia.
  - intros ->. unfold column_left, column_right. lia.
  - intros ->. unfold row_top, row_bottom. lia.
Qed.

(** X3. The rectangle [try_wall] paints for a removed wall is the gap
    between the rectangles of the two cells the wall separated: it starts
    where the first cell ends, ends where the second cell starts, and has
    the extent of the cells in the other direction. *)
Theorem removed_wall_fills_gap x y (dr : bool) c c' g :
  fill_cell_rect x y 0 0 = Some c →
  fill_cell_rect (if dr then x + 1 else x) (if dr then y else y + 1) 0 0 = Some c' →
  fill_cell_rect x y (if dr then 1 else 0) (if dr then 0 else 1) = Some g →
  if dr
  then rect_left g = rect_left c + rect_width c ∧
       rect_left g + rect_width g = rect_left c' ∧
       rect_top g = rect_top c ∧ rect_height g = rect_height c ∧
       rect_top g = rect_top c' ∧ rect_height g = rect_height c'
  else rect_top g = rect_top c + rect_height c ∧
       rect_top g + rect_height g = rect_top c' ∧
       rect_left g = rect_left c ∧ rect_width g = rect_width c ∧
       rect_left g = rect_left c' ∧ rect_width g = rect_width c'.
Proof.
  intros Hc Hc' Hg.
  assert (GRID_WIDTH ≠ 0 ∧ GRID_HEIGHT ≠ 0) as [HW HH].
  { unfold fill_cell_rect in Hc. repeat case_decide; done. }
  rewrite fill_cell_rect_cell in Hc, Hc' by done.
  rewrite fill_cell_rect_wall in Hg by done.
  destruct dr; simplify_eq; simpl; unfold column_left, column_right, row_top, row_bottom;
    split_and!; lia.
Qed.

(** X4. The two openings that [init] paints are cut into the border of the
    canvas: the entrance is the strip between the top edge and the
    rectangle of the start cell, the exit the strip between the rectangle
    of the finish cell and the bottom edge, each as wide as its cell. *)
Theorem openings_cut_the_border sx fx c c' :
  fill_cell_rect sx 0 0 0 = Some c →
  fill_cell_rect fx (GRID_HEIGHT - 1) 0 0 = Some c' →
  ∃ entrance exit_,
    fill_cell_rect sx 0 0 (-1) = Some entrance ∧
    fill_cell_rect fx (GRID_HEIGHT - 1) 0 1 = Some exit_ ∧
    rect_left entrance = rect_left c ∧ rect_width entrance = rect_width c ∧
    rect_top entrance = 0 ∧ rect_top entrance + rect_height entrance = rect_top c ∧
    rect_left exit_ = rect_left c' ∧ rect_width exit_ = rect_width c' ∧
    rect_top exit_ = rect_top c' + rect_height c' ∧
    rect_top exit_ + rect_height exit_ = CANVAS_HEIGHT.
Proof.
  intros Hc Hc'.
  assert (GRID_WIDTH ≠ 0 ∧ GRID_HEIGHT ≠ 0) as [HW HH].
  { unfold fill_cell_rect in Hc. repeat case_decide; done. }
  rewrite fill_cell_rect_cell in Hc, Hc' by done. simplify_eq.
  unfold fill_cell_rect.
  change (Z.shiftr (0 + 1) 1) with 0. change (Z.land (0 + 1) 1) with 1.
  change (Z.shiftr (-1 + 1) 1) with 0. change (Z.land (-1 + 1) 1) with 0.
  change (Z.shiftr (1 + 1) 1) with 1. change (Z.land (1 + 1) 1) with 0.
  rewrite !Z.add_0_r. repeat case_decide; try done.
  eexists _, _. split; [done|]. split; [done|]. simpl.
  unfold column_left, column_right, row_top, row_bottom.
  replace (GRID_HEIGHT - 1 + 1) with GRID_HEIGHT by lia.
  rewrite (Z.mul_comm GRID_HEIGHT (CANVAS_HEIGHT - WALL_WIDTH)), Z.div_mul by done.
  rewrite Z.mul_0_l, Z.div_0_l by done. split_and!; lia.
Qed.

End Canvas.

(** The constants of [maze_solver_bfs.py]; the two floors are those of
    exact quotients. *)
Module Script.

Definition RESOLUTION_CONTROL : Z := 15.
Definition CANVAS_WIDTH : Z := 1200.
Definition CANVAS_HEIGHT : Z := 700.
Definition GRID_WIDTH : Z := (CANVAS_WIDTH * RESOLUTION_CONTROL / 100)%Z.
Definition GRID_HEIGHT : Z := (CANVAS_HEIGHT * RESOLUTION_CONTROL / 100)%Z.
Definition WALL_WIDTH : Z := (100 / (RESOLUTION_CONTROL * 3))%Z.

(** [fill_cell] with the script's constants. *)
Definition fill_cell_rect : Z → Z → Z → Z → option rect :=
  fill_cell_rect CANVAS_WIDTH CANVAS_HEIGHT WALL_WIDTH GRID_WIDTH GRID_HEIGHT.

End Script.

Lemma cell_rectangles_fit_witness :
  ∃ r, Script.fill_cell_rect 179 104 0 0 = Some r ∧
    (Script.WALL_WIDTH <= rect_left r)%Z ∧ (0 < rect_width r)%Z ∧
    (rect_left r + rect_width r <= Script.CANVAS_WIDTH - Script.WALL_WIDTH)%Z ∧
    (Script.WALL_WIDTH <= rect_top r)%Z ∧ (0 < rect_height r)%Z ∧
    (rect_top r + rect_height r <= Script.CANVAS_HEIGHT - Script.WALL_WIDTH)%Z.
Proof.
  apply (cell_rectangles_fit Script.CANVAS_WIDTH Script.CANVAS_HEIGHT
           Script.WALL_WIDTH Script.GRID_WIDTH Script.GRID_HEIGHT 179 104);
    vm_compute; try split; congruence.
Defined.

Lemma cell_rectangles_apart_witness :
  (rect_left (Rect 8 2 5 4) + rect_width (Rect 8 2 5 4) + Script.WALL_WIDTH
   <= rect_left (Rect 21 8 5 5))%Z ∧
  (rect_top (Rect 8 2 5 4) + rect_height (Rect 8 2 5 4) + Script.WALL_WIDTH
   <= rect_top (Rect 21 8 5 5))%Z.
Proof.
  destruct (cell_rectangles_apart Script.CANVAS_WIDTH Script.CANVAS_HEIGHT
              Script.WALL_WIDTH Script.GRID_WIDTH Script.GRID_HEIGHT
              1 0 3 1 (Rect 8 2 5 4) (Rect 21 8 5 5)
              ltac:(vm_compute; reflexivity) ltac:(vm_compute; reflexivity)
              ltac:(vm_compute; congruence) ltac:(vm_compute; congruence)
              ltac:(vm_compute; reflexivity) ltac:(vm_compute; reflexivity))
    as (Hx & Hy & _).
  split; [apply Hx|apply Hy]; vm_compute; reflexivity.
Defined.

Lemma removed_wall_fills_gap_witness :
  Script.fill_cell_rect 1 0 1 0 = Some (Rect 13 2 2 4) ∧
  (rect_left (Rect 13 2 2 4) = rect_left (Rect 8 2 5 4) + rect_width (Rect 8 2 5 4))%Z ∧
  (rect_left (Rect 13 2 2 4) + rect_width (Rect 13 2 2 4) = rect_left (Rect 15 2 4 4))%Z.
Proof.
  split; [vm_compute; reflexivity|].
  pose proof (removed_wall_fills_gap Script.CANVAS_WIDTH Script.CANVAS_HEIGHT
                Script.WALL_WIDTH Script.GRID_WIDTH Script.GRID_HEIGHT
                1 0 true (Rect 8 2 5 4) (Rect 15 2 4 4) (Rect 13 2 2 4)
                ltac:(vm_compute; reflexivity) ltac:(vm_compute; reflexivity)
                ltac:(vm_compute; reflexivity)) as (H1 & H2 & _).
  split; [exact H1|exact H2].
Defined.

Lemma openings_cut_the_border_witness :
  ∃ entrance exit_,
    Script.fill_cell_rect 5 0 0 (-1) = Some entrance ∧
    Script.fill_cell_rect 7 (Script.GRID_HEIGHT - 1) 0 1 = Some exit_ ∧
    rect_top entrance = 0%Z ∧
    (rect_top entrance + rect_height entrance = rect_top (Rect 35 2 4 4))%Z ∧
    (rect_top exit_ = rect_top (Rect 48 693 5 5) + rect_height (Rect 48 693 5 5))%Z ∧
    (rect_top exit_ + rect_height exit_ = Script.CANVAS_HEIGHT)%Z.
Proof.
  destruct (openings_cut_the_border Script.CANVAS_WIDTH Script.CANVAS_HEIGHT
              Script.WALL_WIDTH Script.GRID_WIDTH Script.GRID_HEIGHT
              5 7 (Rect 35 2 4 4) (Rect 48 693 5 5)
              ltac:(vm_compute; reflexivity) ltac:(vm_compute; reflexivity))
    as (entrance & exit_ & H1 & H2 & _ & _ & H3 & H4 & _ & _ & H5 & H6).
  exists entrance, exit_. done.
Defined.

(** ** Random insertion into a bucket *)

Section RandomInsertion.

Context {G : Type} `{RandomSource G}.

(** [pushrand(arr, item)] of [weighted_kruskal_maze.py]: the element at
    the drawn index moves to the end and the item takes its place; an empty
    list draws nothing. *)
Definition pushrand (arr : list nat) (item : nat) (g : G) : option (list nat * G) :=
  if decide (length arr < 1) then Some (arr ++ [item], g)
  else
    '(i, g') ← rand_int (length arr + 1) g;
    if decide (length arr ≤ i) then Some (arr ++ [item], g')
    else x ← arr !! i; Some (<[i := item]> (arr ++ [x]), g').

(** X5. [push_rand] never raises; the item lands at the drawn index, which
    is at most the length of the list, and taking it out again gives the
    list as it was: the items already there keep their order. *)
Theorem push_rand_keeps_order (arr : list nat) (item : nat) (g : G) :
  ∃ i arr' g',
    push_rand arr item g = Some (arr', g') ∧
    (i, g') = randrange (length arr + 1) g ∧ i ≤ length arr ∧
    arr' !! i = Some item ∧ delete i arr' = arr.
Proof.
  rewrite push_rand_eq.
  pose proof (randrange_lt (length arr + 1) g ltac:(lia)) as Hi.
  destruct (randrange (length arr + 1) g) as [i g']. simpl in *.
  exists i, (list_insert_at i item arr), g'. split; [done|]. split; [done|].
  split; [lia|]. unfold list_insert_at.
  assert (Hlen : length (take i arr) = i) by (rewrite length_take; lia).
  split.
  - rewrite lookup_app_r by lia. by rewrite Hlen, Nat.sub_diag.
  - rewrite <- Hlen at 1. rewrite delete_middle. apply take_drop.
Qed.

(** X6. [pushrand] of [weighted_kruskal_maze.py] never raises and leaves a
    rearrangement of the list with the item added.  On an empty list it
    draws no number; otherwise the item takes the drawn place, the element
    that was there goes to the end, and every other element stays where it
    was. *)
Theorem pushrand_moves_one (arr : list nat) (item : nat) (g : G) :
  ∃ arr' g',
    pushrand arr item g = Some (arr', g') ∧ arr' ≡ₚ item :: arr ∧
    (arr = [] → arr' = [item] ∧ g' = g) ∧
    (arr ≠ [] →
     ∃ i, (i, g') = randrange (length arr + 1) g ∧
       arr' !! Nat.min i (length arr) = Some item ∧
       (i < length arr →
        arr' !! length arr = arr !! i ∧
        ∀ j, j < length arr → j ≠ i → arr' !! j = arr !! j) ∧
       (length arr ≤ i → arr' = arr ++ [item])).
Proof.
  unfold pushrand. case_decide as Hlen.
  { destruct arr as [|x arr]; [|simpl in Hlen; lia].
    exists [item], g. split; [done|]. split; [done|]. split; [done|]. done. }
  unfold rand_int. case_decide; [lia|]. cbn [mbind option_bind].
  pose proof (randrange_lt (length arr + 1) g ltac:(lia)) as Hi.
  destruct (randrange (length arr + 1) g) as [i g']. simpl in Hi.
  cbn [mbind option_bind]. case_decide as Hend.
  - exists (arr ++ [item]), g'. split; [done|].
    split; [by rewrite Permutation_app_comm|].
    split; [intros ->; simpl in Hlen; lia|]. intros _. exists i. split; [done|].
    rewrite Nat.min_r by done. split; [|split; [lia|done]].
    rewrite lookup_app_r by lia. by rewrite Nat.sub_diag.
  - destruct (lookup_lt_is_Some_2 arr i ltac:(lia)) as [x Hx]. rewrite Hx.
    cbn [mbind option_bind]. eexists _, g'. split; [done|]. split.
    + rewrite insert_app_l by lia.
      rewrite <- (take_drop_middle arr i x Hx) at 2.
      rewrite insert_take_drop by lia.
      rewrite <- !app_assoc, <- !app_comm_cons.
      rewrite <- Permutation_middle. apply Permutation_skip.
      apply Permutation_app_head. apply Permutation_app_comm.
    + split; [intros ->; simpl in Hlen; lia|]. intros _. exists i. split; [done|].
      rewrite Nat.min_l by lia. rewrite insert_app_l by lia. split; [|split; [|lia]].
      * rewrite lookup_app_l by (rewrite length_insert; lia).
        apply list_lookup_insert_eq. lia.
      * intros _. split.
        -- rewrite lookup_app_r by (rewrite length_insert; lia).
           rewrite length_insert, Nat.sub_diag. by rewrite Hx.
        -- intros j Hj Hne. rewrite lookup_app_l by (rewrite length_insert; lia).
           by rewrite list_lookup_insert_ne.
Qed.

End RandomInsertion.

(** ** Looking walls up *)

Section Lookup.

Context {G : Type} `{RandomSource G} `{MathPow}.
Variables (GRID_WIDTH GRID_HEIGHT : nat).

(** Every state of a run satisfies the invariant of generation. *)
Lemma run_inv ticks (s0 s1 s : state G) n :
  0 < GRID_WIDTH → init GRID_WIDTH GRID_HEIGHT ticks s0 = Some s1 →
  steps GRID_WIDTH GRID_HEIGHT n s1 = Some s →
  gen_inv GRID_WIDTH GRID_HEIGHT (λ _, True) s.
Proof.
  intros HW Hinit Hsteps.
  destruct (init_spec GRID_WIDTH GRID_HEIGHT ticks s0 HW) as (s1' & Hinit' & Hinv1 & _).
  rewrite Hinit in Hinit'. simplify_eq.
  by destruct (steps_inv _ _ _ _ _ Hinv1 Hsteps).
Qed.

Lemma get_wall_present walls x y dr :
  walls_ok GRID_WIDTH GRID_HEIGHT walls → present GRID_WIDTH GRID_HEIGHT x y dr →
  get_wall GRID_WIDTH GRID_HEIGHT walls (Z.of_nat x) (Z.of_nat y) dr
  = Some (Some (slot GRID_WIDTH x y dr)).
Proof.
  intros Hok Hp. destruct (wo_present _ _ _ Hok x y dr Hp) as [w Hw].
  apply deref_Some in Hw. destruct Hp as (Hx & Hy & _).
  unfold get_wall. rewrite bool_decide_true by lia.
  replace (Z.to_nat _) with (slot GRID_WIDTH x y dr) by (unfold slot; destruct dr; nia).
  by rewrite Hw.
Qed.

Lemma get_wall_absent walls x y dr :
  walls_ok GRID_WIDTH GRID_HEIGHT walls →
  ¬ (0 <= x ∧ 0 <= y ∧ present GRID_WIDTH GRID_HEIGHT (Z.to_nat x) (Z.to_nat y) dr)%Z →
  get_wall GRID_WIDTH GRID_HEIGHT walls x y dr = Some None.
Proof.
  intros Hok Hno.
  destruct (get_wall_ok GRID_WIDTH GRID_HEIGHT walls x y dr Hok) as (o & Ho & Hspec).
  rewrite Ho. destruct o as [r|]; [|done]. exfalso.
  destruct (Hspec r eq_refl) as (w & Hw & Hx & Hy & Hdr).
  destruct (wo_wall _ _ _ Hok _ _ Hw) as (_ & Hp & _).
  apply Hno. subst x y dr. rewrite !Nat2Z.id. split_and!; [lia|lia|done].
Qed.

Lemma get_wall_self walls r w :
  walls_ok GRID_WIDTH GRID_HEIGHT walls → deref walls r = Some w →
  get_wall GRID_WIDTH GRID_HEIGHT walls (Z.of_nat (wall_x w)) (Z.of_nat (wall_y w))
           (wall_dr w) = Some (Some r).
Proof.
  intros Hok Hw. destruct (wo_wall _ _ _ Hok _ _ Hw) as (-> & Hp & _).
  by apply get_wall_present.
Qed.

(** X7. In every state of a run [get_wall] never raises.  At the
    coordinates and orientation of a wall it answers that very wall; it
    answers [None] exactly when the grid has no wall there: outside the
    grid, for a horizontal wall in the last column and for a vertical wall
    in the last row. *)
Theorem get_wall_finds_the_wall ticks (s0 s1 s : state G) n :
  0 < GRID_WIDTH → init GRID_WIDTH GRID_HEIGHT ticks s0 = Some s1 →
  steps GRID_WIDTH GRID_HEIGHT n s1 = Some s →
  (∀ r w, deref (walls_by_index s) r = Some w →
     get_wall GRID_WIDTH GRID_HEIGHT (walls_by_index s)
              (Z.of_nat (wall_x w)) (Z.of_nat (wall_y w)) (wall_dr w)
     = Some (Some r)) ∧
  (∀ x y dr,
     ∃ o, get_wall GRID_WIDTH GRID_HEIGHT (walls_by_index s) x y dr = Some o ∧
       (o = None ↔
        ¬ (0 <= x ∧ 0 <= y ∧
           present GRID_WIDTH GRID_HEIGHT (Z.to_nat x) (Z.to_nat y) dr)%Z) ∧
       ∀ r, o = Some r →
         ∃ w, deref (walls_by_index s) r = Some w ∧
           Z.of_nat (wall_x w) = x ∧ Z.of_nat (wall_y w) = y ∧ wall_dr w = dr).
Proof.
  intros HW Hinit Hsteps.
  pose proof (gi_walls _ _ _ _ (run_inv ticks s0 s1 s n HW Hinit Hsteps)) as Hok.
  split; [intros r w; by apply get_wall_self|]. intros x y dr.
  destruct (get_wall_ok GRID_WIDTH GRID_HEIGHT _ x y dr Hok) as (o & Ho & Hspec).
  exists o. split; [done|]. split; [|done]. split.
  - intros -> (Hx & Hy & Hp).
    pose proof (get_wall_present _ _ _ _ Hok Hp) as E.
    rewrite !Z2Nat.id in E by done. congruence.
  - intros Hno. pose proof (get_wall_absent _ x y dr Hok Hno). congruence.
Qed.

(** The index under which a wall finds back the wall that found it. *)
Definition neighbour_back (n : nat) : nat :=
  match n with
  | 0 => 5
  | 1 => 4
  | 2 => 2
  | 3 => 3
  | 4 => 1
  | _ => 0
  end.

Local Opaque get_wall.

Lemma get_neighbour_back walls r w k r' :
  walls_ok GRID_WIDTH GRID_HEIGHT walls → deref walls r = Some w →
  get_neighbour GRID_WIDTH GRID_HEIGHT walls w k = Some (Some r') →
  k < 6 ∧ r' ≠ r ∧
  ∃ w', deref walls r' = Some w' ∧
    get_neighbour GRID_WIDTH GRID_HEIGHT walls w' (neighbour_back k) = Some (Some r).
Proof.
  intros Hok Hw Hn. pose proof (get_wall_self walls r w Hok Hw) as Hself.
  unfold get_neighbour in Hn.
  destruct (wall_dr w) eqn:Edr;
    do 6 (destruct k as [|k];
      [simpl in Hn;
       match type of Hn with
       | get_wall _ _ _ ?x ?y ?h = _ =>
           destruct (get_wall_ok GRID_WIDTH GRID_HEIGHT walls x y h Hok)
             as (o & Ho & Hspec);
           rewrite Hn in Ho; injection Ho as <-;
           destruct (Hspec _ eq_refl) as (w' & Hw' & Hx' & Hy' & Hdr')
       end;
       split; [lia|]; split;
       [intros ->; rewrite Hw in Hw'; injection Hw' as <-;
        first [congruence | lia]
       |exists w'; split; [done|]; unfold get_neighbour; rewrite Hdr'; simpl;
        rewrite <- Hself; f_equal; lia]|]);
    done.
Qed.

Local Transparent get_wall.



End Lookup.

Lemma get_wall_finds_the_wall_witness :
  get_wall 3 3 (walls_by_index stale_3x3) 0 0 false = Some (Some 1) ∧
  get_wall 3 3 (walls_by_index stale_3x3) 2 0 true = Some None.
Proof.
  destruct (get_wall_finds_the_wall 3 3 0 (blank 7) start_3x3 stale_3x3 17
              ltac:(lia) ltac:(vm_compute; reflexivity)
              ltac:(vm_compute; reflexivity)) as [Hself Hall].
  split.
  - apply (Hself 1 (Wall 0 0 false 1 true)). reflexivity.
  - destruct (Hall 2%Z 0%Z true) as (o & Ho & Hnone & _). rewrite Ho. f_equal.
    apply Hnone. unfold present. simpl. lia.
Defined.



(** ** More on the union-find array *)

Section UnionFindCalls.

Import UF.

(** The compression loop leaves the cell it started from pointing at the
    root, unless that cell is the root. *)
Lemma compress_redirects fuel a src r n :
  wf a → reaches a src r n → n < fuel →
  ∃ a', compress fuel a src r = Some a' ∧ length a' = length a ∧
    (n = 0 → a' = a) ∧ (0 < n → a' !! src = Some (Z.of_nat r)).
Proof.
  intros Hwf Hr Hn. destruct fuel as [|f]; [lia|].
  inversion Hr as [c v Hc Hv|c v r0 k Hc Hv Hrest]; subst; cbn [compress].
  - rewrite Hc. cbn [mbind option_bind].
    replace (0 <=? v)%Z with false by (symmetry; apply Z.leb_gt; lia).
    exists a. split; [done|]. split; [done|]. split; [done|lia].
  - rewrite Hc. cbn [mbind option_bind].
    replace (0 <=? v)%Z with true by (symmetry; apply Z.leb_le; lia).
    destruct (v =? Z.of_nat r)%Z eqn:Ev; cbn [andb negb].
    + apply Z.eqb_eq in Ev. subst v. exists a.
      split; [done|]. split; [done|]. split; [lia|done].
    + apply Z.eqb_neq in Ev.
      assert (Hsrc : src < length a) by (by eapply lookup_lt_Some).
      destruct (reaches_redirect a src r k (Z.to_nat v) r k Hr Hrest) as (m & Hm & Hle).
      assert (Hwf1 : wf (<[src := Z.of_nat r]> a)).
      { intros x Hx. rewrite length_insert in Hx.
        destruct (Hwf x Hx) as (rx & nx & Hx').
        destruct (reaches_redirect a src r k x rx nx Hr Hx') as (m' & Hm' & _).
        eauto. }
      destruct (compress_spec f _ _ _ _ Hwf1 Hm ltac:(lia))
        as (a' & Ha' & Hlen & _ & _ & _ & Hentries).
      exists a'. split; [done|]. split; [by rewrite Hlen, length_insert|].
      split; [lia|]. intros _.
      destruct (Hentries src) as [E|[E _]]; [|done].
      rewrite E. by apply list_lookup_insert_eq.
Qed.

(** X10. A second [ufind] of the same cell right after the first returns
    the same root and leaves the array exactly as it is: the first call
    has already pointed the cell at its root. *)
Theorem ufind_again_changes_nothing (a : list Z) (c : nat) :
  wf a →
  ∃ a' r, ufind a c = Some (a', r) ∧ ufind a' c = Some (a', r).
Proof.
  intros Hwf. unfold ufind at 1. cbv zeta.
  pose proof (wf_grow a c Hwf) as Hwf1.
  assert (Hc : c < length (grow a c)) by (rewrite length_grow; lia).
  destruct (wf_root _ c Hwf1 Hc) as [n Hreach].
  pose proof (reaches_bound _ _ _ _ Hreach) as Hn.
  set (r := root (grow a c) c) in *.
  rewrite (find_root_reaches _ _ _ _ _ Hreach Hn). cbn [mbind option_bind].
  destruct (compress_redirects _ _ _ _ _ Hwf1 Hreach Hn)
    as (a2 & Hcomp & Hlen & Hzero & Hpos).
  destruct (compress_spec _ _ _ _ _ Hwf1 Hreach Hn)
    as (a2' & Hcomp' & _ & Hwf2 & Hroot & _).
  rewrite Hcomp in Hcomp'. injection Hcomp' as <-.
  rewrite Hcomp. cbn [mbind option_bind]. exists a2, r. split; [done|].
  unfold ufind. cbv zeta.
  assert (Hgrow : grow a2 c = a2).
  { unfold grow. replace (S c - length a2) with 0 by lia. apply app_nil_r. }
  rewrite Hgrow.
  assert (Hc2 : c < length a2) by lia.
  destruct (wf_root _ c Hwf2 Hc2) as [n2 Hreach2].
  rewrite (Hroot c) in Hreach2. fold r in Hreach2.
  rewrite (find_root_reaches _ _ _ _ _ Hreach2 (reaches_bound _ _ _ _ Hreach2)).
  cbn [mbind option_bind].
  destruct (length a2) as [|f] eqn:El; [lia|]. cbn [compress].
  destruct n as [|n].
  - rewrite (Hzero eq_refl).
    inversion Hreach as [c0 v Hv Hneg|]. rewrite Hv.
    cbn [mbind option_bind].
    replace (0 <=? v)%Z with false by (symmetry; apply Z.leb_gt; lia). done.
  - rewrite (Hpos ltac:(lia)). cbn [mbind option_bind].
    rewrite Z.eqb_refl. by rewrite andb_false_r.
Qed.

(** X11. After [union] of two cells, whatever it answered, the two cells
    have the same representative, and a further [union] of them, in
    either order, answers [False] and moves no cell to another set. *)
Theorem union_again_answers_false (a : list Z) (ci cj : nat) :
  inv a →
  ∃ a' b, union a ci cj = Some (a', b) ∧ inv a' ∧ same a' ci cj ∧
    (∃ a'', union a' ci cj = Some (a'', false) ∧ ∀ x, root a'' x = root a' x) ∧
    (∃ a'', union a' cj ci = Some (a'', false) ∧ ∀ x, root a'' x = root a' x).
Proof.
  intros Hinv.
  assert (Hfirst : ∃ a' b, union a ci cj = Some (a', b) ∧ inv a' ∧ same a' ci cj).
  { destruct (decide (root a ci = root a cj)) as [E|E].
    - destruct (union_same a ci cj Hinv E) as (a' & Hu & Hinv' & _ & Hroot & _).
      exists a', false. split; [done|]. split; [done|].
      unfold same. by rewrite !Hroot.
    - destruct (union_merge a ci cj Hinv E) as (a' & Hu & Hinv' & _ & Hroot & _).
      exists a', true. split; [done|]. split; [done|].
      by destruct (union_merge_same a ci cj a' (proj1 Hinv) E Hroot). }
  destruct Hfirst as (a' & b & Hu & Hinv' & Hsame).
  exists a', b. split; [done|]. split; [done|]. split; [done|]. split.
  - destruct (union_same a' ci cj Hinv' Hsame) as (a'' & Hu' & _ & _ & Hroot & _).
    by exists a''.
  - destruct (union_same a' cj ci Hinv' (eq_sym Hsame)) as (a'' & Hu' & _ & _ & Hroot & _).
    by exists a''.
Qed.

(** The sizes that the roots of the array store, added up. *)
Definition total_size (a : list Z) : nat :=
  sum_list_with (λ v, Z.to_nat (- v)) a.

Fixpoint sum_upto (h : nat → nat) (n : nat) : nat :=
  match n with
  | 0 => 0
  | S m => h m + sum_upto h m
  end.

Lemma sum_upto_ext h h' n :
  (∀ i, i < n → h i = h' i) → sum_upto h n = sum_upto h' n.
Proof.
  induction n as [|n IH]; intros Hh; [done|]. simpl.
  rewrite Hh by lia. rewrite IH; [done|]. intros i Hi. apply Hh. lia.
Qed.

Lemma sum_upto_add h h' n :
  sum_upto (λ i, h i + h' i) n = sum_upto h n + sum_upto h' n.
Proof. induction n as [|n IH]; simpl; lia. Qed.

Lemma sum_upto_indicator k n :
  sum_upto (λ r, if decide (k = r) then 1 else 0) n = if decide (k < n) then 1 else 0.
Proof.
  induction n as [|n IH]; cbn [sum_upto]; [case_decide; [lia|done]|].
  rewrite IH. repeat case_decide; lia.
Qed.

Lemma sum_upto_count f n m :
  (∀ x, x < m → f x < n) → sum_upto (λ r, count_eq f r m) n = m.
Proof.
  induction m as [|m IH]; intros Hf.
  - clear Hf. induction n as [|n IHn]; simpl in *; lia.
  - cbn [count_eq]. rewrite sum_upto_add, sum_upto_indicator.
    rewrite IH by (intros x Hx; apply Hf; lia).
    specialize (Hf m ltac:(lia)). case_decide; lia.
Qed.

Lemma sum_list_with_lookup (F : Z → nat) (a : list Z) :
  sum_list_with F a
  = sum_upto (λ i, match a !! i with Some v => F v | None => 0 end) (length a).
Proof.
  induction a as [|v a IH] using rev_ind; [done|].
  rewrite sum_list_with_app, length_app. simpl.
  replace (length a + 1) with (S (length a)) by lia. cbn [sum_upto].
  rewrite lookup_app_r by lia. rewrite Nat.sub_diag. simpl.
  rewrite IH, Nat.add_0_r, Nat.add_comm. f_equal.
  apply sum_upto_ext. intros i Hi. by rewrite lookup_app_l.
Qed.

(** X12. In an array that satisfies the invariant of the structure (every
    chain of parents ends in a root and every root stores the negated size
    of its set), the sizes stored at the roots add up to the length of the
    array: every cell is counted in exactly one set. *)
Theorem sizes_add_up (a : list Z) : inv a → total_size a = length a.
Proof.
  intros [Hwf Hsz]. unfold total_size. rewrite sum_list_with_lookup.
  rewrite <- (sum_upto_count (root a) (length a) (length a)) at 2
    by (intros x Hx; by apply root_lt).
  apply sum_upto_ext. intros r Hr.
  destruct (lookup_lt_is_Some_2 a r Hr) as [v Hv]. rewrite Hv.
  destruct (decide (v < 0)%Z) as [Hneg|Hpos].
  - rewrite (Hsz r v Hv Hneg). unfold size_of. lia.
  - rewrite count_eq_none; [lia|]. intros x Hx E.
    destruct (wf_root a x Hwf Hx) as [k Hk].
    destruct (reaches_is_root _ _ _ _ Hk) as (v' & Hv' & Hneg').
    rewrite E, Hv in Hv'. injection Hv' as <-. lia.
Qed.

End UnionFindCalls.

Lemma ufind_again_changes_nothing_witness :
  ∃ a' r, UF.ufind [1; 2; -3]%Z 0 = Some (a', r) ∧ UF.ufind a' 0 = Some (a', r).
Proof.
  apply (ufind_again_changes_nothing [1; 2; -3]%Z 0).
  apply UF.wf_check_sound. reflexivity.
Defined.

Lemma union_again_answers_false_witness :
  ∃ a' b, UF.union [-2; 0; -1]%Z 2 1 = Some (a', b) ∧ UF.inv a' ∧ UF.same a' 2 1 ∧
    (∃ a'', UF.union a' 2 1 = Some (a'', false) ∧ ∀ x, UF.root a'' x = UF.root a' x) ∧
    (∃ a'', UF.union a' 1 2 = Some (a'', false) ∧ ∀ x, UF.root a'' x = UF.root a' x).
Proof.
  apply (union_again_answers_false [-2; 0; -1]%Z 2 1).
  apply UF.inv_check_sound. reflexivity.
Defined.

Lemma sizes_add_up_witness :
  UF.inv [-2; 0; -1]%Z ∧ total_size [-2; 0; -1]%Z = 3.
Proof.
  assert (Hinv : UF.inv [-2; 0; -1]%Z) by (apply UF.inv_check_sound; reflexivity).
  split; [exact Hinv|]. exact (sizes_add_up [-2; 0; -1]%Z Hinv).
Defined.

(** ** The weighted choice of [step] *)

Section Scheduler.

Context {G : Type} `{RandomSource G} `{MathPow}.

(** The loop over the buckets stops at the bucket whose share of the
    weights holds the threshold. *)
Lemma select_queue_interval (qw : list Q) (i : nat) (r : Q) :
  (∀ x, x ∈ qw → (0 <= x)%Q) → (0 <= r)%Q → (r < sum_Q qw)%Q →
  ∃ k, select_queue qw i r = i + k ∧ k < length qw ∧
       (sum_Q (take k qw) <= r)%Q ∧ (r < sum_Q (take (S k) qw))%Q.
Proof.
  revert i r. induction qw as [|y qw IH]; intros i r Hl Hr Hs; simpl in Hs; [lra|].
  cbn [select_queue]. destruct (Qlt_le_dec r y) as [Hlt|Hge].
  - exists 0. split; [lia|]. split; [simpl; lia|]. simpl. split; lra.
  - destruct (IH (S i) (r - y)%Q) as (k & -> & Hk & Hlo & Hhi).
    + intros; apply Hl; by right.
    + lra.
    + lra.
    + exists (S k). split; [lia|]. split; [simpl; lia|].
      change (take (S k) (y :: qw)) with (y :: take k qw).
      change (take (S (S k)) (y :: qw)) with (y :: take (S k) qw).
      cbn [sum_Q]. split; lra.
Qed.


End Scheduler.


(** ** The timer and the main loop *)

Section Animation.

Context {G : Type} `{RandomSource G} `{MathPow}.
Variables (GRID_WIDTH GRID_HEIGHT : nat).

(** What [step] adds to [progress_time] for a removed wall. *)
Definition wall_time : Q :=
  ((20 - SPEED_CONTROL) * 250 / inject_Z (Z.of_nat (GRID_WIDTH * GRID_HEIGHT)))%Q.

Lemma update_wall_type_time r (s s' : state G) :
  update_wall_type GRID_WIDTH GRID_HEIGHT r s = Some s' →
  progress_time s' = progress_time s.
Proof.
  unfold update_wall_type.
  repeat case_match; intros; simplify_option_eq; try done.
  all: repeat match goal with
         | H : push_rand _ _ _ = Some _ |- _ => rewrite push_rand_eq in H
         end; simplify_eq; done.
Qed.

Lemma update_neighbour_time w i (s s' : state G) :
  update_neighbour GRID_WIDTH GRID_HEIGHT w i s = Some s' →
  progress_time s' = progress_time s.
Proof.
  unfold update_neighbour. intros Hs.
  destruct (get_neighbour _ _ (walls_by_index s) w i) as [[nb|]|]; simpl in Hs.
  - by eapply update_wall_type_time.
  - by simplify_eq.
  - done.
Qed.

Lemma try_wall_time r (s : state G) b s' :
  try_wall GRID_WIDTH GRID_HEIGHT r s = Some (b, s') →
  progress_time s' = progress_time s.
Proof.
  unfold try_wall. intros Hs.
  destruct (deref (walls_by_index s) r) as [w|]; [|done].
  cbn [mbind option_bind] in Hs.
  destruct (wall_clr w); [by simplify_eq|].
  destruct (UF.union _ _ _) as [[a merged]|]; [|done].
  cbn [mbind option_bind] in Hs.
  destruct merged; [|by simplify_eq].
  match type of Hs with context [for_each ?l ?f ?t] =>
    destruct (for_each l f t) as [s4|] eqn:E; [|done] end.
  cbn [mbind option_bind] in Hs. simplify_eq.
  apply (for_each_rel (λ t t' : state G, progress_time t' = progress_time t)) in E;
    [done|done|congruence|apply update_neighbour_time].
Qed.

(** The timer counts the removed walls. *)
Definition timed (ticks : Q) (s : state G) : Prop :=
  (progress_time s
   == ticks + inject_Z (Z.of_nat (removed_count (walls_by_index s))) * wall_time)%Q.

Lemma inject_Z_S n : (inject_Z (Z.of_nat (S n)) == inject_Z (Z.of_nat n) + 1)%Q.
Proof. rewrite Nat2Z.inj_succ. unfold Z.succ. by rewrite inject_Z_plus. Qed.

Lemma step_timed ticks (s : state G) b s' :
  gen_inv GRID_WIDTH GRID_HEIGHT (λ _, True) s → timed ticks s →
  step GRID_WIDTH GRID_HEIGHT s = Some (b, s') → timed ticks s'.
Proof.
  intros Hinv Ht. unfold step.
  destruct (selection_spec s (gi_buckets _ _ _ _ Hinv))
    as [[-> Hempty]|(i & q & -> & Hq & Hne)]; cbn [mbind option_bind].
  { by intros [= <- <-]. }
  unfold take_from. cbn [wall_queues set_rng]. rewrite Hq.
  cbn [mbind option_bind].
  destruct (pop q) as [[q' r]|] eqn:Hpop; [|by apply pop_None in Hpop].
  apply pop_Some in Hpop.
  assert (Hinv1 : gen_inv GRID_WIDTH GRID_HEIGHT (λ _, True)
                    (set_rng (random (rng s)).2 s)) by (by eapply gen_inv_frame).
  destruct (popped_inv _ _ q q' r i _ Hinv1 Hq Hpop) as [Hinv2 _].
  set (s2 := set_wall_queues _ _) in *.
  destruct (gi_refs _ _ _ _ Hinv i q r Hq) as [w Hr].
  { rewrite Hpop. apply elem_of_app. right. by left. }
  change (walls_by_index s2) with (walls_by_index s). rewrite Hr.
  cbn [mbind option_bind]. case_decide as Htyp; [|by intros [= <- <-]].
  destruct (try_wall_inv _ _ r s2 w Hinv2 Hr) as (ok & s3 & Htry & _ & _ & Hb).
  rewrite Htry. cbn [mbind option_bind].
  apply try_wall_time in Htry. change (progress_time s2) with (progress_time s) in Htry.
  unfold timed in *. destruct ok; intros [= <- <-].
  - destruct Hb as [Hcnt _]. cbn [progress_time set_progress_time walls_by_index].
    change (walls_by_index s2) with (walls_by_index s) in Hcnt.
    rewrite Hcnt, inject_Z_S, Htry, Ht. unfold wall_time. ring.
  - destruct Hb as [Ew _]. rewrite Ew, Htry. exact Ht.
Qed.

Lemma steps_timed ticks n (s s' : state G) :
  gen_inv GRID_WIDTH GRID_HEIGHT (λ _, True) s → timed ticks s →
  steps GRID_WIDTH GRID_HEIGHT n s = Some s' → timed ticks s'.
Proof.
  revert s. induction n as [|n IH]; intros s Hinv Ht Hs; simpl in Hs.
  { by simplify_eq. }
  destruct (step GRID_WIDTH GRID_HEIGHT s) as [[b s1]|] eqn:E; [|done].
  cbn [mbind option_bind] in Hs.
  apply (IH s1); [|by eapply step_timed|done].
  destruct (step_inv _ _ s Hinv) as [[E' _]|(s1' & E' & Hinv1 & _)];
    rewrite E' in E; by simplify_eq.
Qed.

Lemma init_time ticks (s0 s1 : state G) :
  init GRID_WIDTH GRID_HEIGHT ticks s0 = Some s1 → progress_time s1 = ticks.
Proof.
  unfold init. intros Hs.
  destruct (rand_int GRID_WIDTH (rng s0)) as [[sx g1]|]; [|done].
  cbn [mbind option_bind] in Hs.
  destruct (rand_int GRID_WIDTH g1) as [[fx g2]|]; [|done].
  cbn [mbind option_bind] in Hs.
  match type of Hs with context [for_each ?l ?f ?t] =>
    destruct (for_each l f t) as [s'|]; [|done] end.
  cbn [mbind option_bind] in Hs. by simplify_eq.
Qed.

Lemma wall_time_pos :
  0 < GRID_WIDTH * GRID_HEIGHT → (0 < wall_time)%Q.
Proof.
  intros Hn. unfold wall_time, SPEED_CONTROL.
  apply Qlt_shift_div_l; [|lra].
  change 0%Q with (inject_Z 0). rewrite <- Zlt_Qlt. lia.
Qed.

Lemma wall_time_total :
  0 < GRID_WIDTH * GRID_HEIGHT →
  (inject_Z (Z.of_nat (GRID_WIDTH * GRID_HEIGHT)) * wall_time == 1000)%Q.
Proof.
  intros Hn. unfold wall_time, SPEED_CONTROL. field.
  intros E. unfold Qeq in E. simpl in E. lia.
Qed.

(** While walls are left the timer is less than a second past [init]. *)
Lemma timed_bound ticks (s : state G) :
  0 < GRID_WIDTH * GRID_HEIGHT →
  gen_inv GRID_WIDTH GRID_HEIGHT (λ _, True) s → timed ticks s →
  (progress_time s <= ticks + 1000 - wall_time)%Q.
Proof.
  intros Hn Hinv Ht. unfold timed in Ht. rewrite Ht.
  pose proof (removed_count_bound _ _ _ s Hinv) as Hb.
  pose proof (wall_time_pos Hn) as Hpos. pose proof (wall_time_total Hn) as Htot.
  assert (Hle : (inject_Z (Z.of_nat (removed_count (walls_by_index s))) + 1
                 <= inject_Z (Z.of_nat (GRID_WIDTH * GRID_HEIGHT)))%Q).
  { rewrite <- inject_Z_S, <- Zle_Qle. lia. }
  set (k := inject_Z (Z.of_nat (removed_count _))) in *.
  set (m := inject_Z (Z.of_nat (GRID_WIDTH * GRID_HEIGHT))) in *.
  assert ((k + 1) * wall_time <= m * wall_time)%Q by (apply Qmult_le_compat_r; lra).
  lra.
Qed.


End Animation.

(** ** The main loop of [maze_solver_bfs.py] *)

(** The function that [current_state] names. *)
Inductive routine :=
  | run_step
  | run_solution_step.

Inductive phase_name :=
  | generation
  | solution.

(** The variables of the main loop together with the module variables:
    those of the generation in [maze], those of the solution, once
    [init_solution] has run, in [search]. *)
Record app (G : Type) := App {
  phase : phase_name;
  current_state : option routine;
  maze : state G;
  search : option solving
}.

Arguments App {G}.
Arguments phase {G}.
Arguments current_state {G}.
Arguments maze {G}.
Arguments search {G}.

Section MainLoop.

Context {G : Type} `{RandomSource G} `{MathPow}.
Variables (GRID_WIDTH GRID_HEIGHT : nat).

(** The module variable [progress_time]: [init_solution] and
    [solution_step] keep it in [solving_time]. *)
Definition timer (a : app G) : Q :=
  match search a with
  | Some v => solving_time v
  | None => progress_time (maze a)
  end.

(** [while progress_time < current_time and current_state is not None],
    cut off after [fuel] tests. *)
Fixpoint pump (fuel : nat) (current_time : Q) (a : app G) : option (app G) :=
  match fuel with
  | 0 => None
  | S f =>
      if Qlt_le_dec (timer a) current_time then
        match current_state a with
        | None => Some a
        | Some run_step =>
            '(finished, s) ← step GRID_WIDTH GRID_HEIGHT (maze a);
            if (finished : bool)
            then pump f current_time (App (phase a) (current_state a) s (search a))
            else Some (App (phase a) None s (search a))
        | Some run_solution_step =>
            v ← search a;
            '(finished, v') ← solution_step GRID_WIDTH GRID_HEIGHT (maze a) v;
            if (finished : bool)
            then pump f current_time (App (phase a) (current_state a) (maze a) (Some v'))
            else Some (App (phase a) None (maze a) (Some v'))
        end
      else Some a
  end.

(** One round of [while running] after the events are read:
    [current_time] is the clock reading of the round, [solution_ticks] the
    one [init_solution] takes. *)
Definition frame (fuel : nat) (current_time solution_ticks : Q) (a : app G)
    : option (app G) :=
  a1 ← pump fuel current_time a;
  match phase a1, current_state a1 with
  | generation, None =>
      v ← init_solution GRID_WIDTH GRID_HEIGHT solution_ticks (maze a1);
      Some (App solution (Some run_solution_step) (maze a1) (Some v))
  | _, _ => Some a1
  end.

(** [init(screen); current_state = step; phase = "generation"] *)
Definition launch (ticks : Q) (s0 : state G) : option (app G) :=
  s ← init GRID_WIDTH GRID_HEIGHT ticks s0;
  Some (App generation (Some run_step) s None).

(** Rounds of the main loop, one for each pair of clock readings. *)
Fixpoint frames (fuel : nat) (readings : list (Q * Q)) (a : app G) : option (app G) :=
  match readings with
  | [] => Some a
  | (current_time, solution_ticks) :: rest =>
      a' ← frame fuel current_time solution_ticks a;
      frames fuel rest a'
  end.

(** No bucket holds a wall: [step] has nothing left to try. *)
Definition complete (s : state G) : Prop :=
  ∀ i q, wall_queues s !! i = Some q → q = [].

(** What holds of the module variables between rounds. *)
Definition maze_inv (ticks : Q) (s : state G) : Prop :=
  gen_inv GRID_WIDTH GRID_HEIGHT (λ _, True) s ∧
  timed GRID_WIDTH GRID_HEIGHT ticks s ∧
  remaining GRID_WIDTH GRID_HEIGHT s ≤ 8 * (GRID_WIDTH * GRID_HEIGHT) ∧
  ∃ sx fx, start_x s = Some sx ∧ sx < GRID_WIDTH ∧
           finish_x s = Some fx ∧ fx < GRID_WIDTH.

Definition app_inv (ticks : Q) (a : app G) : Prop :=
  maze_inv ticks (maze a) ∧
  match phase a, current_state a, search a with
  | generation, Some run_step, None => True
  | solution, Some run_solution_step, Some v =>
      complete (maze a) ∧
      ∃ sx, start_x (maze a) = Some sx ∧
            bfs_inv GRID_WIDTH GRID_HEIGHT (walls_by_index (maze a)) (sx, 0) v
  | solution, None, Some v =>
      complete (maze a) ∧
      ∃ fx path, finish_x (maze a) = Some fx ∧
                 traced GRID_WIDTH GRID_HEIGHT (walls_by_index (maze a)) fx v path
  | _, _, _ => False
  end.

Lemma step_maze_inv ticks (s : state G) :
  maze_inv ticks s →
  (step GRID_WIDTH GRID_HEIGHT s = Some (false, s) ∧ complete s) ∨
  (∃ s', step GRID_WIDTH GRID_HEIGHT s = Some (true, s') ∧ maze_inv ticks s' ∧
         remaining GRID_WIDTH GRID_HEIGHT s' < remaining GRID_WIDTH GRID_HEIGHT s).
Proof.
  intros (Hinv & Ht & Hrem & sx & fx & Hsx & Hsxlt & Hfx & Hfxlt).
  destruct (step_inv _ _ s Hinv) as [[E Hempty]|(s' & E & Hinv' & _ & _ & Hlt)].
  - by left.
  - right. exists s'. split; [done|]. split; [|done].
    split; [done|]. split; [exact (step_timed _ _ ticks s true s' Hinv Ht E)|].
    split; [lia|].
    destruct (step_ends _ _ _ _ _ E) as [Es Ef]. exists sx, fx.
    by rewrite Es, Ef.
Qed.

(** The loop in the generation phase ends: with the maze complete, or
    because the timer has caught up with the clock. *)
Lemma pump_generation ticks current_time fuel (s : state G) :
  maze_inv ticks s → remaining GRID_WIDTH GRID_HEIGHT s < fuel →
  ∃ s', maze_inv ticks s' ∧
    ((pump fuel current_time (App generation (Some run_step) s None)
      = Some (App generation None s' None) ∧ complete s') ∨
     (pump fuel current_time (App generation (Some run_step) s None)
      = Some (App generation (Some run_step) s' None) ∧
      (current_time <= progress_time s')%Q)).
Proof.
  revert s. induction fuel as [|fuel IH]; intros s Hinv Hfuel; [lia|].
  cbn [pump timer search maze current_state phase].
  destruct (Qlt_le_dec (progress_time s) current_time) as [Hlt|Hge].
  - destruct (step_maze_inv ticks s Hinv) as [[E Hc]|(s1 & E & Hinv1 & Hrem)];
      rewrite E; cbn [mbind option_bind].
    + exists s. split; [done|]. by left.
    + apply IH; [done|lia].
  - exists s. split; [done|]. by right.
Qed.

Lemma complete_step (s : state G) :
  length (wall_queues s) = 9 → complete s →
  step GRID_WIDTH GRID_HEIGHT s = Some (false, s).
Proof.
  intros Hl Hc. unfold step.
  destruct (selection_spec s Hl) as [[-> _]|(i & q & _ & Hq & Hne)]; [done|].
  by specialize (Hc i q Hq).
Qed.

(** On a complete maze the search cannot end without reaching the exit. *)
Lemma not_stuck ticks (s : state G) sx fx v :
  maze_inv ticks s → complete s → 0 < GRID_HEIGHT →
  start_x s = Some sx → finish_x s = Some fx →
  bfs_inv GRID_WIDTH GRID_HEIGHT (walls_by_index s) (sx, 0) v →
  stuck GRID_HEIGHT fx v → False.
Proof.
  intros (Hinv & _ & _ & sx' & fx' & Hsx' & Hsxlt & Hfx' & Hfxlt) Hc HH Hsx Hfx Hbfs
         [Hzero Hnil].
  rewrite Hsx in Hsx'. rewrite Hfx in Hfx'. simplify_eq.
  pose proof (gi_walls _ _ _ _ Hinv) as Hok.
  assert (Hconn : connected GRID_WIDTH (walls_by_index s)
            (cell_of GRID_WIDTH (sx', 0)) (cell_of GRID_WIDTH (fx', GRID_HEIGHT - 1))).
  { assert (cell_of GRID_WIDTH (sx', 0) < GRID_WIDTH * GRID_HEIGHT)
      by (unfold cell_of; simpl; nia).
    assert (cell_of GRID_WIDTH (fx', GRID_HEIGHT - 1) < GRID_WIDTH * GRID_HEIGHT)
      by (unfold cell_of; simpl; nia).
    apply (gi_connected _ _ _ _ Hinv); [done..|].
    by apply (all_cells_same _ _ s Hinv Hc). }
  destruct (connected_path _ _ _ (sx', 0) _ _ Hok Hconn (sx', 0) 1) with
    (cb := (fx', GRID_HEIGHT - 1)) as [d Hp];
    [split; simpl; lia | done | constructor | split; simpl; lia | done |].
  destruct (bfs_exhausted _ _ _ _ _ Hbfs Hnil d _ Hp) as (d0 & Hd0 & Hne).
  cbn [fst snd] in Hd0. congruence.
Qed.

(** The loop in the solution phase ends: with the path drawn, or because
    the timer has caught up with the clock. *)
Lemma pump_solution ticks current_time fuel (s : state G) sx v :
  maze_inv ticks s → complete s → 0 < GRID_HEIGHT → start_x s = Some sx →
  bfs_inv GRID_WIDTH GRID_HEIGHT (walls_by_index s) (sx, 0) v →
  unvisited (solution_state v) < fuel →
  ∃ v',
    (pump fuel current_time (App solution (Some run_solution_step) s (Some v))
     = Some (App solution (Some run_solution_step) s (Some v')) ∧
     bfs_inv GRID_WIDTH GRID_HEIGHT (walls_by_index s) (sx, 0) v' ∧
     (current_time <= solving_time v')%Q) ∨
    (pump fuel current_time (App solution (Some run_solution_step) s (Some v))
     = Some (App solution None s (Some v')) ∧
     ∃ fx path, finish_x s = Some fx ∧
       traced GRID_WIDTH GRID_HEIGHT (walls_by_index s) fx v' path).
Proof.
  intros Hmaze Hc HH Hsx. revert v.
  induction fuel as [|fuel IH]; intros v Hbfs Hfuel; [lia|].
  cbn [pump timer search maze current_state phase].
  destruct (Qlt_le_dec (solving_time v) current_time) as [Hlt|Hge];
    [|exists v; by left].
  cbn [mbind option_bind].
  destruct Hmaze as (Hinv & Ht & Hrem & sx' & fx & Hsx' & Hsxlt & Hfx & Hfxlt).
  destruct (solution_step_spec _ _ s (sx, 0) fx v (gi_walls _ _ _ _ Hinv) Hfx Hfxlt HH Hbfs)
    as (more & v' & -> & Hbfs' & Hmore).
  cbn [mbind option_bind]. destruct more.
  - apply IH; [done|lia].
  - exists v'. right. split; [done|]. exists fx.
    destruct Hmore as [Hstuck|[path Hpath]]; [|by exists path].
    exfalso. eapply (not_stuck ticks s sx fx v'); try done.
    split; [done|]. split; [done|]. split; [done|]. by exists sx', fx.
Qed.

Lemma frame_inv ticks fuel current_time solution_ticks (a : app G) :
  0 < GRID_HEIGHT → 8 * (GRID_WIDTH * GRID_HEIGHT) < fuel → app_inv ticks a →
  ∃ a', frame fuel current_time solution_ticks a = Some a' ∧ app_inv ticks a' ∧
    (phase a = solution → phase a' = solution) ∧
    (phase a' = generation → (current_time <= progress_time (maze a'))%Q).
Proof.
  intros HH Hfuel [Hmaze Hcase]. destruct a as [ph cs s sr]. unfold frame.
  cbn [phase current_state maze search] in *.
  destruct ph, cs as [[|]|], sr as [v|]; try done.
  - destruct (pump_generation ticks current_time fuel s Hmaze)
      as (s' & Hmaze' & [[-> Hc]|[-> Hge]]); [destruct Hmaze as (_ & _ & ? & _); lia|..];
      cbn [mbind option_bind phase current_state maze].
    + destruct Hmaze' as (Hinv' & Ht' & Hrem' & sx & fx & Hsx & Hsxlt & Hfx & Hfxlt).
      destruct (init_solution_spec _ _ (walls_by_index s') solution_ticks s' sx
                  Hsx Hsxlt HH) as (v0 & -> & Hbfs & _).
      cbn [mbind option_bind]. eexists. split; [done|]. split; [|done].
      split; [split; [done|]; split; [done|]; split; [done|]; by exists sx, fx|].
      cbn [phase current_state maze search]. split; [done|]. by exists sx.
    + eexists. split; [done|]. split; [by split|]. done.
  - destruct Hcase as (Hc & sx & Hsx & Hbfs).
    destruct (pump_solution ticks current_time fuel s sx v Hmaze Hc HH Hsx Hbfs)
      as (v' & [(-> & Hbfs' & _)|(-> & Hdone)]).
    + pose proof (unvisited_le GRID_WIDTH GRID_HEIGHT _ (bi_shaped _ _ _ _ _ Hbfs)). lia.
    + cbn [mbind option_bind phase current_state]. eexists. split; [done|].
      split; [|done]. split; [done|]. cbn [phase current_state maze search].
      split; [done|]. by exists sx.
    + cbn [mbind option_bind phase current_state]. eexists. split; [done|].
      split; [|done]. split; [done|]. cbn [phase current_state maze search]. by split.
  - destruct fuel as [|fuel]; [lia|]. cbn [pump current_state].
    destruct (Qlt_le_dec _ _); cbn [mbind option_bind phase current_state];
      (eexists; split; [done|]; split; [by split|done]).
Qed.

Lemma frames_inv ticks fuel readings (a : app G) :
  0 < GRID_HEIGHT → 8 * (GRID_WIDTH * GRID_HEIGHT) < fuel → app_inv ticks a →
  ∃ a', frames fuel readings a = Some a' ∧ app_inv ticks a'.
Proof.
  intros HH Hfuel. revert a.
  induction readings as [|[t t'] readings IH]; intros a Hinv; [by exists a|].
  cbn [frames].
  destruct (frame_inv ticks fuel t t' a HH Hfuel Hinv) as (a1 & -> & Hinv1 & _).
  cbn [mbind option_bind]. by apply IH.
Qed.

Lemma launch_inv ticks (s0 : state G) :
  0 < GRID_WIDTH →
  ∃ a0, launch ticks s0 = Some a0 ∧ app_inv ticks a0.
Proof.
  intros HW. unfold launch.
  destruct (init_spec GRID_WIDTH GRID_HEIGHT ticks s0 HW)
    as (s1 & Hinit & Hinv1 & Hzero & Hrem & (sx & Hsx & Hsxlt) & (fx & Hfx & Hfxlt)).
  rewrite Hinit. cbn [mbind option_bind]. eexists. split; [done|].
  split; [|done]. cbn [maze]. split; [done|]. split.
  - unfold timed. rewrite Hzero, (init_time _ _ _ _ _ Hinit). simpl. ring.
  - split; [done|]. by exists sx, fx.
Qed.



End MainLoop.




(** ** The search on any maze of a run *)

Section Search.

Context {G : Type} `{RandomSource G} `{MathPow}.
Variables (GRID_WIDTH GRID_HEIGHT : nat).

Lemma path_connected walls src d c :
  path_len GRID_WIDTH GRID_HEIGHT walls src d c →
  connected GRID_WIDTH walls (cell_of GRID_WIDTH src) (cell_of GRID_WIDTH c).
Proof.
  induction 1 as [|d c c' Hp IH (_ & _ & Hpass)]; [constructor|].
  eapply connected_trans; [exact IH|].
  eapply connected_step; [exact Hpass|constructor].
Qed.

(** X17. On the maze of any state of a run, complete or not, the search
    ends within [W * H] calls of [solution_step].  It draws a path from
    the exit exactly when removed walls join the exit to the entrance;
    otherwise it stops with an empty frontier and the exit at depth 0. *)
Theorem search_decides_reachability ticks solution_ticks (s0 s1 s : state G) n :
  0 < GRID_WIDTH → 0 < GRID_HEIGHT →
  init GRID_WIDTH GRID_HEIGHT ticks s0 = Some s1 →
  steps GRID_WIDTH GRID_HEIGHT n s1 = Some s →
  ∃ sx fx v0 v,
    start_x s = Some sx ∧ finish_x s = Some fx ∧
    init_solution GRID_WIDTH GRID_HEIGHT solution_ticks s = Some v0 ∧
    solve GRID_WIDTH GRID_HEIGHT (GRID_WIDTH * GRID_HEIGHT) s v0 = Some v ∧
    ((connected GRID_WIDTH (walls_by_index s)
        (cell_of GRID_WIDTH (sx, 0)) (cell_of GRID_WIDTH (fx, GRID_HEIGHT - 1)) ∧
      ∃ path, traced GRID_WIDTH GRID_HEIGHT (walls_by_index s) fx v path) ∨
     (¬ connected GRID_WIDTH (walls_by_index s)
          (cell_of GRID_WIDTH (sx, 0)) (cell_of GRID_WIDTH (fx, GRID_HEIGHT - 1)) ∧
      stuck GRID_HEIGHT fx v)).
Proof.
  intros HW HH Hinit Hsteps.
  destruct (init_spec GRID_WIDTH GRID_HEIGHT ticks s0 HW)
    as (s1' & Hinit' & Hinv1 & _ & _ & (sx & Hsx & Hsxlt) & (fx & Hfx & Hfxlt)).
  rewrite Hinit in Hinit'. injection Hinit' as <-.
  destruct (steps_inv _ _ _ _ _ Hinv1 Hsteps) as [Hinv _].
  destruct (steps_ends _ _ _ _ _ Hsteps) as [Es Ef].
  rewrite Hsx in Es. rewrite Hfx in Ef.
  pose proof (gi_walls _ _ _ _ Hinv) as Hok.
  destruct (init_solution_spec _ _ (walls_by_index s) solution_ticks s sx Es Hsxlt HH)
    as (v0 & Hv0 & Hbfs0 & Hun).
  destruct (solve_spec _ _ s (sx, 0) fx Hok Ef Hfxlt HH _ v0 Hbfs0 Hun)
    as (v & Hsolve & Hbfs & Hend).
  exists sx, fx, v0, v. split; [done|]. split; [done|]. split; [done|].
  split; [done|]. destruct Hend as [Hstuck|[path Htr]].
  - right. split; [|done]. intros Hconn. destruct Hstuck as [Hzero Hnil].
    destruct (connected_path _ _ _ (sx, 0) _ _ Hok Hconn (sx, 0) 1) with
      (cb := (fx, GRID_HEIGHT - 1)) as [d Hp];
      [split; simpl; lia | done | constructor | split; simpl; lia | done |].
    destruct (bfs_exhausted _ _ _ _ _ Hbfs Hnil d _ Hp) as (d0 & Hd0 & Hne).
    cbn [fst snd] in Hd0. congruence.
  - left. split; [|by exists path].
    destruct Htr as (d & drawn & Hd & Hd0 & _).
    destruct (bi_sound _ _ _ _ _ Hbfs (fx, GRID_HEIGHT - 1) d Hd Hd0) as [_ Hp].
    by apply path_connected in Hp.
Qed.

(** Up to [n] calls of [solution_step], none after the first one that
    answers [False]. *)
Fixpoint solution_steps (n : nat) (s : state G) (v : solving) : option (bool * solving) :=
  match n with
  | 0 => Some (true, v)
  | S m =>
      '(more, v1) ← solution_steps m s v;
      if (more : bool) then solution_step GRID_WIDTH GRID_HEIGHT s v1
      else Some (false, v1)
  end.

Lemma init_solution_depth ticks (s : state G) v0 :
  init_solution GRID_WIDTH GRID_HEIGHT ticks s = Some v0 → solution_depth v0 = 1.
Proof.
  unfold init_solution. intros Hv.
  destruct (start_x s) as [sx|]; [|done]. cbn [mbind option_bind] in Hv.
  destruct (state_at _ sx 0); [|done]. cbn [mbind option_bind] in Hv.
  by simplify_eq.
Qed.

Lemma solution_step_layer (s : state G) src fx v :
  walls_ok GRID_WIDTH GRID_HEIGHT (walls_by_index s) →
  finish_x s = Some fx → fx < GRID_WIDTH → 0 < GRID_HEIGHT →
  bfs_inv GRID_WIDTH GRID_HEIGHT (walls_by_index s) src v →
  ∃ more v', solution_step GRID_WIDTH GRID_HEIGHT s v = Some (more, v') ∧
    bfs_inv GRID_WIDTH GRID_HEIGHT (walls_by_index s) src v' ∧
    solution_depth v' = S (solution_depth v).
Proof.
  intros Hok Hfx HW HH Hinv.
  destruct (solution_step_spec _ _ s src fx v Hok Hfx HW HH Hinv)
    as (more & v' & Hstep & Hinv' & _).
  exists more, v'. split; [done|]. split; [done|].
  destruct (expand_bfs _ _ _ _ _ Hok Hinv) as (v2 & Hex & _ & Hdepth & _).
  unfold next_layer in Hex. unfold solution_step in Hstep. cbv zeta in Hstep.
  rewrite Hex, Hfx in Hstep. cbn [mbind option_bind solution_state] in Hstep.
  destruct (state_at _ fx _) as [d|]; [|done]. cbn [mbind option_bind] in Hstep.
  case_decide; [by simplify_eq|].
  destruct (backtrace _ _ _ _ _ _ _) as [path|]; [|done].
  cbn [mbind option_bind] in Hstep. by simplify_eq.
Qed.

Lemma solution_steps_inv (s : state G) src fx n v0 v :
  walls_ok GRID_WIDTH GRID_HEIGHT (walls_by_index s) →
  finish_x s = Some fx → fx < GRID_WIDTH → 0 < GRID_HEIGHT →
  bfs_inv GRID_WIDTH GRID_HEIGHT (walls_by_index s) src v0 →
  solution_steps n s v0 = Some (true, v) →
  bfs_inv GRID_WIDTH GRID_HEIGHT (walls_by_index s) src v ∧
  solution_depth v = n + solution_depth v0.
Proof.
  intros Hok Hfx HW HH Hinv0. revert v.
  induction n as [|n IH]; intros v Hv; cbn [solution_steps] in Hv.
  { by simplify_eq. }
  destruct (solution_steps n s v0) as [[more1 v1]|]; [|done].
  cbn [mbind option_bind] in Hv. destruct more1; [|done].
  destruct (IH v1 eq_refl) as [Hinv1 Hd1].
  destruct (solution_step_layer s src fx v1 Hok Hfx HW HH Hinv1)
    as (more & v' & Hstep & Hinv' & Hd').
  rewrite Hstep in Hv. simplify_eq. split; [done|]. lia.
Qed.

(** X18. The search works in layers.  After [n] calls of [solution_step]
    that answered [True] the depth counter stands at [n + 1] and the
    frontier holds exactly the cells of depth [n + 1].  The next call
    never raises, moves the counter to [n + 2], leaves every depth already
    assigned as it is, and its frontier holds exactly the cells of depth
    [n + 2], all of which had no depth before. *)
Theorem search_advances_by_layers ticks solution_ticks (s0 s1 s : state G) k n v0 v :
  0 < GRID_WIDTH → 0 < GRID_HEIGHT →
  init GRID_WIDTH GRID_HEIGHT ticks s0 = Some s1 →
  steps GRID_WIDTH GRID_HEIGHT k s1 = Some s →
  init_solution GRID_WIDTH GRID_HEIGHT solution_ticks s = Some v0 →
  solution_steps n s v0 = Some (true, v) →
  solution_depth v = n + 1 ∧
  (∀ c, c ∈ solution_level v ↔ state_at (solution_state v) c.1 c.2 = Some (n + 1)) ∧
  ∃ more v',
    solution_step GRID_WIDTH GRID_HEIGHT s v = Some (more, v') ∧
    solution_depth v' = n + 2 ∧
    (∀ c d, state_at (solution_state v) c.1 c.2 = Some d → d ≠ 0 →
            state_at (solution_state v') c.1 c.2 = Some d) ∧
    (∀ c, c ∈ solution_level v' ↔
          state_at (solution_state v') c.1 c.2 = Some (n + 2)) ∧
    (∀ c, c ∈ solution_level v' → state_at (solution_state v) c.1 c.2 = Some 0).
Proof.
  intros HW HH Hinit Hsteps Hv0 Hv.
  destruct (init_spec GRID_WIDTH GRID_HEIGHT ticks s0 HW)
    as (s1' & Hinit' & Hinv1 & _ & _ & (sx & Hsx & Hsxlt) & (fx & Hfx & Hfxlt)).
  rewrite Hinit in Hinit'. injection Hinit' as <-.
  destruct (steps_inv _ _ _ _ _ Hinv1 Hsteps) as [Hinv _].
  destruct (steps_ends _ _ _ _ _ Hsteps) as [Es Ef].
  rewrite Hsx in Es. rewrite Hfx in Ef.
  pose proof (gi_walls _ _ _ _ Hinv) as Hok.
  destruct (init_solution_spec _ _ (walls_by_index s) solution_ticks s sx Es Hsxlt HH)
    as (v0' & Hv0' & Hbfs0 & _).
  rewrite Hv0 in Hv0'. injection Hv0' as <-.
  destruct (solution_steps_inv s (sx, 0) fx n v0 v Hok Ef Hfxlt HH Hbfs0 Hv)
    as [Hbfs Hd].
  rewrite (init_solution_depth _ _ _ Hv0) in Hd.
  split; [done|]. split.
  { intros c. rewrite <- Hd. apply (bi_level _ _ _ _ _ Hbfs). }
  destruct (solution_step_layer s (sx, 0) fx v Hok Ef Hfxlt HH Hbfs)
    as (more & v' & Hstep & Hbfs' & Hd').
  exists more, v'. split; [done|]. split; [lia|].
  assert (Hkept : ∀ c d, state_at (solution_state v) c.1 c.2 = Some d → d ≠ 0 →
                         state_at (solution_state v') c.1 c.2 = Some d).
  { intros c d Hc Hne.
    destruct (bfs_inv_exact _ _ _ _ _ c d Hbfs Hc Hne) as [Hp Hmin].
    destruct (bi_sound _ _ _ _ _ Hbfs c d Hc Hne) as [Hle _].
    destruct (bi_complete _ _ _ _ _ Hbfs' c d Hp ltac:(lia)) as (d0 & Hc' & Hne' & Hle').
    destruct (bfs_inv_exact _ _ _ _ _ c d0 Hbfs' Hc' Hne') as [Hp' _].
    specialize (Hmin d0 Hp'). by replace d with d0 by lia. }
  split; [done|]. split.
  { intros c. replace (n + 2) with (solution_depth v') by lia.
    apply (bi_level _ _ _ _ _ Hbfs'). }
  intros c Hc. apply (bi_level _ _ _ _ _ Hbfs') in Hc.
  assert (Hin : inside GRID_WIDTH GRID_HEIGHT c).
  { destruct c as [x y].
    exact (state_at_Some_inside _ _ _ x y _ (bi_shaped _ _ _ _ _ Hbfs') Hc). }
  destruct (state_at_inside _ _ _ c (bi_shaped _ _ _ _ _ Hbfs) Hin) as [d Hd0].
  destruct (decide (d = 0)) as [->|Hne]; [done|]. exfalso.
  destruct (bi_sound _ _ _ _ _ Hbfs c d Hd0 Hne) as [Hle _].
  rewrite (Hkept c d Hd0 Hne) in Hc. injection Hc as ->. lia.
Qed.

End Search.

Lemma search_decides_reachability_witness :
  ∃ sx fx v0 v,
    start_x start_3x3 = Some sx ∧ finish_x start_3x3 = Some fx ∧
    init_solution 3 3 0 start_3x3 = Some v0 ∧
    solve 3 3 (3 * 3) start_3x3 v0 = Some v ∧
    ((connected 3 (walls_by_index start_3x3)
        (cell_of 3 (sx, 0)) (cell_of 3 (fx, 3 - 1)) ∧
      ∃ path, traced 3 3 (walls_by_index start_3x3) fx v path) ∨
     (¬ connected 3 (walls_by_index start_3x3)
          (cell_of 3 (sx, 0)) (cell_of 3 (fx, 3 - 1)) ∧
      stuck 3 fx v)).
Proof.
  apply (search_decides_reachability 3 3 0 0 (blank 7) start_3x3 start_3x3 0).
  - lia.
  - lia.
  - vm_compute. reflexivity.
  - reflexivity.
Defined.

(** The search on the 3 by 3 maze: as [init_solution] leaves it, and after
    one call of [solution_step]. *)
Definition search_3x3_0 : solving :=
  Eval vm_compute in default (Solving [] [] 0 0 []) (init_solution 3 3 0 final_3x3).

Definition search_3x3_1 : solving :=
  Eval vm_compute in
    default (Solving [] [] 0 0 []) (snd <$> solution_steps 3 3 1 final_3x3 search_3x3_0).

Lemma search_advances_by_layers_witness :
  solution_depth search_3x3_1 = 1 + 1 ∧
  ∃ more v',
    solution_step 3 3 final_3x3 search_3x3_1 = Some (more, v') ∧
    solution_depth v' = 1 + 2 ∧
    (∀ c d, state_at (solution_state search_3x3_1) c.1 c.2 = Some d → d ≠ 0 →
            state_at (solution_state v') c.1 c.2 = Some d).
Proof.
  destruct (search_advances_by_layers 3 3 0 0 (blank 7) start_3x3 final_3x3 32 1
              search_3x3_0 search_3x3_1
              ltac:(lia) ltac:(lia) ltac:(vm_compute; reflexivity)
              ltac:(vm_compute; reflexivity) ltac:(vm_compute; reflexivity)
              ltac:(vm_compute; reflexivity))
    as (Hd & _ & more & v' & Hstep & Hd' & Hkept & _).
  split; [exact Hd|]. exists more, v'. split; [exact Hstep|].
  split; [exact Hd'|exact Hkept].
Defined.

(** ** What [try_wall] removes *)

Section Removal.

Context {G : Type} `{RandomSource G} `{MathPow}.
Variables (GRID_WIDTH GRID_HEIGHT : nat).

(** Cells joined by removed walls share a representative. *)
Lemma connected_same P (s : state G) a b :
  gen_inv GRID_WIDTH GRID_HEIGHT P s →
  connected GRID_WIDTH (walls_by_index s) a b → UF.same (union_find s) a b.
Proof.
  intros Hinv. induction 1 as [a|a b c (r & w & Hw & Hclr & Hab) _ IH]; [done|].
  pose proof (gi_removed _ _ _ _ Hinv r w Hw Hclr) as Hsame.
  unfold UF.same in *. rewrite <- IH.
  destruct Hab as [[-> ->]|[-> ->]]; congruence.
Qed.

(** X19. In every state of a run [try_wall] never raises, and it removes
    the wall exactly when no chain of removed walls joins the two cells
    the wall separates.  When it answers [False] the walls and the buckets
    are as before; when it answers [True] one more wall is removed and no
    wall lost its type or came back. *)
Theorem try_wall_joins_separate_cells ticks (s0 s1 s : state G) n r w :
  0 < GRID_WIDTH → init GRID_WIDTH GRID_HEIGHT ticks s0 = Some s1 →
  steps GRID_WIDTH GRID_HEIGHT n s1 = Some s →
  deref (walls_by_index s) r = Some w →
  ∃ b s', try_wall GRID_WIDTH GRID_HEIGHT r s = Some (b, s') ∧
    (b = true ↔
     ¬ connected GRID_WIDTH (walls_by_index s)
         (cell_index1 GRID_WIDTH w) (cell_index2 GRID_WIDTH w)) ∧
    (b = false →
     walls_by_index s' = walls_by_index s ∧ wall_queues s' = wall_queues s) ∧
    (b = true →
     removed_count (walls_by_index s') = S (removed_count (walls_by_index s)) ∧
     walls_le (walls_by_index s) (walls_by_index s')).
Proof.
  intros HW Hinit Hsteps Hr.
  pose proof (run_inv GRID_WIDTH GRID_HEIGHT ticks s0 s1 s n HW Hinit Hsteps) as Hinv.
  assert (Hinv' : gen_inv GRID_WIDTH GRID_HEIGHT (λ r', r' ≠ r) s)
    by (apply (gen_inv_mono _ _ (λ _, True)); [done|exact Hinv]).
  destruct (try_wall_inv _ _ r s w Hinv' Hr) as (b & s' & Htry & _ & Hle & Hb).
  exists b, s'. split; [done|]. split; [|split].
  - rewrite (try_wall_eq _ _ r s w Hr) in Htry.
    destruct (cell_index_lt _ _ _ _ _ (gi_walls _ _ _ _ Hinv) Hr) as (Hc1 & Hc2 & _).
    destruct (wall_clr w) eqn:Hclr.
    { simplify_eq. split; [done|]. intros Hno. exfalso. apply Hno.
      eapply connected_step; [|constructor]. exists r, w. auto. }
    destruct (decide (UF.root (union_find s) (cell_index1 GRID_WIDTH w)
                      = UF.root (union_find s) (cell_index2 GRID_WIDTH w))) as [Heq|Hne].
    + destruct (UF.union_same _ _ _ (gi_uf _ _ _ _ Hinv) Heq) as (a' & Hun & _).
      rewrite Hun in Htry. cbn [mbind option_bind] in Htry. simplify_eq.
      split; [done|]. intros Hno. exfalso. apply Hno.
      by apply (gi_connected _ _ _ _ Hinv).
    + destruct (UF.union_merge _ _ _ (gi_uf _ _ _ _ Hinv) Hne) as (a' & Hun & _).
      rewrite Hun in Htry. cbn [mbind option_bind] in Htry.
      destruct (for_each _ _ _) as [s4|]; [|done].
      cbn [mbind option_bind] in Htry. simplify_eq. split; [|done].
      intros _ Hconn. apply Hne. by apply (connected_same _ s _ _ Hinv).
  - intros ->. exact Hb.
  - intros ->. destruct Hb as [Hcnt _]. by split.
Qed.

End Removal.

Lemma try_wall_joins_separate_cells_witness :
  ∃ b s', try_wall 3 3 1 stale_3x3 = Some (b, s') ∧
    (b = true ↔
     ¬ connected 3 (walls_by_index stale_3x3)
         (cell_index1 3 (Wall 0 0 false 1 true))
         (cell_index2 3 (Wall 0 0 false 1 true))).
Proof.
  destruct (try_wall_joins_separate_cells 3 3 0 (blank 7) start_3x3 stale_3x3 17
              1 (Wall 0 0 false 1 true)
              ltac:(lia) ltac:(vm_compute; reflexivity)
              ltac:(vm_compute; reflexivity) ltac:(reflexivity))
    as (b & s' & Htry & Hiff & _).
  exists b, s'. split; [exact Htry|exact Hiff].
Defined.

(** ** Wall types are never stale *)

Section Types.

Context {G : Type} `{RandomSource G} `{MathPow}.
Variables (GRID_WIDTH GRID_HEIGHT : nat).

(** Neighbour [k] of a wall, [None] where [get_neighbour] answers [None]. *)
Definition nb (walls : list (option wall)) (w : wall) (k : nat) : option nat :=
  default None (get_neighbour GRID_WIDTH GRID_HEIGHT walls w k).

(** Whether neighbour [k] is there and removed. *)
Definition fl (walls : list (option wall)) (w : wall) (k : nat) : bool :=
  is_removed (wall_of walls (nb walls w k)).

(** [get_wall_end_type] as a function of the three tests it makes. *)
Definition end_type (c1 c2 c3 : bool) : nat :=
  if c1 then if c3 then 2 else if c2 then 2 else 1
  else if c3 then if c2 then 2 else 1 else 0.

(** The type [update_wall_type] computes for a wall. *)
Definition ctype (walls : list (option wall)) (w : wall) : nat :=
  end_type (fl walls w 0) (fl walls w 1) (fl walls w 2) * 3
  + end_type (fl walls w 3) (fl walls w 4) (fl walls w 5).

(** Every wall carries the type computed from its neighbours. *)
Definition typed (walls : list (option wall)) : Prop :=
  ∀ r w, deref walls r = Some w → wall_typ w = ctype walls w.

Lemma end_type_mono c1 c2 c3 d1 d2 d3 :
  (c1 = true → d1 = true) → (c2 = true → d2 = true) → (c3 = true → d3 = true) →
  end_type c1 c2 c3 ≤ end_type d1 d2 d3.
Proof.
  destruct c1, c2, c3, d1, d2, d3; simpl; intros H1 H2 H3; try lia;
    exfalso; first [by specialize (H1 eq_refl) | by specialize (H2 eq_refl)
                   | by specialize (H3 eq_refl)].
Qed.

Lemma classify_ctype walls w :
  walls_ok GRID_WIDTH GRID_HEIGHT walls →
  classify GRID_WIDTH GRID_HEIGHT walls w = Some (ctype walls w).
Proof.
  intros Hok. unfold classify, ctype, fl, nb.
  destruct (get_neighbour_ok _ _ walls w 0 Hok) as (n0 & -> & _).
  destruct (get_neighbour_ok _ _ walls w 1 Hok) as (n1 & -> & _).
  destruct (get_neighbour_ok _ _ walls w 2 Hok) as (n2 & -> & _).
  destruct (get_neighbour_ok _ _ walls w 3 Hok) as (n3 & -> & _).
  destruct (get_neighbour_ok _ _ walls w 4 Hok) as (n4 & -> & _).
  destruct (get_neighbour_ok _ _ walls w 5 Hok) as (n5 & -> & _).
  reflexivity.
Qed.

Lemma get_wall_insert walls r w0 w2 x y h :
  deref walls r = Some w0 →
  get_wall GRID_WIDTH GRID_HEIGHT (<[r := Some w2]> walls) x y h
  = get_wall GRID_WIDTH GRID_HEIGHT walls x y h.
Proof.
  intros Hr. apply deref_Some in Hr. unfold get_wall.
  case_bool_decide; [|done]. set (i := Z.to_nat _).
  destruct (decide (i = r)) as [->|Hne].
  - rewrite list_lookup_insert_eq by (by eapply lookup_lt_Some). by rewrite Hr.
  - by rewrite list_lookup_insert_ne.
Qed.

Lemma nb_insert walls r w0 w2 w k :
  deref walls r = Some w0 → nb (<[r := Some w2]> walls) w k = nb walls w k.
Proof.
  intros Hr. unfold nb, get_neighbour.
  destruct (_ !! k) as [[[dx dy] h]|]; [|done].
  by rewrite (get_wall_insert walls r w0 w2).
Qed.

Lemma nb_coords walls w w' k :
  wall_x w' = wall_x w → wall_y w' = wall_y w → wall_dr w' = wall_dr w →
  nb walls w' k = nb walls w k.
Proof. intros Ex Ey Ed. unfold nb, get_neighbour. by rewrite Ex, Ey, Ed. Qed.

Lemma fl_coords walls w w' k :
  wall_x w' = wall_x w → wall_y w' = wall_y w → wall_dr w' = wall_dr w →
  fl walls w' k = fl walls w k.
Proof. intros Ex Ey Ed. unfold fl. by rewrite (nb_coords walls w w'). Qed.

Lemma ctype_coords walls w w' :
  wall_x w' = wall_x w → wall_y w' = wall_y w → wall_dr w' = wall_dr w →
  ctype walls w' = ctype walls w.
Proof. intros Ex Ey Ed. unfold ctype. by rewrite !(fl_coords walls w w'). Qed.

(** A change of type touches no test. *)
Lemma fl_insert_typ walls r w0 t w k :
  deref walls r = Some w0 →
  fl (<[r := Some (set_typ t w0)]> walls) w k = fl walls w k.
Proof.
  intros Hr. unfold fl. rewrite (nb_insert walls r w0 _ w k Hr).
  destruct (nb walls w k) as [r'|]; [|done]. unfold wall_of. simpl.
  rewrite deref_insert by (by eapply deref_lt). case_decide; [|done].
  subst r'. by rewrite Hr.
Qed.

(** A removal turns the tests that look at the removed wall, and no
    other. *)
Lemma fl_insert_clr walls r w0 w k :
  deref walls r = Some w0 →
  fl (<[r := Some (set_clr true w0)]> walls) w k
  = if decide (nb walls w k = Some r) then true else fl walls w k.
Proof.
  intros Hr. unfold fl. rewrite (nb_insert walls r w0 _ w k Hr).
  destruct (nb walls w k) as [r'|]; [|by rewrite decide_False].
  unfold wall_of. simpl.
  rewrite deref_insert by (by eapply deref_lt). case_decide.
  - subst r'. by rewrite decide_True.
  - by rewrite decide_False by congruence.
Qed.

Lemma ctype_insert_typ walls r w0 t w :
  deref walls r = Some w0 →
  ctype (<[r := Some (set_typ t w0)]> walls) w = ctype walls w.
Proof. intros Hr. unfold ctype. by rewrite !(fl_insert_typ walls r w0 t w). Qed.

Lemma ctype_insert_clr_le walls r w0 w :
  deref walls r = Some w0 →
  ctype walls w ≤ ctype (<[r := Some (set_clr true w0)]> walls) w.
Proof.
  intros Hr. unfold ctype. rewrite !(fl_insert_clr walls r w0 w) by done.
  apply Nat.add_le_mono; [apply Nat.mul_le_mono_r|];
    apply end_type_mono; intros; case_decide; done.
Qed.

Lemma ctype_insert_clr_eq walls r w0 w :
  deref walls r = Some w0 →
  (∀ k, k < 6 → nb walls w k ≠ Some r) →
  ctype (<[r := Some (set_clr true w0)]> walls) w = ctype walls w.
Proof.
  intros Hr Hno. unfold ctype. rewrite !(fl_insert_clr walls r w0 w) by done.
  rewrite !decide_False by (apply Hno; lia). done.
Qed.

Lemma six_cases (P : nat → Prop) `{∀ k, Decision (P k)} :
  (∃ k, k < 6 ∧ P k) ∨ (∀ k, k < 6 → ¬ P k).
Proof.
  destruct (decide (P 0)); [left; exists 0; split; [lia|done]|].
  destruct (decide (P 1)); [left; exists 1; split; [lia|done]|].
  destruct (decide (P 2)); [left; exists 2; split; [lia|done]|].
  destruct (decide (P 3)); [left; exists 3; split; [lia|done]|].
  destruct (decide (P 4)); [left; exists 4; split; [lia|done]|].
  destruct (decide (P 5)); [left; exists 5; split; [lia|done]|].
  right. intros k Hk. do 6 (destruct k as [|k]; [done|]). lia.
Qed.

Lemma nb_Some walls w k r :
  nb walls w k = Some r ↔
  get_neighbour GRID_WIDTH GRID_HEIGHT walls w k = Some (Some r).
Proof.
  unfold nb. destruct (get_neighbour _ _ walls w k) as [[x|]|]; simpl;
    split; intros; simplify_eq; done.
Qed.

Lemma ctype_le walls w :
  walls_ok GRID_WIDTH GRID_HEIGHT walls → ctype walls w ≤ 8.
Proof.
  intros Hok. destruct (classify_ok _ _ walls w Hok) as (t & Ht & Hle).
  rewrite (classify_ctype walls w Hok) in Ht. by simplify_eq.
Qed.

(** The invariant of the loop over the neighbours in [try_wall]: only a
    neighbour still to come may carry a type below the computed one. *)
Definition settling (w : wall) (l : list nat) (walls : list (option wall)) : Prop :=
  walls_ok GRID_WIDTH GRID_HEIGHT walls ∧
  ∀ r' w', deref walls r' = Some w' →
    wall_typ w' ≤ ctype walls w' ∧
    (wall_typ w' = ctype walls w' ∨ ∃ i, i ∈ l ∧ nb walls w i = Some r').

Lemma update_neighbour_settles w i l (s s' : state G) :
  settling w (i :: l) (walls_by_index s) →
  update_neighbour GRID_WIDTH GRID_HEIGHT w i s = Some s' →
  settling w l (walls_by_index s').
Proof.
  intros [Hok Hset] Hup. unfold update_neighbour in Hup.
  destruct (get_neighbour _ _ (walls_by_index s) w i) as [[nbr|]|] eqn:E;
    cbn [mbind option_bind] in Hup; [| |done].
  - apply nb_Some in E.
    destruct (get_neighbour_ok _ _ (walls_by_index s) w i Hok) as (o & Eo & Hsome).
    apply nb_Some in E as E'. rewrite E' in Eo. injection Eo as <-.
    destruct (Hsome nbr eq_refl) as [wn Hwn].
    rewrite (update_wall_type_eq _ _ nbr s wn (ctype (walls_by_index s) wn) Hwn
               (classify_ctype _ _ Hok)) in Hup.
    destruct (Hset nbr wn Hwn) as [Hle _].
    case_decide as Hlt.
    + destruct (wall_queues s !! _) as [q|]; [|done].
      cbn [mbind option_bind] in Hup. injection Hup as <-.
      cbn [refiled walls_by_index]. split.
      * apply (walls_ok_insert _ _ _ nbr wn); [done..|]. simpl. by apply ctype_le.
      * intros r' w'. rewrite deref_insert by (by eapply deref_lt).
        case_decide as Er.
        -- intros [= <-]. simpl.
           rewrite (ctype_coords _ wn (set_typ _ wn)) by done.
           rewrite (ctype_insert_typ _ nbr wn) by done. split; [lia|by left].
        -- intros Hw'. rewrite (ctype_insert_typ _ nbr wn) by done.
           destruct (Hset r' w' Hw') as [Hle' [Heq|(i' & Hi' & Hnb)]].
           ++ split; [done|by left].
           ++ split; [done|]. right.
              apply elem_of_cons in Hi' as [->|Hi']; [congruence|].
              exists i'. split; [done|]. by rewrite (nb_insert _ nbr wn).
    + injection Hup as <-. split; [done|]. intros r' w' Hw'.
      destruct (Hset r' w' Hw') as [Hle' [Heq|(i' & Hi' & Hnb)]].
      * split; [done|by left].
      * split; [done|].
        apply elem_of_cons in Hi' as [->|Hi']; [|right; by exists i'].
        left. rewrite E in Hnb. injection Hnb as <-.
        rewrite Hwn in Hw'. injection Hw' as <-. lia.
  - injection Hup as <-. split; [done|]. intros r' w' Hw'.
    destruct (Hset r' w' Hw') as [Hle' [Heq|(i' & Hi' & Hnb)]].
    + split; [done|by left].
    + split; [done|].
      apply elem_of_cons in Hi' as [->|Hi']; [|right; by exists i'].
      apply nb_Some in Hnb. congruence.
Qed.

Lemma update_neighbours_settle w l (s s' : state G) :
  settling w l (walls_by_index s) →
  for_each l (update_neighbour GRID_WIDTH GRID_HEIGHT w) s = Some s' →
  typed (walls_by_index s').
Proof.
  revert s. induction l as [|i l IH]; intros s Hset Hs; cbn [for_each] in Hs.
  - injection Hs as <-. intros r w' Hw'.
    destruct Hset as [_ Hset]. destruct (Hset r w' Hw') as [_ [Heq|(i & Hi & _)]];
      [done|by apply elem_of_nil in Hi].
  - destruct (update_neighbour _ _ w i s) as [s1|] eqn:E; [|done].
    cbn [mbind option_bind] in Hs.
    apply (IH s1); [|done]. by eapply update_neighbour_settles.
Qed.

Lemma neighbour_back_lt k : k < 6 → neighbour_back k < 6.
Proof. intros Hk. do 6 (destruct k as [|k]; [simpl; lia|]). lia. Qed.

Lemma opened_settling r w a (s : state G) :
  walls_ok GRID_WIDTH GRID_HEIGHT (walls_by_index s) → typed (walls_by_index s) →
  deref (walls_by_index s) r = Some w →
  settling w (seq 0 6) (walls_by_index (opened r w a s)).
Proof.
  intros Hok Hty Hw. cbn [opened draw_on set_walls set_union_find walls_by_index].
  split.
  { apply (walls_ok_insert _ _ _ r w); [done..|].
    by destruct (wo_wall _ _ _ Hok _ _ Hw) as (_ & _ & ?). }
  intros r' w'. rewrite deref_insert by (by eapply deref_lt). case_decide as Er.
  - intros [= <-].
    rewrite (ctype_coords _ w (set_clr true w)) by done.
    rewrite ctype_insert_clr_eq; [|done|].
    + simpl. rewrite (Hty r w Hw). split; [lia|by left].
    + intros k Hk Hnb. apply nb_Some in Hnb.
      by destruct (get_neighbour_back _ _ _ r w k r Hok Hw Hnb) as (_ & ? & _).
  - intros Hw'. pose proof (ctype_insert_clr_le _ r w w' Hw) as Hle.
    rewrite <- (Hty r' w' Hw') in Hle. split; [done|].
    destruct (six_cases (λ k, nb (walls_by_index s) w' k = Some r))
      as [(k & Hk & Hnb)|Hno].
    + right. apply nb_Some in Hnb.
      destruct (get_neighbour_back _ _ _ r' w' k r Hok Hw' Hnb)
        as (_ & _ & w0 & Hw0 & Hback).
      rewrite Hw in Hw0. injection Hw0 as <-.
      exists (neighbour_back k). split.
      * apply elem_of_seq. pose proof (neighbour_back_lt k Hk). lia.
      * rewrite (nb_insert _ r w) by done. by apply nb_Some.
    + left. rewrite ctype_insert_clr_eq by done. by apply (Hty r' w').
Qed.

Lemma try_wall_typed r (s : state G) w b s' :
  walls_ok GRID_WIDTH GRID_HEIGHT (walls_by_index s) → typed (walls_by_index s) →
  deref (walls_by_index s) r = Some w →
  try_wall GRID_WIDTH GRID_HEIGHT r s = Some (b, s') →
  typed (walls_by_index s').
Proof.
  intros Hok Hty Hw. rewrite (try_wall_eq _ _ r s w Hw).
  destruct (wall_clr w); [by intros [= <- <-]|].
  destruct (UF.union _ _ _) as [[a merged]|]; [|done].
  cbn [mbind option_bind]. destruct merged; [|by intros [= <- <-]].
  destruct (for_each _ _ _) as [s4|] eqn:E; [|done].
  cbn [mbind option_bind]. intros [= <- <-].
  eapply update_neighbours_settle; [|exact E]. by apply opened_settling.
Qed.

Lemma step_typed (s : state G) b s' :
  walls_ok GRID_WIDTH GRID_HEIGHT (walls_by_index s) → typed (walls_by_index s) →
  step GRID_WIDTH GRID_HEIGHT s = Some (b, s') → typed (walls_by_index s').
Proof.
  intros Hok Hty. unfold step.
  destruct (selection s) as [[[i g]|]|]; cbn [mbind option_bind];
    [|by intros [= <- <-]|done].
  unfold take_from. cbn [wall_queues set_rng].
  destruct (wall_queues s !! i) as [q|]; [|done]. cbn [mbind option_bind].
  destruct (pop q) as [[q' r]|]; [|by intros [= <- <-]].
  cbn [walls_by_index set_wall_queues set_rng].
  destruct (deref (walls_by_index s) r) as [w|] eqn:Hw; [|done].
  cbn [mbind option_bind]. case_decide; [|by intros [= <- <-]].
  destruct (try_wall _ _ r _) as [[ok s3]|] eqn:Htry; [|done].
  cbn [mbind option_bind].
  apply try_wall_typed with (w := w) in Htry; [|done..].
  destruct ok; by intros [= <- <-].
Qed.

Lemma init_leaves_init_inv ticks (s0 s1 : state G) :
  0 < GRID_WIDTH → init GRID_WIDTH GRID_HEIGHT ticks s0 = Some s1 →
  init_inv GRID_WIDTH GRID_HEIGHT (GRID_HEIGHT * GRID_WIDTH * 2) s1.
Proof.
  intros HW. unfold init, rand_int. case_decide; [lia|].
  cbn [mbind option_bind].
  destruct (randrange GRID_WIDTH (rng s0)) as [sx g1]. cbn [mbind option_bind].
  destruct (randrange GRID_WIDTH g1) as [fx g2]. cbn [mbind option_bind].
  set (t0 := State _ _ _ _ _ _ _ _).
  destruct (init_rows_inv GRID_WIDTH GRID_HEIGHT 0 GRID_HEIGHT t0)
    as (t1 & Ht1 & Hinv1); [|lia|].
  { unfold t0. split; cbn [union_find walls_by_index wall_queues]; try done.
    - intros i q r (-> & _)%lookup_replicate Hr. by apply elem_of_nil in Hr.
    - intros; lia. }
  rewrite Ht1. cbn [mbind option_bind]. intros [= <-].
  simpl in Hinv1. by eapply init_inv_frame.
Qed.

Lemma init_typed ticks (s0 s1 : state G) :
  0 < GRID_WIDTH → init GRID_WIDTH GRID_HEIGHT ticks s0 = Some s1 →
  typed (walls_by_index s1).
Proof.
  intros HW Hinit. pose proof (init_leaves_init_inv ticks s0 s1 HW Hinit) as Hii.
  assert (Hfl : ∀ w k, fl (walls_by_index s1) w k = false).
  { intros w k. unfold fl. destruct (nb _ w k) as [r'|]; [|done].
    unfold wall_of. simpl. destruct (deref _ r') as [w'|] eqn:Hw'; [|done].
    by destruct (ii_wall _ _ _ _ Hii r' w' Hw') as (_ & _ & _ & ? & _). }
  intros r w Hw. destruct (ii_wall _ _ _ _ Hii r w Hw) as (_ & _ & -> & _).
  unfold ctype. by rewrite !Hfl.
Qed.

(** X20. In every state of a run each wall carries the type that
    [update_wall_type] computes from its neighbours as they are now: the
    loop over the neighbours in [try_wall] brings every type up to date,
    so that [update_wall_type] on any wall would change nothing. *)
Theorem wall_types_are_current ticks (s0 s1 s : state G) n r w :
  0 < GRID_WIDTH → init GRID_WIDTH GRID_HEIGHT ticks s0 = Some s1 →
  steps GRID_WIDTH GRID_HEIGHT n s1 = Some s →
  deref (walls_by_index s) r = Some w →
  classify GRID_WIDTH GRID_HEIGHT (walls_by_index s) w = Some (wall_typ w) ∧
  update_wall_type GRID_WIDTH GRID_HEIGHT r s = Some s.
Proof.
  intros HW Hinit Hsteps Hw.
  destruct (init_spec GRID_WIDTH GRID_HEIGHT ticks s0 HW) as (s1' & Hinit' & Hinv1 & _).
  rewrite Hinit in Hinit'. injection Hinit' as <-.
  assert (Hty : typed (walls_by_index s) ∧
                walls_ok GRID_WIDTH GRID_HEIGHT (walls_by_index s)).
  { pose proof (init_typed ticks s0 s1 HW Hinit) as Hty1. clear Hinit Hw.
    revert s1 Hinv1 Hty1 Hsteps. induction n as [|n IH]; intros s1 Hinv1 Hty1 Hsteps;
      cbn [steps] in Hsteps.
    - injection Hsteps as <-. split; [done|]. apply (gi_walls _ _ _ _ Hinv1).
    - destruct (step _ _ s1) as [[b s2]|] eqn:E; [|done].
      cbn [mbind option_bind] in Hsteps. apply (IH s2); [| |done].
      + destruct (step_inv _ _ s1 Hinv1) as [[E' _]|(s2' & E' & Hinv2 & _)];
          rewrite E' in E; by simplify_eq.
      + eapply step_typed; [apply (gi_walls _ _ _ _ Hinv1)|done|done]. }
  destruct Hty as [Hty Hok].
  assert (Hc : classify GRID_WIDTH GRID_HEIGHT (walls_by_index s) w
               = Some (wall_typ w)).
  { rewrite (classify_ctype _ _ Hok). by rewrite (Hty r w Hw). }
  split; [done|].
  rewrite (update_wall_type_eq _ _ r s w _ Hw Hc). by rewrite decide_False by lia.
Qed.

(** X23. In every state of a run, marking a wall removed never lowers the
    type that [update_wall_type] computes, for any wall, and the computed
    type never exceeds 8: types can only rise as generation proceeds, so
    the test [new_type > wall['typ']] drops nothing but repetitions. *)
Theorem removal_never_lowers_a_type ticks (s0 s1 s : state G) n r w0 (w : wall) :
  0 < GRID_WIDTH → init GRID_WIDTH GRID_HEIGHT ticks s0 = Some s1 →
  steps GRID_WIDTH GRID_HEIGHT n s1 = Some s →
  deref (walls_by_index s) r = Some w0 →
  ∃ t t',
    classify GRID_WIDTH GRID_HEIGHT (walls_by_index s) w = Some t ∧
    classify GRID_WIDTH GRID_HEIGHT
      (<[r := Some (set_clr true w0)]> (walls_by_index s)) w = Some t' ∧
    t ≤ t' ∧ t' ≤ 8.
Proof.
  intros HW Hinit Hsteps Hw0.
  pose proof (gi_walls _ _ _ _ (run_inv _ _ ticks s0 s1 s n HW Hinit Hsteps)) as Hok.
  assert (Hok' : walls_ok GRID_WIDTH GRID_HEIGHT
                   (<[r := Some (set_clr true w0)]> (walls_by_index s))).
  { apply (walls_ok_insert _ _ _ r w0); [done..|].
    by destruct (wo_wall _ _ _ Hok _ _ Hw0) as (_ & _ & ?). }
  eexists _, _. split; [by apply classify_ctype|].
  split; [by apply classify_ctype|].
  split; [by apply ctype_insert_clr_le|by apply ctype_le].
Qed.

End Types.

Lemma wall_types_are_current_witness :
  classify 3 3 (walls_by_index stale_3x3) (Wall 0 0 false 1 true) = Some 1 ∧
  update_wall_type 3 3 1 stale_3x3 = Some stale_3x3.
Proof.
  apply (wall_types_are_current 3 3 0 (blank 7) start_3x3 stale_3x3 17
           1 (Wall 0 0 false 1 true)).
  - lia.
  - vm_compute. reflexivity.
  - vm_compute. reflexivity.
  - reflexivity.
Defined.

(** ** What [init] leaves behind *)

Section InitState.

Context {G : Type} `{RandomSource G} `{MathPow}.
Variables (GRID_WIDTH GRID_HEIGHT : nat).

(** Bucket 0 holds references to walls that exist, none of them twice, and
    the other eight buckets are empty. *)
Definition fresh (s : state G) : Prop :=
  length (wall_queues s) = 9 ∧
  (∀ i, 0 < i → i < 9 → wall_queues s !! i = Some []) ∧
  ∃ q0, wall_queues s !! 0 = Some q0 ∧ NoDup q0 ∧
        ∀ r, r ∈ q0 → r < length (walls_by_index s).

Lemma list_insert_at_Permutation {A} (i : nat) (x : A) (l : list A) :
  list_insert_at i x l ≡ₚ x :: l.
Proof.
  unfold list_insert_at. rewrite <- Permutation_middle.
  by rewrite take_drop.
Qed.

Lemma add_wall_fresh x y dr b (s s' : state G) :
  add_wall x y dr b s = Some s' → fresh s → fresh s'.
Proof.
  unfold add_wall. intros Hs (Hlen & Hrest & q0 & Hq0 & Hnd & Hbound).
  destruct b.
  - cbn [wall_queues set_walls rng] in Hs. rewrite Hq0 in Hs.
    cbn [mbind option_bind] in Hs. rewrite push_rand_eq in Hs.
    cbn [mbind option_bind] in Hs. injection Hs as <-. unfold fresh.
    cbn [wall_queues walls_by_index set_rng set_wall_queues set_walls].
    split; [by rewrite length_insert|]. split.
    + intros i Hi Hi9. rewrite list_lookup_insert_ne by lia. by apply Hrest.
    + eexists. split; [apply list_lookup_insert_eq; lia|]. split.
      * rewrite list_insert_at_Permutation. apply NoDup_cons_2; [|done].
        intros Hin. apply Hbound in Hin. lia.
      * intros r. rewrite elem_of_list_insert_at, length_app. simpl.
        intros [->|Hin]; [lia|]. apply Hbound in Hin. lia.
  - injection Hs as <-. unfold fresh. cbn [wall_queues walls_by_index set_walls].
    split; [done|]. split; [done|]. exists q0. split; [done|]. split; [done|].
    intros r Hin. rewrite length_app. apply Hbound in Hin. lia.
Qed.

Lemma init_cell_fresh y x (s s' : state G) :
  init_cell GRID_WIDTH GRID_HEIGHT y x s = Some s' → fresh s → fresh s'.
Proof.
  unfold init_cell. intros Hs Hf.
  destruct (add_wall x y true _ _) as [s1|] eqn:E1; [|done].
  cbn [mbind option_bind] in Hs.
  eapply add_wall_fresh; [exact Hs|]. eapply add_wall_fresh; [exact E1|].
  exact Hf.
Qed.

Lemma init_fresh ticks (s0 s1 : state G) :
  init GRID_WIDTH GRID_HEIGHT ticks s0 = Some s1 → fresh s1.
Proof.
  unfold init. intros Hs.
  destruct (rand_int GRID_WIDTH (rng s0)) as [[sx g1]|]; [|done].
  cbn [mbind option_bind] in Hs.
  destruct (rand_int GRID_WIDTH g1) as [[fx g2]|]; [|done].
  cbn [mbind option_bind] in Hs.
  match type of Hs with context [for_each ?l ?f ?t] =>
    destruct (for_each l f t) as [s'|] eqn:E; [|done] end.
  cbn [mbind option_bind] in Hs. injection Hs as <-.
  apply (for_each_rel (λ t t' : state G, fresh t → fresh t')) in E.
  - exact E.
  - done.
  - intros t1 t2 t3 H12 H23 Hf. by apply H23, H12.
  - intros y t t'. apply (for_each_rel (λ t t' : state G, fresh t → fresh t')).
    + done.
    + intros t1 t2 t3 H12 H23 Hf. by apply H23, H12.
    + intros x u u'. apply init_cell_fresh.
  - split; [done|]. split.
    + intros i Hi Hi9. cbn [wall_queues]. apply lookup_replicate. split; [done|lia].
    + exists []. split; [done|]. split; [apply NoDup_nil_2|].
      intros r Hr. by apply elem_of_nil in Hr.
Qed.

Lemma nine_buckets (qs : list (list nat)) q0 :
  length qs = 9 → qs !! 0 = Some q0 →
  (∀ i, 0 < i → i < 9 → qs !! i = Some []) →
  qs = q0 :: replicate 8 [].
Proof.
  intros Hl Hfirst Hr. apply list_eq. intros [|i]; [by rewrite Hfirst|].
  destruct (decide (S i < 9)) as [Hi|Hi].
  - rewrite Hr by lia. symmetry. cbn [lookup list_lookup].
    apply lookup_replicate. split; [done|lia].
  - rewrite lookup_ge_None_2 by lia. symmetry. apply lookup_ge_None_2.
    simpl. lia.
Qed.


End InitState.


(** ** The buckets *)

Section Buckets.

Context {G : Type} `{RandomSource G} `{MathPow}.
Variables (GRID_WIDTH GRID_HEIGHT : nat).

(** No bucket holds a wall twice, and a wall sits only in buckets up to
    its type. *)
Definition bucketed (s : state G) : Prop :=
  ∀ i q, wall_queues s !! i = Some q →
    NoDup q ∧
    ∀ r, r ∈ q → ∃ w, deref (walls_by_index s) r = Some w ∧ i ≤ wall_typ w.

Lemma update_wall_type_bucketed r (s s' : state G) :
  bucketed s → update_wall_type GRID_WIDTH GRID_HEIGHT r s = Some s' → bucketed s'.
Proof.
  intros Hb. unfold update_wall_type.
  destruct (deref (walls_by_index s) r) as [w|] eqn:Hw; [|done].
  cbn [mbind option_bind].
  destruct (classify _ _ _ w) as [t|]; [|done]. cbn [mbind option_bind].
  case_decide as Hlt; [|by intros [= <-]].
  cbn [wall_queues set_walls rng].
  destruct (wall_queues s !! t) as [q|] eqn:Hq; [|done].
  cbn [mbind option_bind]. rewrite push_rand_eq. cbn [mbind option_bind].
  intros [= <-]. unfold bucketed.
  cbn [wall_queues walls_by_index set_rng set_wall_queues set_walls].
  assert (Hr : r < length (walls_by_index s)) by (by eapply deref_lt).
  assert (Hnot : r ∉ q).
  { intros Hin. destruct (proj2 (Hb t q Hq) r Hin) as (w0 & Hw0 & Hle).
    rewrite Hw in Hw0. injection Hw0 as <-. lia. }
  intros i q'. destruct (decide (i = t)) as [->|Hne].
  - rewrite list_lookup_insert_eq by (by eapply lookup_lt_Some).
    intros [= <-]. split.
    + rewrite list_insert_at_Permutation. apply NoDup_cons_2; [done|].
      apply (Hb t q Hq).
    + intros r'. rewrite elem_of_list_insert_at, deref_insert by done.
      intros [->|Hin].
      * rewrite decide_True by done. eexists. split; [done|]. simpl. lia.
      * rewrite decide_False by (intros ->; done). by apply (Hb t q Hq).
  - rewrite list_lookup_insert_ne by done. intros Hq'.
    split; [apply (Hb i q' Hq')|]. intros r' Hin.
    destruct (proj2 (Hb i q' Hq') r' Hin) as (w' & Hw' & Hle).
    rewrite deref_insert by done. case_decide as Er.
    + subst r'. rewrite Hw in Hw'. injection Hw' as <-.
      eexists. split; [done|]. simpl. lia.
    + by exists w'.
Qed.

Lemma update_neighbour_bucketed w i (s s' : state G) :
  bucketed s → update_neighbour GRID_WIDTH GRID_HEIGHT w i s = Some s' → bucketed s'.
Proof.
  intros Hb. unfold update_neighbour.
  destruct (get_neighbour _ _ (walls_by_index s) w i) as [[nbr|]|];
    cbn [mbind option_bind]; [|by intros [= <-]|done].
  by apply update_wall_type_bucketed.
Qed.

Lemma try_wall_bucketed r (s : state G) b s' :
  bucketed s → try_wall GRID_WIDTH GRID_HEIGHT r s = Some (b, s') → bucketed s'.
Proof.
  intros Hb. unfold try_wall.
  destruct (deref (walls_by_index s) r) as [w|] eqn:Hw; [|done].
  cbn [mbind option_bind]. destruct (wall_clr w); [by intros [= <- <-]|].
  destruct (UF.union _ _ _) as [[a merged]|]; [|done].
  cbn [mbind option_bind]. destruct merged; [|by intros [= <- <-]].
  destruct (for_each _ _ _) as [s4|] eqn:E; [|done].
  cbn [mbind option_bind]. intros [= <- <-].
  apply (for_each_rel (λ t t' : state G, bucketed t → bucketed t')) in E.
  - exact E.
  - done.
  - intros t1 t2 t3 H12 H23 Hf. by apply H23, H12.
  - intros k t t' Ht Hbt. by eapply update_neighbour_bucketed.
  - unfold bucketed.
    cbn [draw_on set_walls set_union_find wall_queues walls_by_index].
    intros i q Hq. split; [apply (Hb i q Hq)|]. intros r' Hin.
    destruct (proj2 (Hb i q Hq) r' Hin) as (w' & Hw' & Hle).
    rewrite deref_insert by (by eapply deref_lt). case_decide as Er.
    + subst r'. rewrite Hw in Hw'. injection Hw' as <-. by eexists.
    + by exists w'.
Qed.

Lemma step_bucketed (s : state G) b s' :
  bucketed s → step GRID_WIDTH GRID_HEIGHT s = Some (b, s') → bucketed s'.
Proof.
  intros Hb. unfold step.
  destruct (selection s) as [[[i g]|]|]; cbn [mbind option_bind];
    [|by intros [= <- <-]|done].
  unfold take_from. cbn [wall_queues set_rng].
  destruct (wall_queues s !! i) as [q|] eqn:Hq; [|done]. cbn [mbind option_bind].
  destruct (pop q) as [[q' r]|] eqn:Hpop; [|by intros [= <- <-]].
  apply pop_Some in Hpop. subst q.
  set (s2 := set_wall_queues _ _).
  assert (Hb2 : bucketed s2).
  { unfold bucketed, s2. cbn [wall_queues walls_by_index set_wall_queues set_rng].
    intros j qj. destruct (decide (j = i)) as [->|Hne].
    - rewrite list_lookup_insert_eq by (by eapply lookup_lt_Some). intros [= <-].
      destruct (Hb i _ Hq) as [Hnd Hel]. split.
      + by apply list.NoDup_app in Hnd as (? & _).
      + intros r' Hin. apply Hel. apply elem_of_app. by left.
    - rewrite list_lookup_insert_ne by done. apply Hb. }
  destruct (deref (walls_by_index s2) r) as [w|]; [|done].
  cbn [mbind option_bind]. case_decide; [|by intros [= <- <-]].
  destruct (try_wall _ _ r s2) as [[ok s3]|] eqn:Htry; [|done].
  cbn [mbind option_bind]. apply try_wall_bucketed in Htry; [|done].
  destruct ok; by intros [= <- <-].
Qed.

(** X22. In every state of a run no bucket holds a wall twice, and every
    reference in bucket [i] designates a wall whose type is at least [i]:
    a wall is pushed on a bucket only when its type rises to that bucket's
    index, so a popped reference is out of date exactly when the wall's
    type has risen above the bucket it was popped from. *)
Theorem buckets_lag_behind_types ticks (s0 s1 s : state G) n i q :
  0 < GRID_WIDTH → init GRID_WIDTH GRID_HEIGHT ticks s0 = Some s1 →
  steps GRID_WIDTH GRID_HEIGHT n s1 = Some s →
  wall_queues s !! i = Some q →
  NoDup q ∧
  ∀ r, r ∈ q → ∃ w, deref (walls_by_index s) r = Some w ∧ i ≤ wall_typ w.
Proof.
  intros HW Hinit Hsteps.
  assert (Hb1 : bucketed s1).
  { pose proof (init_leaves_init_inv _ _ ticks s0 s1 HW Hinit) as Hii.
    destruct (init_fresh _ _ ticks s0 s1 Hinit) as (Hlen & Hrest & q0 & Hq0 & Hnd & _).
    intros j qj Hj. destruct (decide (j = 0)) as [->|Hne].
    - rewrite Hq0 in Hj. injection Hj as <-. split; [done|]. intros r Hin.
      destruct (ii_refs _ _ _ _ Hii 0 q0 r Hq0 Hin) as [w Hw].
      exists w. split; [done|lia].
    - apply lookup_lt_Some in Hj as Hlt.
      rewrite (Hrest j ltac:(lia) ltac:(lia)) in Hj. injection Hj as <-.
      split; [apply NoDup_nil_2|]. intros r Hin. by apply elem_of_nil in Hin. }
  assert (Hb : bucketed s).
  { clear Hinit. revert s1 Hb1 Hsteps.
    induction n as [|n IH]; intros s1 Hb1 Hsteps; cbn [steps] in Hsteps.
    - by injection Hsteps as <-.
    - destruct (step _ _ s1) as [[b s2]|] eqn:E; [|done].
      cbn [mbind option_bind] in Hsteps. apply (IH s2); [|done].
      by eapply step_bucketed. }
  apply Hb.
Qed.

End Buckets.

Lemma buckets_lag_behind_types_witness :
  NoDup [3; 14; 12] ∧
  ∀ r, r ∈ [3; 14; 12] →
       ∃ w, deref (walls_by_index stale_3x3) r = Some w ∧ 6 ≤ wall_typ w.
Proof.
  apply (buckets_lag_behind_types 3 3 0 (blank 7) start_3x3 stale_3x3 17 6).
  - lia.
  - vm_compute. reflexivity.
  - vm_compute. reflexivity.
  - vm_compute. reflexivity.
Defined.

Lemma removal_never_lowers_a_type_witness :
  ∃ t t',
    classify 3 3 (walls_by_index start_3x3) (Wall 1 1 true 0 false) = Some t ∧
    classify 3 3 (<[3 := Some (set_clr true (Wall 1 0 false 0 false))]>
                    (walls_by_index start_3x3)) (Wall 1 1 true 0 false) = Some t' ∧
    t ≤ t' ∧ t' ≤ 8.
Proof.
  apply (removal_never_lowers_a_type 3 3 0 (blank 7) start_3x3 start_3x3 0 3
           (Wall 1 0 false 0 false) (Wall 1 1 true 0 false)).
  - lia.
  - vm_compute. reflexivity.
  - reflexivity.
  - reflexivity.
Defined.

(** ** What generation paints *)

Section Picture.

Context {G : Type} `{RandomSource G} `{MathPow}.
Variables (GRID_WIDTH GRID_HEIGHT : nat).

(** The call [try_wall] makes on the screen when it removes a wall. *)
Definition wall_draw (w : wall) : draw :=
  fill_cell (Z.of_nat (wall_x w)) (Z.of_nat (wall_y w))
            (if wall_dr w then 1 else 0) (if wall_dr w then 0 else 1) WHITE.

(** What the picture depends on: where a wall is and whether it is
    removed. *)
Definition look (w : wall) : nat * nat * bool * bool :=
  (wall_x w, wall_y w, wall_dr w, wall_clr w).

Definition looks (walls : list (option wall)) (r : nat) : option (nat * nat * bool * bool) :=
  look <$> deref walls r.

(** Neither the screen nor the look of a wall changes. *)
Definition same_picture (s s' : state G) : Prop :=
  screen s' = screen s ∧ ∀ r, looks (walls_by_index s') r = looks (walls_by_index s) r.

Lemma same_picture_refl s : same_picture s s.
Proof. by split. Qed.

Lemma same_picture_trans s1 s2 s3 :
  same_picture s1 s2 → same_picture s2 s3 → same_picture s1 s3.
Proof. intros [E1 L1] [E2 L2]. split; [congruence|]. intros r. by rewrite L2. Qed.

Lemma update_wall_type_picture r (s s' : state G) :
  update_wall_type GRID_WIDTH GRID_HEIGHT r s = Some s' → same_picture s s'.
Proof.
  unfold update_wall_type.
  destruct (deref (walls_by_index s) r) as [w|] eqn:Hw; [|done].
  cbn [mbind option_bind].
  destruct (classify _ _ _ w) as [t|]; [|done]. cbn [mbind option_bind].
  case_decide as Hlt; [|intros [= <-]; apply same_picture_refl].
  cbn [wall_queues set_walls rng].
  destruct (wall_queues s !! t) as [q|]; [|done].
  cbn [mbind option_bind]. rewrite push_rand_eq. cbn [mbind option_bind].
  intros [= <-]. split; [done|]. intros r'.
  cbn [walls_by_index set_rng set_wall_queues set_walls]. unfold looks.
  rewrite deref_insert by (by eapply deref_lt). case_decide; [|done].
  subst r'. by rewrite Hw.
Qed.

Lemma update_neighbour_picture w i (s s' : state G) :
  update_neighbour GRID_WIDTH GRID_HEIGHT w i s = Some s' → same_picture s s'.
Proof.
  unfold update_neighbour.
  destruct (get_neighbour _ _ (walls_by_index s) w i) as [[nbr|]|];
    cbn [mbind option_bind]; [|intros [= <-]; apply same_picture_refl|done].
  apply update_wall_type_picture.
Qed.

(** [try_wall] paints the wall it removes, and nothing else. *)
Lemma try_wall_picture r (s : state G) w b s' :
  deref (walls_by_index s) r = Some w →
  try_wall GRID_WIDTH GRID_HEIGHT r s = Some (b, s') →
  if b
  then wall_clr w = false ∧ screen s' = screen s ++ [wall_draw w] ∧
       ∀ r', looks (walls_by_index s') r'
             = if decide (r' = r) then Some (wall_x w, wall_y w, wall_dr w, true)
               else looks (walls_by_index s) r'
  else same_picture s s'.
Proof.
  intros Hw. rewrite (try_wall_eq _ _ r s w Hw).
  destruct (wall_clr w) eqn:Hclr; [intros [= <- <-]; apply same_picture_refl|].
  destruct (UF.union _ _ _) as [[a merged]|]; [|done].
  cbn [mbind option_bind]. destruct merged; [|by intros [= <- <-]].
  destruct (for_each _ _ _) as [s4|] eqn:E; [|done].
  cbn [mbind option_bind]. intros [= <- <-].
  apply (for_each_rel same_picture) in E;
    [|apply same_picture_refl|apply same_picture_trans
     |intros k t t'; apply update_neighbour_picture].
  destruct E as [Escr Elook]. split; [done|]. split.
  - rewrite Escr. reflexivity.
  - intros r'. rewrite Elook.
    cbn [opened draw_on set_walls set_union_find walls_by_index]. unfold looks.
    rewrite deref_insert by (by eapply deref_lt). by case_decide.
Qed.

(** What the screen has received since [base]: one call for every removed
    wall. *)
Definition pictured (base : list draw) (s : state G) : Prop :=
  ∃ drawn, screen s = base ++ drawn ∧
    length drawn = removed_count (walls_by_index s) ∧
    ∀ d, d ∈ drawn ↔
         ∃ r x y dr, looks (walls_by_index s) r = Some (x, y, dr, true) ∧
           d = fill_cell (Z.of_nat x) (Z.of_nat y)
                         (if dr then 1 else 0) (if dr then 0 else 1) WHITE.

Lemma removed_count_looks (walls walls' : list (option wall)) :
  length walls' = length walls →
  (∀ r, looks walls' r = looks walls r) →
  removed_count walls' = removed_count walls.
Proof.
  revert walls'. induction walls as [|o walls IH]; intros [|o' walls'] Hlen Hl;
    try done.
  unfold removed_count in *. rewrite !filter_cons.
  assert (Ho : is_removed o' = is_removed o).
  { specialize (Hl 0). unfold looks, deref in Hl. simpl in Hl.
    destruct o as [w|], o' as [w'|]; simpl in *; try done.
    by injection Hl as _ _ _ ->. }
  rewrite Ho. specialize (IH walls' ltac:(simpl in Hlen; lia) (λ r, Hl (S r))).
  case_decide; simpl; lia.
Qed.

Lemma pictured_same base (s s' : state G) :
  same_picture s s' →
  removed_count (walls_by_index s') = removed_count (walls_by_index s) →
  pictured base s → pictured base s'.
Proof.
  intros [Escr Elook] Hcnt (drawn & Hs & Hlen & Hin). exists drawn.
  rewrite Escr, Hcnt. split; [done|]. split; [done|]. intros d.
  rewrite Hin. by setoid_rewrite Elook.
Qed.

Lemma step_pictured base (s : state G) b s' :
  gen_inv GRID_WIDTH GRID_HEIGHT (λ _, True) s → pictured base s →
  step GRID_WIDTH GRID_HEIGHT s = Some (b, s') → pictured base s'.
Proof.
  intros Hinv Hp. unfold step.
  destruct (selection_spec s (gi_buckets _ _ _ _ Hinv))
    as [[-> Hempty]|(i & q & -> & Hq & Hne)]; cbn [mbind option_bind].
  { by intros [= <- <-]. }
  unfold take_from. cbn [wall_queues set_rng]. rewrite Hq.
  cbn [mbind option_bind].
  destruct (pop q) as [[q' r]|] eqn:Hpop; [|by apply pop_None in Hpop].
  apply pop_Some in Hpop.
  assert (Hinv1 : gen_inv GRID_WIDTH GRID_HEIGHT (λ _, True)
                    (set_rng (random (rng s)).2 s)) by (by eapply gen_inv_frame).
  destruct (popped_inv _ _ q q' r i _ Hinv1 Hq Hpop) as [Hinv2 _].
  set (s2 := set_wall_queues _ _) in *.
  assert (Hp2 : pictured base s2) by exact Hp.
  destruct (gi_refs _ _ _ _ Hinv i q r Hq) as [w Hr].
  { rewrite Hpop. apply elem_of_app. right. by left. }
  change (walls_by_index s2) with (walls_by_index s). rewrite Hr.
  cbn [mbind option_bind]. case_decide as Htyp; [|by intros [= <- <-]].
  destruct (try_wall_inv _ _ r s2 w Hinv2 Hr) as (ok & s3 & Htry & _ & _ & Hb).
  rewrite Htry. cbn [mbind option_bind].
  pose proof (try_wall_picture r s2 w ok s3 Hr Htry) as Hpic.
  assert (Hp3 : pictured base s3).
  { destruct ok.
    - destruct Hb as [Hcnt _]. destruct Hpic as (Hclr & Hscr & Hlook).
      destruct Hp2 as (drawn & Hs & Hlen & Hin).
      exists (drawn ++ [wall_draw w]). rewrite Hscr, Hs, Hcnt, length_app.
      split; [by rewrite app_assoc|]. split; [rewrite Hlen; cbn [length]; lia|].
      intros d.
      rewrite elem_of_app, list_elem_of_singleton, Hin. split.
      + intros [(r' & x & y & dr & Hl' & ->) | ->].
        * exists r', x, y, dr. split; [|done]. rewrite Hlook.
          case_decide as Er; [|done]. subst r'. unfold looks in Hl'.
          change (walls_by_index s2) with (walls_by_index s) in Hl'.
          rewrite Hr in Hl'. simpl in Hl'. unfold look in Hl'. congruence.
        * exists r, (wall_x w), (wall_y w), (wall_dr w). split; [|done].
          rewrite Hlook. by rewrite decide_True.
      + intros (r' & x & y & dr & Hl' & ->). rewrite Hlook in Hl'.
        case_decide as Er.
        * right. by injection Hl' as <- <- <-.
        * left. by exists r', x, y, dr.
    - destruct Hb as [Ew _]. eapply pictured_same; [exact Hpic| |exact Hp2].
      by rewrite Ew. }
  destruct ok; intros [= <- <-]; exact Hp3.
Qed.

(** X24. Between [init] and any later state of a run the screen receives
    exactly one call for every wall that is removed, the white rectangle
    of that wall, and no other call: what is painted is what
    [walls_by_index] records. *)
Theorem picture_shows_removed_walls ticks (s0 s1 s : state G) n :
  0 < GRID_WIDTH → init GRID_WIDTH GRID_HEIGHT ticks s0 = Some s1 →
  steps GRID_WIDTH GRID_HEIGHT n s1 = Some s →
  ∃ drawn, screen s = screen s1 ++ drawn ∧
    length drawn = removed_count (walls_by_index s) ∧
    ∀ d, d ∈ drawn ↔
         ∃ r w, deref (walls_by_index s) r = Some w ∧ wall_clr w = true ∧
                d = wall_draw w.
Proof.
  intros HW Hinit Hsteps.
  destruct (init_spec GRID_WIDTH GRID_HEIGHT ticks s0 HW)
    as (s1' & Hinit' & Hinv1 & Hzero & _).
  rewrite Hinit in Hinit'. injection Hinit' as <-.
  assert (Hp1 : pictured (screen s1) s1).
  { exists []. split; [by rewrite app_nil_r|]. split; [by rewrite Hzero|].
    intros d. split; [intros Hd; by apply elem_of_nil in Hd|].
    intros (r & x & y & dr & Hl & _). exfalso. unfold looks in Hl.
    destruct (deref (walls_by_index s1) r) as [w|] eqn:Hw; [|done].
    simpl in Hl. unfold look in Hl.
    assert (Hc : is_removed (Some w) = true) by (simpl; congruence).
    apply deref_Some in Hw. apply list_elem_of_lookup_2 in Hw.
    unfold removed_count in Hzero.
    assert (Hin : Some w ∈ filter (λ o, is_removed o = true) (walls_by_index s1))
      by (by apply list_elem_of_filter).
    destruct (filter _ _); [by apply elem_of_nil in Hin|done]. }
  assert (Hp : pictured (screen s1) s).
  { clear Hinit Hzero. set (base := screen s1) in *. clearbody base.
    revert s1 Hinv1 Hsteps Hp1.
    induction n as [|n IH]; intros s1 Hinv1 Hsteps Hp1; cbn [steps] in Hsteps.
    - by injection Hsteps as <-.
    - destruct (step _ _ s1) as [[b s2]|] eqn:E; [|done].
      cbn [mbind option_bind] in Hsteps. apply (IH s2); [|done|].
      + destruct (step_inv _ _ s1 Hinv1) as [[E' _]|(s2' & E' & Hinv2 & _)];
          rewrite E' in E; by simplify_eq.
      + by eapply step_pictured. }
  destruct Hp as (drawn & Hs & Hlen & Hin). exists drawn.
  split; [done|]. split; [done|]. intros d. rewrite Hin. split.
  - intros (r & x & y & dr & Hl & ->). unfold looks in Hl.
    destruct (deref (walls_by_index s) r) as [w|] eqn:Hw; [|done].
    simpl in Hl. unfold look in Hl. injection Hl as <- <- <- Hclr.
    by exists r, w.
  - intros (r & w & Hw & Hclr & ->).
    exists r, (wall_x w), (wall_y w), (wall_dr w). split; [|done].
    unfold looks. rewrite Hw. simpl. unfold look. by rewrite Hclr.
Qed.

End Picture.

Lemma picture_shows_removed_walls_witness :
  ∃ drawn, screen stale_3x3 = screen start_3x3 ++ drawn ∧
    length drawn = removed_count (walls_by_index stale_3x3) ∧
    ∀ d, d ∈ drawn ↔
         ∃ r w, deref (walls_by_index stale_3x3) r = Some w ∧ wall_clr w = true ∧
                d = wall_draw w.
Proof.
  apply (picture_shows_removed_walls 3 3 0 (blank 7) start_3x3 stale_3x3 17).
  - lia.
  - vm_compute. reflexivity.
  - vm_compute. reflexivity.
Defined.
